(** * The upload server of FFMPEG_POC: claim markers, the HLS ladder and the
      observer broadcasts

    A shallow embedding of the server module (Express + TUS + ws +
    fluent-ffmpeg).  Handlers are written in a small state-and-exception
    monad over an explicit [world] (the three directories the server touches,
    the socket registries, the in-memory catalogue of local videos) and an
    [env] of everything the module does not define itself: the prober and the
    encoder, the clock, the identity generator and the runtime's global
    scope.

    What is kept and what is not:
    - a directory is a finite map from the names of its entries to nodes.
      Where [path.join] is given an entry that [fs.readdir] returned, and
      where a template literal appends [.json] or [.processed] to such a
      path, the path is the entry of that name.  The two joins that are given
      something else are followed through Node's lexical normalisation: the
      name the first pass derives from a flag, which can be empty, [.] or
      [..], and the filename of a process-request, which is whatever the
      client sent (see [tus.present] and [uploads.present]);
    - [fs.mkdir(..., {recursive: true})] and [fs.readdir] always succeed and
      are not traced; the other file operations fail as Node's do (a missing
      file, a directory in place of a file);
    - a file's content is kept as what the module's two parsers make of it
      (see [body]); numbers that go through [/], [*] and [Math.round] are
      IEEE-754 doubles, a dimension the probed stream does not carry is
      [NaN] from the first operation on, and a number in a template literal
      is printed as [Number::toString] prints it;
    - the heartbeat's [ping] and [terminate] calls act on the sockets and on
      nothing the module keeps, so the heartbeat hands them back as the list
      of controls it issued; a [Map] is the list of its entries in insertion
      order;
    - [path.extname] is Node's POSIX one; strings are byte strings, so
      [toLowerCase] is modelled as far as a comparison with ASCII strings
      can tell;
    - console output is dropped. *)

From Stdlib Require Import ZArith Floats Ascii String.
From stdpp Require Import gmap strings list fin_maps pretty.

#[local] Open Scope string_scope.
#[local] Open Scope Z_scope.

(** ** JavaScript built-ins used by the module *)

(** The [Number]s the module computes with: integers, [NaN] (which is also
    what [undefined] and a string that is no numeral become in arithmetic)
    and the two infinities.  [Int z] stands for the double nearest to [z]. *)
Inductive number :=
| Int (z : Z)
| NaN
| Infinity (negative : bool).

Coercion Int : Z >-> number.

#[local] Arguments inr {A B} & _.
#[local] Arguments pair {A B} & _ _.

Module JS.

(** [Number]s are IEEE-754 doubles; integers enter them by correct rounding. *)
Definition Number_of_Z (z : Z) : float :=
  SF2Prim (binary_normalize prec emax z 0 false).

Definition Number_of (n : number) : float :=
  match n with
  | Int z => Number_of_Z z
  | NaN => PrimFloat.nan
  | Infinity negative => if negative then PrimFloat.neg_infinity else PrimFloat.infinity
  end.

(** [Math.round]: the nearest integer, ties towards +infinity. *)
Definition Math_round (x : float) : number :=
  match Prim2SF x with
  | S754_zero _ => Int 0
  | S754_finite s m e =>
      let v := if s then Z.neg m else Z.pos m in
      Int (if 0 <=? e then v * 2 ^ e
           else (2 * v + 2 ^ (- e)) / 2 ^ (1 - e))
  | S754_infinity s => Infinity s
  | S754_nan => NaN
  end.

(** [Math.min] of two arguments: [NaN] if either is. *)
Definition Math_min (a b : number) : number :=
  match a, b with
  | NaN, _ | _, NaN => NaN
  | Infinity true, _ | _, Infinity true => Infinity true
  | Infinity false, x | x, Infinity false => x
  | Int x, Int y => Int (Z.min x y)
  end.

(** *** [Number::toString]

    For a positive integer [a] that a double holds exactly: the decimal
    digits [s] (there are [k] of them) and the exponent [n] with [k] as
    small as possible such that [s * 10^(n-k)] still reads back as the same
    double, the nearest to [a] among those, the even [s] on a tie. *)

Definition same_Number (a b : Z) : bool :=
  PrimFloat.eqb (Number_of_Z a) (Number_of_Z b).

(** The candidates with [k] digits, as pairs of [s] and [n]; [d] is the
    number of digits of [a]. *)
Definition candidates (a d k : Z) : list (Z * Z) :=
  n ← [d; d + 1];
  s ← [a / 10 ^ (n - k); a / 10 ^ (n - k) + 1];
  if (k <=? n) && (10 ^ (k - 1) <=? s) && (s <? 10 ^ k)
     && same_Number (s * 10 ^ (n - k)) a
  then [(s, n)] else [].

Definition closer (a k : Z) (best c : Z * Z) : Z * Z :=
  let dist := fun p : Z * Z => Z.abs (p.1 * 10 ^ (p.2 - k) - a) in
  if dist c <? dist best then c
  else if (dist c =? dist best) && Z.even c.1 then c
  else best.

Fixpoint shortest (fuel : nat) (a d k : Z) : option (Z * Z) :=
  match fuel with
  | O => None
  | S fuel' =>
      match candidates a d k with
      | [] => shortest fuel' a d (k + 1)
      | c :: cs => Some (foldl (closer a k) c cs)
      end
  end.

Fixpoint zeros (n : nat) : string :=
  match n with
  | O => EmptyString
  | S n' => String "0" (zeros n')
  end.

(** Up to 21 digits the number is written out, the digits after the
    [k]-th being zeros; beyond that it is written with an exponent. *)
Definition toString_positive (a : Z) : string :=
  let d := Z.of_nat (String.length (pretty a)) in
  match shortest 17 a d 1 with
  | None => pretty a
  | Some (s, n) =>
      let digits := pretty s in
      let k := Z.of_nat (String.length digits) in
      if n <=? 21 then digits +:+ zeros (Z.to_nat (n - k))
      else match digits with
           | EmptyString => EmptyString
           | String c EmptyString => digits +:+ "e+" +:+ pretty (n - 1)
           | String c rest => String c ("." +:+ rest) +:+ "e+" +:+ pretty (n - 1)
           end
  end.

(** Template-literal rendering of a number. *)
Definition show (n : number) : string :=
  match n with
  | NaN => "NaN"
  | Infinity negative => if negative then "-Infinity" else "Infinity"
  | Int z =>
      match Prim2SF (Number_of_Z z) with
      | S754_zero _ => "0"
      | S754_infinity s => if s then "-Infinity" else "Infinity"
      | S754_nan => "NaN"
      | S754_finite s m e =>
          let a := if 0 <=? e then Z.pos m * 2 ^ e else Z.pos m / 2 ^ (- e) in
          (if s then "-" else "") +:+ toString_positive a
      end
  end.

Definition digit (c : ascii) : option Z :=
  let n := Z.of_N (Ascii.N_of_ascii c) in
  if (48 <=? n) && (n <=? 57) then Some (n - 48) else None.

Fixpoint parseInt_from (acc : option Z) (s : string) : option Z :=
  match s with
  | EmptyString => acc
  | String c s' =>
      match digit c with
      | Some d => parseInt_from (Some (10 * default 0 acc + d)) s'
      | None => acc
      end
  end.

(** [parseInt] on the bitrate strings of the ladder: the leading decimal
    digits, [NaN] when there is none. *)
Definition parseInt (s : string) : number :=
  match parseInt_from None s with
  | Some z => Int z
  | None => NaN
  end.

Fixpoint startsWith (p s : string) : bool :=
  match p, s with
  | EmptyString, _ => true
  | String a p', String b s' => if Ascii.eqb a b then startsWith p' s' else false
  | String _ _, EmptyString => false
  end.

Fixpoint skip (n : nat) (s : string) : string :=
  match n, s with
  | O, _ => s
  | S n', String _ s' => skip n' s'
  | S _, EmptyString => EmptyString
  end.

(** [s.replace(p, '')] with a string pattern: the first occurrence of [p]
    is cut out, later ones stay. *)
Fixpoint replace_first (p s : string) : string :=
  if startsWith p s then skip (String.length p) s
  else match s with
       | EmptyString => EmptyString
       | String c s' => String c (replace_first p s')
       end.

Fixpoint endsWith (s p : string) : bool :=
  if String.eqb s p then true
  else match s with
       | EmptyString => false
       | String _ s' => endsWith s' p
       end.

End JS.

Definition nl : string := String "010"%char EmptyString.

(** ** Data model *)

(** What a file in the upload directory reads as.  The scanner only ever
    parses a file as a date or as the TUS side-car JSON, so a body is kept as
    what those two parsers make of it. *)
Inductive body :=
| IsoDate (ms : Z)               (* text written by [new Date().toISOString()] *)
| UploadInfo (size : option Z)   (* JSON object, with its numeric [size] if any *)
| Opaque.                        (* media bytes, or text neither parser accepts *)

Inductive node :=
| Dir
| File (size : Z) (content : body).

(** Files below [public/hls/<videoId>/]. *)
Inductive artefact :=
| MasterPlaylist (text : string)
| MediaPlaylist
| MediaSegment.

(** A source is addressed through the directory it lives in. *)
Inductive source :=
| InTus (name : string)       (* uploads/tus-uploads/<name> *)
| InUploads (name : string).  (* uploads/<name> *)

#[global] Instance source_eq_dec : EqDecision source.
Proof. solve_decision. Defined.

Record exn := { exn_name : string; message : string }.

Definition ReferenceError (ident : string) : exn :=
  {| exn_name := "ReferenceError"; message := ident +:+ " is not defined" |}.
Definition Error (msg : string) : exn :=
  {| exn_name := "Error"; message := msg |}.
Definition SyntaxError (msg : string) : exn :=
  {| exn_name := "SyntaxError"; message := msg |}.
Definition fs_error (code : string) : exn :=
  {| exn_name := "Error"; message := code |}.

(** One ffmpeg run: the input, the identity whose directory it writes to and
    the playlist it was asked to produce. *)
Record job := { job_input : source; job_vid : string; job_output : string }.

#[global] Instance job_eq_dec : EqDecision job.
Proof. solve_decision. Defined.

(** How a run settles: the ['end'] event, the ['error'] event, or neither so
    far.  The number counts the segments it put on disk until then. *)
Inductive settled :=
| Done (segments : nat)
| Failed (segments : nat) (msg : string)
| Pending.

Record videoInfo := {
  vi_id : string;
  vi_filename : string;
  vi_hlsUrl : string;
  vi_timestamp : Z;
  vi_processed : bool   (* the catalogue copy carries [processed: true] *)
}.

(** Frames handed to [send], before [JSON.stringify]. *)
Inductive frame :=
| processing_started (videoId : string)
| videoProcessed (videoId hlsUrl : string)
| videoError (videoId error : string)
| localVideoProcessed (video : videoInfo).

Record socket := { sock_id : string; readyState : Z }.
Record client := { client_id : string; client_ws : socket; isAlive : bool }.

Inductive event :=
| Started (j : job)                     (* [.run()] *)
| Ended (j : job)                       (* ['end'] observed by the awaiting handler *)
| Errored (j : job) (msg : string)      (* ['error'] observed by the awaiting handler *)
| HlsWrite (vid name : string)
| TusWrite (name : string)
| TusUnlink (name : string).

Record world := {
  tusUploadDir : gmap string node;
  uploadsDir : gmap string node;
  hlsDir : gmap (string * string) artefact;
  clients : list client;                      (* the [clients] Map, in insertion order *)
  wss_clients : list socket;                  (* [wss.clients] *)
  processedLocalVideos : gmap string videoInfo;
  outbox : list (string * frame);             (* frames sent, oldest first, by socket *)
  trace : list event;                         (* oldest first *)
  uuids : nat;                                (* [uuidv4()] calls so far *)
  ticks : nat                                 (* clock readings so far *)
}.

(** What the module takes from outside. *)
Record env := {
  global_WebSocket : bool;        (* does the runtime bind the identifier [WebSocket]? *)
  uuid : nat -> string;
  clock : nat -> Z;               (* milliseconds since the epoch, by reading *)
  (* [inr]: the width and the height of [streams[0]], [NaN] for one the stream
     does not carry.  [inl]: what the [try] catches before anything is
     written, the probe's error or the [TypeError] of destructuring a
     [streams[0]] that is not there. *)
  ffprobe : source -> exn + (number * number);
  ffmpeg : job -> settled;
  (* does [path.join(uploadsDir, name)] lead to something, for a [name] that
     leads out of the directories kept in the [world]? *)
  beyond : string -> bool
}.

Definition set_tus (f : gmap string node -> gmap string node) (w : world) : world :=
  {| tusUploadDir := f (tusUploadDir w); uploadsDir := uploadsDir w;
     hlsDir := hlsDir w; clients := clients w; wss_clients := wss_clients w;
     processedLocalVideos := processedLocalVideos w; outbox := outbox w;
     trace := trace w; uuids := uuids w; ticks := ticks w |}.

Definition set_hls (f : gmap (string * string) artefact -> gmap (string * string) artefact)
    (w : world) : world :=
  {| tusUploadDir := tusUploadDir w; uploadsDir := uploadsDir w;
     hlsDir := f (hlsDir w); clients := clients w; wss_clients := wss_clients w;
     processedLocalVideos := processedLocalVideos w; outbox := outbox w;
     trace := trace w; uuids := uuids w; ticks := ticks w |}.

Definition set_catalogue (f : gmap string videoInfo -> gmap string videoInfo)
    (w : world) : world :=
  {| tusUploadDir := tusUploadDir w; uploadsDir := uploadsDir w;
     hlsDir := hlsDir w; clients := clients w; wss_clients := wss_clients w;
     processedLocalVideos := f (processedLocalVideos w); outbox := outbox w;
     trace := trace w; uuids := uuids w; ticks := ticks w |}.

Definition push_outbox (x : string * frame) (w : world) : world :=
  {| tusUploadDir := tusUploadDir w; uploadsDir := uploadsDir w;
     hlsDir := hlsDir w; clients := clients w; wss_clients := wss_clients w;
     processedLocalVideos := processedLocalVideos w; outbox := outbox w ++ [x];
     trace := trace w; uuids := uuids w; ticks := ticks w |}.

Definition push_trace (e : event) (w : world) : world :=
  {| tusUploadDir := tusUploadDir w; uploadsDir := uploadsDir w;
     hlsDir := hlsDir w; clients := clients w; wss_clients := wss_clients w;
     processedLocalVideos := processedLocalVideos w; outbox := outbox w;
     trace := trace w ++ [e]; uuids := uuids w; ticks := ticks w |}.

Definition bump_uuids (w : world) : world :=
  {| tusUploadDir := tusUploadDir w; uploadsDir := uploadsDir w;
     hlsDir := hlsDir w; clients := clients w; wss_clients := wss_clients w;
     processedLocalVideos := processedLocalVideos w; outbox := outbox w;
     trace := trace w; uuids := S (uuids w); ticks := ticks w |}.

Definition bump_ticks (w : world) : world :=
  {| tusUploadDir := tusUploadDir w; uploadsDir := uploadsDir w;
     hlsDir := hlsDir w; clients := clients w; wss_clients := wss_clients w;
     processedLocalVideos := processedLocalVideos w; outbox := outbox w;
     trace := trace w; uuids := uuids w; ticks := S (ticks w) |}.

(** ** The handler monad

    An [async] function runs until it returns, throws, or reaches an [await]
    on a promise that has not settled; in the last case it is [Parked] and
    the event loop is free to run another handler on the world it left. *)

Inductive outcome (A : Type) :=
| Returned (a : A)
| Thrown (e : exn)
| Parked.
Arguments Returned {A} a.
Arguments Thrown {A} e.
Arguments Parked {A}.

Definition M (A : Type) : Type := env -> world -> outcome A * world.

#[global] Instance M_ret : MRet M := fun A a _ w => (Returned a, w).

#[global] Instance M_bind : MBind M := fun A B k m E w =>
  match m E w with
  | (Returned a, w') => k a E w'
  | (Thrown e, w') => (Thrown e, w')
  | (Parked, w') => (Parked, w')
  end.

Definition throw {A} (e : exn) : M A := fun _ w => (Thrown e, w).

(** [try { m } catch (e) { h e }], and [promise.catch(h)] alike. *)
Definition try_catch {A} (m : M A) (h : exn -> M A) : M A := fun E w =>
  match m E w with
  | (Thrown e, w') => h e E w'
  | r => r
  end.

Definition modify (f : world -> world) : M unit := fun _ w => (Returned tt, f w).
Definition gets {A} (f : world -> A) : M A := fun _ w => (Returned (f w), w).
Definition asks {A} (f : env -> A) : M A := fun E w => (Returned (f E), w).

(** [for (const x of l)] with the loop-carried variable [s]. *)
Fixpoint for_of {A S} (l : list A) (f : A -> S -> M S) (s : S) : M S :=
  match l with
  | [] => mret s
  | x :: l' => s' ← f x s; for_of l' f s'
  end.

(** [l.forEach(f)]. *)
Definition forEach {A} (l : list A) (f : A -> M unit) : M unit :=
  for_of l (fun x _ => f x) tt.

(** ** Primitive effects *)

Definition uuidv4 : M string := fun E w => (Returned (uuid E (uuids w)), bump_uuids w).

(** [new Date()], as milliseconds. *)
Definition Date_now : M Z := fun E w => (Returned (clock E (ticks w)), bump_ticks w).

(** [new Date(text)]: a time value, or the invalid date. *)
Definition Date_parse (b : body) : option Z :=
  match b with
  | IsoDate ms => Some ms
  | UploadInfo _ | Opaque => None
  end.

(** [JSON.parse(text)] as far as the scanner looks into it: the [size] field
    of the parsed object. *)
Definition JSON_parse (b : body) : M (option Z) :=
  match b with
  | UploadInfo size => mret size
  | IsoDate _ | Opaque => throw (SyntaxError "Unexpected token in JSON")
  end.

(** Evaluating the expression [WebSocket.OPEN]. *)
Definition WebSocket_OPEN : M Z := fun E w =>
  if global_WebSocket E then (Returned 1, w)
  else (Thrown (ReferenceError "WebSocket"), w).

Definition send (s : socket) (f : frame) : M unit :=
  modify (push_outbox (sock_id s, f)).

Module tus.
Definition readdir : M (list string) :=
  gets (fun w => (map_to_list (tusUploadDir w)).*1).

(** Is there something at [path.join(tusUploadDir, name)], for a [name]
    without a separator?  The empty name and [.] lead to the directory
    itself and [..] to its parent, which are there; any other name is an
    entry of the directory. *)
Definition present (w : world) (name : string) : bool :=
  if bool_decide (name ∈ [""; "."; ".."]) then true
  else bool_decide (is_Some (tusUploadDir w !! name)).

Definition access (name : string) : M unit := fun _ w =>
  if present w name then (Returned tt, w)
  else (Thrown (fs_error "ENOENT"), w).

Definition stat (name : string) : M node := fun _ w =>
  match tusUploadDir w !! name with
  | Some n => (Returned n, w)
  | None => (Thrown (fs_error "ENOENT"), w)
  end.

Definition readFile (name : string) : M body := fun _ w =>
  match tusUploadDir w !! name with
  | Some (File _ b) => (Returned b, w)
  | Some Dir => (Thrown (fs_error "EISDIR"), w)
  | None => (Thrown (fs_error "ENOENT"), w)
  end.

Definition writeFile (name : string) (size : Z) (b : body) : M unit := fun _ w =>
  match tusUploadDir w !! name with
  | Some Dir => (Thrown (fs_error "EISDIR"), w)
  | _ => (Returned tt, push_trace (TusWrite name) (set_tus (<[name := File size b]>) w))
  end.

Definition unlink (name : string) : M unit := fun _ w =>
  match tusUploadDir w !! name with
  | Some (File _ _) => (Returned tt, push_trace (TusUnlink name) (set_tus (delete name) w))
  | Some Dir => (Thrown (fs_error "EISDIR"), w)
  | None => (Thrown (fs_error "ENOENT"), w)
  end.
End tus.

(** *** Paths below the uploads directory

    [path.join(uploadsDir, name)] for a [name] that comes with a request.
    The join is lexical: [name] is cut at the separators, empty segments and
    [.] are dropped, and [..] takes the segment before it away or, when there
    is none, leads one directory up. *)
Module Join.
Fixpoint split (s : string) : list string :=
  match s with
  | EmptyString => [EmptyString]
  | String c s' =>
      if Ascii.eqb c "/" then EmptyString :: split s'
      else match split s' with
           | seg :: rest => String c seg :: rest
           | [] => [String c EmptyString]
           end
  end.

(** One segment; the state is the number of steps up and the segments
    below, the last one first. *)
Definition step (st : nat * list string) (seg : string) : nat * list string :=
  let '(ups, stack) := st in
  if bool_decide (seg ∈ [""; "."]) then st
  else if String.eqb seg ".." then
    match stack with
    | _ :: stack' => (ups, stack')
    | [] => (S ups, [])
    end
  else (ups, seg :: stack).

(** The steps up from the directory and the segments below, in order. *)
Definition relative (name : string) : nat * list string :=
  let '(ups, stack) := foldl step (O, []) (split name) in (ups, rev stack).
End Join.

Module uploads.
(** An entry of a directory as the last segment of a path: a regular file
    is not found behind a trailing separator. *)
Definition leaf (n : option node) (name : string) : bool :=
  match n with
  | Some Dir => true
  | Some (File _ _) => negb (JS.endsWith name "/")
  | None => false
  end.

(** Is there something at [path.join(uploadsDir, name)]?  An entry of the
    directory is there under its own name.  Any other name is followed
    through the join: to the directory itself, to an entry, into
    [tus-uploads], or out of what the [world] keeps, where the environment
    answers. *)
Definition present (E : env) (w : world) (name : string) : bool :=
  match uploadsDir w !! name with
  | Some _ => true
  | None =>
      match Join.relative name with
      | (O, []) => true
      | (O, [n]) => leaf (uploadsDir w !! n) name
      | (O, n :: m :: rest) =>
          match uploadsDir w !! n with
          | Some Dir =>
              if String.eqb n "tus-uploads" then
                match rest with
                | [] => leaf (tusUploadDir w !! m) name
                | _ :: _ =>
                    match tusUploadDir w !! m with
                    | Some Dir => beyond E name
                    | _ => false
                    end
                end
              else beyond E name
          | _ => false
          end
      | (S _, []) => true
      | (S _, _ :: _) => beyond E name
      end
  end.

Definition access (name : string) : M unit := fun E w =>
  if present E w name then (Returned tt, w)
  else (Thrown (fs_error "ENOENT"), w).
End uploads.

Module hls.
Definition access (vid name : string) : M unit := fun _ w =>
  match hlsDir w !! (vid, name) with
  | Some _ => (Returned tt, w)
  | None => (Thrown (fs_error "ENOENT"), w)
  end.

Definition writeFile (vid name : string) (a : artefact) : M unit :=
  modify (fun w => push_trace (HlsWrite vid name) (set_hls (<[(vid, name) := a]>) w)).
End hls.

(** [fs.access(p).then(() => true).catch(() => false)]. *)
Definition exists_ (m : M unit) : M bool :=
  try_catch (_ ← m; mret true) (fun _ => mret false).

Definition source_unlink (s : source) : M unit :=
  match s with
  | InTus name => tus.unlink name
  | InUploads name => fun _ w =>
      match uploadsDir w !! name with
      | Some (File _ _) =>
          (Returned tt,
           {| tusUploadDir := tusUploadDir w; uploadsDir := delete name (uploadsDir w);
              hlsDir := hlsDir w; clients := clients w; wss_clients := wss_clients w;
              processedLocalVideos := processedLocalVideos w; outbox := outbox w;
              trace := trace w; uuids := uuids w; ticks := ticks w |})
      | Some Dir => (Thrown (fs_error "EISDIR"), w)
      | None => (Thrown (fs_error "ENOENT"), w)
      end
  end.

(** *** The encoder *)

(** The first [n] segments of a run; [segment_name] is the run's
    [-hls_segment_filename] pattern. *)
Definition write_segments (vid : string) (segment_name : nat -> string) (n : nat) : M unit :=
  forEach (seq 0 n) (fun k => hls.writeFile vid (segment_name k) MediaSegment).

(** [ffmpeg(input)....run()]: the subprocess starts. *)
Definition ffmpeg_run (j : job) : M unit := modify (push_trace (Started j)).

(** [await] on the promise wrapped around a run. *)
Definition ffmpeg_await (segment_name : nat -> string) (j : job) : M unit :=
  r ← asks (fun E => ffmpeg E j);
  match r with
  | Done n =>
      write_segments (job_vid j) segment_name n;;
      hls.writeFile (job_vid j) (job_output j) MediaPlaylist;;
      modify (push_trace (Ended j))
  | Failed n msg =>
      write_segments (job_vid j) segment_name n;;
      modify (push_trace (Errored j msg));;
      throw (Error msg)
  | Pending => fun _ w => (Parked, w)
  end.

(** Runs started and not yet observed to settle. *)
Definition settles (j : job) (e : event) : bool :=
  match e with
  | Ended j' | Errored j' _ => bool_decide (j = j')
  | _ => false
  end.

Fixpoint running_in (t : list event) : list job :=
  match t with
  | [] => []
  | Started j :: t' =>
      if existsb (settles j) t' then running_in t' else j :: running_in t'
  | _ :: t' => running_in t'
  end.

Definition running (w : world) : list job := running_in (trace w).

(** Every run ever started, in order. *)
Definition started (w : world) : list job :=
  omap (fun e => match e with Started j => Some j | _ => None end) (trace w).

(** ** The quality ladder and the master playlist *)

Record quality := {
  q_name : string;
  q_height : Z;
  q_bitrate : string;
  q_preset : string
}.

Definition qualities : list quality :=
  [ {| q_name := "360p"; q_height := 360; q_bitrate := "800k"; q_preset := "ultrafast" |};
    {| q_name := "480p"; q_height := 480; q_bitrate := "1500k"; q_preset := "ultrafast" |};
    {| q_name := "720p"; q_height := 720; q_bitrate := "2500k"; q_preset := "ultrafast" |} ].

(** [width] and [height] are what the handler reads off [streams[0]]: [NaN]
    in the arithmetic when the stream has none. *)
Definition aspectRatio (width height : number) : float :=
  PrimFloat.div (JS.Number_of width) (JS.Number_of height).

Definition targetHeight (q : quality) (height : number) : number :=
  JS.Math_min (q_height q) height.

Definition targetWidth (q : quality) (width height : number) : number :=
  JS.Math_round
    (PrimFloat.mul (JS.Number_of (targetHeight q height)) (aspectRatio width height)).

(** One [#EXT-X-STREAM-INF] entry, before it is rendered. *)
Record stream_inf := {
  inf_bandwidth : string;      (* the digits after [BANDWIDTH=] *)
  inf_width : number;
  inf_height : number;
  inf_uri : string
}.

Definition master_entry (width height : number) (q : quality) : stream_inf :=
  {| inf_bandwidth := JS.show (JS.parseInt (q_bitrate q)) +:+ "000";
     inf_width := targetWidth q width height;
     inf_height := targetHeight q height;
     inf_uri := q_name q +:+ ".m3u8" |}.

Definition render_entry (e : stream_inf) : string :=
  "#EXT-X-STREAM-INF:BANDWIDTH=" +:+ inf_bandwidth e +:+
  ",RESOLUTION=" +:+ JS.show (inf_width e) +:+ "x" +:+ JS.show (inf_height e) +:+ nl +:+
  inf_uri e +:+ nl.

Definition master_entries (ladder : list quality) (width height : number)
    : list stream_inf :=
  master_entry width height <$> ladder.

Definition masterPlaylist (ladder : list quality) (width height : number) : string :=
  foldl (fun acc e => acc +:+ render_entry e)
        ("#EXTM3U" +:+ nl +:+ "#EXT-X-VERSION:3" +:+ nl)
        (master_entries ladder width height).

(** ** The push path: [tusServer.on('upload-finish', ...)] *)

(** [wss.clients.forEach(client => { if (client.readyState === WebSocket.OPEN)
    client.send(...) })]. *)
Definition broadcast_wss (f : frame) : M unit :=
  cs ← gets wss_clients;
  forEach cs (fun client =>
    open ← WebSocket_OPEN;
    if readyState client =? open then send client f else mret tt).

Definition variant_job (path : source) (videoId : string) (q : quality) : job :=
  {| job_input := path; job_vid := videoId; job_output := q_name q +:+ ".m3u8" |}.

(** ffmpeg's default segment names next to [<name>.m3u8]. *)
Definition variant_segment (q : quality) (k : nat) : string :=
  q_name q +:+ pretty k +:+ ".ts".

Definition hlsUrl_of (videoId : string) : string :=
  "/hls/" +:+ videoId +:+ "/playlist.m3u8".

(** The body of the loop over [qualities]; the loop-carried flag is
    [processingStartedNotified]. *)
Definition encode_rung (path : source) (videoId : string)
    (q : quality) (processingStartedNotified : bool) : M bool :=
  let processPromise := variant_job path videoId q in
  ffmpeg_run processPromise;;
  (if negb processingStartedNotified
   then broadcast_wss (videoProcessed videoId (hlsUrl_of videoId))
   else mret tt);;
  ffmpeg_await (variant_segment q) processPromise;;
  mret true.

(** The event's [file.path]: [None] when [file] or its path is missing.  The
    file store keeps uploads in [tusUploadDir], so a path is a name there. *)
Record upload_event := { file_path : option string }.

(** [videoId] is declared before the [try] and assigned before anything in it
    can throw, so the handler's [catch] always sees it assigned. *)
Definition on_upload_finish (event : upload_event) : M unit :=
  match file_path event with
  | None | Some EmptyString => mret tt
  | Some name =>
      let path := InTus name in
      videoId ← uuidv4;
      try_catch
        (probe ← asks (fun E => ffprobe E path);
         metadata ← match probe with
                    | inl err => throw err
                    | inr d => mret d
                    end;
         let '(width, height) := metadata in
         hls.writeFile videoId "playlist.m3u8"
           (MasterPlaylist (masterPlaylist qualities width height));;
         for_of qualities (encode_rung path videoId) false;;
         try_catch (source_unlink path) (fun unlinkError => mret tt))
        (fun error => broadcast_wss (videoError videoId (message error)))
  end.

(** ** The single-quality converter: [processVideo] *)

Definition pad3 (k : nat) : string :=
  let s := pretty k in
  match String.length s with
  | 1%nat => "00" +:+ s
  | 2%nat => "0" +:+ s
  | _ => s
  end.

Definition processVideo (inputPath : source) (videoId : string) : M string :=
  try_catch
    (let j := {| job_input := inputPath; job_vid := videoId;
                 job_output := "playlist.m3u8" |} in
     ffmpeg_run j;;
     ffmpeg_await (fun k => "segment_" +:+ pad3 k +:+ ".ts") j;;
     mret videoId)
    (fun error => throw error).

(** ** The scanner: [checkForCompletedUploads] *)

Definition TTL : Z := 30 * 60 * 1000.

(** [clients.forEach((client, id) => { if (client.ws && client.ws.readyState
    === WebSocket.OPEN) client.ws.send(...) })]; [client.ws] is always an
    object. *)
Definition broadcast_clients (f : frame) : M unit :=
  cs ← gets clients;
  forEach cs (fun client =>
    open ← WebSocket_OPEN;
    if readyState (client_ws client) =? open then send (client_ws client) f else mret tt).

Definition flag_of (file : string) : string := file +:+ ".processed".

(** [fs.unlink(p).catch(() => {})]. *)
Definition unlink_quietly (name : string) : M unit :=
  try_catch (tus.unlink name) (fun _ => mret tt).

(** The body of the loop over the [.processed] flags. *)
Definition prune_flag (processedFlag : string) (processedVideoIds : gset string)
    : M (gset string) :=
  let originalFile := JS.replace_first ".processed" processedFlag in
  originalExists ← exists_ (tus.access originalFile);
  if originalExists : bool then
    processedContent ← try_catch (tus.readFile processedFlag) (fun _ => mret Opaque);
    try_catch
      (let processedDate := Date_parse processedContent in
       now ← Date_now;
       (* [now - processedDate > 30 * 60 * 1000]; false on the invalid date *)
       if match processedDate with
          | Some d => TTL <? now - d
          | None => false
          end
       then unlink_quietly processedFlag;; mret processedVideoIds
       else mret ({[originalFile]} ∪ processedVideoIds))
      (fun e => unlink_quietly processedFlag;; mret processedVideoIds)
  else
    unlink_quietly processedFlag;; mret processedVideoIds.

(** The attempt proper, from the [try] after the flag is written. *)
Definition scan_attempt (file videoId : string) (processedVideoIds : gset string)
    : M (gset string) :=
  try_catch
    (broadcast_clients (processing_started videoId);;
     processVideo (InTus file) videoId;;
     playlistExists ← exists_ (hls.access videoId "playlist.m3u8");
     if playlistExists : bool then
       broadcast_clients (videoProcessed videoId (hlsUrl_of videoId));;
       mret ({[file]} ∪ processedVideoIds)
     else
       throw (Error ("HLS playlist not created for " +:+ videoId)))
    (fun error =>
       unlink_quietly (flag_of file);;
       broadcast_clients (videoError videoId (message error));;
       mret processedVideoIds).

(** The body of the loop over [uploadFiles]. *)
Definition scan_file (file : string) (processedVideoIds : gset string)
    : M (gset string) :=
  stats ← tus.stat file;
  match stats with
  | Dir => mret processedVideoIds
  | File size _ =>
      try_catch
        (jsonExists ← exists_ (tus.access (file +:+ ".json"));
         if jsonExists : bool then
           jsonContent ← tus.readFile (file +:+ ".json");
           info_size ← JSON_parse jsonContent;
           if bool_decide (info_size = Some size) then
             alreadyProcessed ← exists_ (tus.access (flag_of file));
             if negb alreadyProcessed then
               videoId ← uuidv4;
               now ← Date_now;
               tus.writeFile (flag_of file) 24 (IsoDate now);;
               scan_attempt file videoId processedVideoIds
             else
               mret ({[file]} ∪ processedVideoIds)
           else mret processedVideoIds
         else mret processedVideoIds)
        (fun error => mret processedVideoIds)
  end.

Definition is_flag (file : string) : bool := JS.endsWith file ".processed".

Definition uploadFiles_of (files : list string) (processedVideoIds : gset string)
    : list string :=
  List.filter
    (fun file => negb (JS.endsWith file ".json") && negb (is_flag file)
                 && negb (bool_decide (file ∈ processedVideoIds)))
    files.

(** The pass over the flags, then the pass over the uploads. *)
Definition prune_flags : M (gset string) :=
  processedFiles ← try_catch (files ← tus.readdir; mret (List.filter is_flag files))
                             (fun _ => mret []);
  for_of processedFiles prune_flag ∅.

Definition scan_uploads (processedVideoIds : gset string) : M unit :=
  files ← tus.readdir;
  if (0 <? length files)%nat then
    let uploadFiles := uploadFiles_of files processedVideoIds in
    if (0 <? length uploadFiles)%nat then
      for_of uploadFiles scan_file processedVideoIds;; mret tt
    else mret tt
  else mret tt.

(** One run.  The [setTimeout] that follows arms the next run only after
    this one has returned. *)
Definition checkForCompletedUploads : M unit :=
  try_catch
    (processedVideoIds ← prune_flags;
     scan_uploads processedVideoIds)
    (fun error => mret tt).

(** ** The query API *)

Inductive reply :=
| error_body (error : string)
| video_body (video : videoInfo)
| status_body (videoId status : string) (hlsUrl : option string).

Record response := { status : Z; json : reply }.

Definition ok (r : reply) : response := {| status := 200; json := r |}.

(** [app.get('/api/videos/:videoId')]. *)
Definition get_video (videoId : string) : M response :=
  try_catch
    (exists__ ← exists_ (hls.access videoId "playlist.m3u8");
     if exists__ : bool then
       mret (ok (status_body videoId "processed" (Some (hlsUrl_of videoId))))
     else
       mret (ok (status_body videoId "processing" None)))
    (fun error => mret {| status := 500; json := error_body (message error) |}).

Definition processLocalVideo (filename : string) : M videoInfo :=
  try_catch
    (let inputPath := InUploads filename in
     videoId ← uuidv4;
     processVideo inputPath videoId;;
     timestamp ← Date_now;
     mret {| vi_id := videoId; vi_filename := filename;
             vi_hlsUrl := hlsUrl_of videoId; vi_timestamp := timestamp;
             vi_processed := false |})
    (fun error => throw error).

Definition mark_processed (v : videoInfo) : videoInfo :=
  {| vi_id := vi_id v; vi_filename := vi_filename v; vi_hlsUrl := vi_hlsUrl v;
     vi_timestamp := vi_timestamp v; vi_processed := true |}.

(** [app.post('/api/local-videos/process')]; the argument is [req.body.filename],
    a string, [None] when the field is absent. *)
Definition post_process (filename : option string) : M response :=
  try_catch
    (match filename with
     | None | Some EmptyString =>
         mret {| status := 400; json := error_body "Filename is required" |}
     | Some filename =>
         fileExists ← exists_ (uploads.access filename);
         if negb fileExists then
           mret {| status := 404; json := error_body "File not found" |}
         else
           cached ← gets (fun w => processedLocalVideos w !! filename);
           match cached with
           | Some v => mret (ok (video_body v))
           | None =>
               videoInfo ← processLocalVideo filename;
               modify (set_catalogue (<[filename := mark_processed videoInfo]>));;
               broadcast_clients (localVideoProcessed videoInfo);;
               mret (ok (video_body videoInfo))
           end
     end)
    (fun error => mret {| status := 500; json := error_body (message error) |}).

(** ** Vocabulary of the theorems *)

(** What both broadcast loops do with one registry entry. *)
Definition offer {A} (sock : A → socket) (f : frame) (c : A) : M unit :=
  open ← WebSocket_OPEN;
  if readyState (sock c) =? open then send (sock c) f else mret tt.

Definition is_open (s : socket) : bool := readyState s =? 1.

(** The frames a broadcast of [f] puts on the wire: one per open socket. *)
Definition deliver {A} (sock : A → socket) (f : frame) (cs : list A)
    : list (string * frame) :=
  (fun c => (sock_id (sock c), f)) <$> List.filter (fun c => is_open (sock c)) cs.

Definition post (fs : list (string * frame)) (w : world) : world :=
  {| tusUploadDir := tusUploadDir w; uploadsDir := uploadsDir w;
     hlsDir := hlsDir w; clients := clients w; wss_clients := wss_clients w;
     processedLocalVideos := processedLocalVideos w; outbox := outbox w ++ fs;
     trace := trace w; uuids := uuids w; ticks := ticks w |}.

(** A broadcast gets past [WebSocket.OPEN] when the runtime binds the
    identifier, or when the registry is empty and the callback never runs. *)
Definition can_broadcast {A} (E : env) (cs : list A) : Prop :=
  global_WebSocket E = true ∨ cs = [].

(** [steps R m]: whatever [m] does, and however it ends, the world it leaves
    is [R]-related to the one it found. *)
Definition steps {A} (R : relation world) (m : M A) : Prop :=
  ∀ E w, R w (m E w).2.

(** [m] leaves the observation [obs] of the world as it was. *)
Definition same {X} (obs : world → X) : relation world :=
  fun w w' => obs w' = obs w.

(** The handler only appends to the trace. *)
Definition trace_grows : relation world :=
  fun w w' => trace w `prefix_of` trace w'.

(** Runs ever started on the upload [file]. *)
Definition started_on (file : string) (w : world) : list job :=
  List.filter (fun j => bool_decide (job_input j = InTus file)) (started w).

(** The first rung of the ladder. *)
Definition rung_360p : quality :=
  {| q_name := "360p"; q_height := 360; q_bitrate := "800k"; q_preset := "ultrafast" |}.

(** *** The scanner's view of the upload directory *)

(** What [fs.readdir(tusUploadDir)] lists. *)
Definition listing (w : world) : list string := (map_to_list (tusUploadDir w)).*1.

(** The source the first pass takes a flag to stand for. *)
Definition originalFile_of (processedFlag : string) : string :=
  JS.replace_first ".processed" processedFlag.

(** [fs.unlink(flag).catch(() => {})] as a change of the world. *)
Definition remove_flag (flag : string) (w : world) : world :=
  match tusUploadDir w !! flag with
  | Some (File _ _) => push_trace (TusUnlink flag) (set_tus (delete flag) w)
  | _ => w
  end.

(** The staleness test on the flag's content, at the next clock reading. *)
Definition stale (E : env) (w : world) (flag : string) : bool :=
  match tusUploadDir w !! flag with
  | Some (File _ (IsoDate d)) => TTL <? clock E (ticks w) - d
  | _ => false
  end.

(** The first pass reads the clock at most once for each flag file listed:
    a run that starts in [w] makes its readings of the first pass at
    [ticks w], ..., [ticks w + flag_count w - 1]. *)
Definition flag_count (w : world) : nat := length (List.filter is_flag (listing w)).

(** A flag file is doomed when nothing is at the path the first pass derives
    from its name, or when its date is more than thirty minutes back at every
    clock reading before [hi]. *)
Definition doomed (E : env) (w : world) (hi : nat) (flag : string) : Prop :=
  ∃ sz b, tusUploadDir w !! flag = Some (File sz b)
    ∧ (tus.present w (originalFile_of flag) = false
       ∨ ∃ t, b = IsoDate t ∧ ∀ n, (ticks w ≤ n < hi)%nat → TTL < clock E n - t).

(** The upload [file] is out of the second pass's reach when it is in the
    skip set or not listed. *)
Definition shielded (file : string) (ids : gset string) (w : world) : Prop :=
  file ∈ ids ∨ tusUploadDir w !! file = None.


(** Does [p] occur in [s]? *)
Fixpoint occurs (p s : string) : bool :=
  JS.startsWith p s ||
  match s with
  | EmptyString => false
  | String _ s' => occurs p s'
  end.

(** The encoder's writes touch [hlsDir] and the trace, nothing else, and
    they take no file of [hlsDir] away. *)
Definition hls_only : relation world := fun w w' =>
  tusUploadDir w' = tusUploadDir w ∧ uploadsDir w' = uploadsDir w
  ∧ clients w' = clients w ∧ wss_clients w' = wss_clients w
  ∧ processedLocalVideos w' = processedLocalVideos w ∧ outbox w' = outbox w
  ∧ uuids w' = uuids w ∧ ticks w' = ticks w ∧ started w' = started w
  ∧ (∀ k, is_Some (hlsDir w !! k) → is_Some (hlsDir w' !! k)).

(** The handler creates and rewrites no file of the upload directory. *)
Definition writes_no_upload : relation world := fun w w' =>
  ∀ k, tusUploadDir w' !! k = tusUploadDir w !! k ∨ tusUploadDir w' !! k = None.

(** *** Sample surroundings, for evaluating the handlers *)

(** Identities are ["id0"], ["id1"], ...; the clock advances by [pace]
    milliseconds from one reading to the next. *)
Definition env_at (pace : Z) (bound : bool) (dims : exn + (Z * Z)) (enc : job → settled)
    : env :=
  {| global_WebSocket := bound;
     uuid := fun n => "id" +:+ pretty n;
     clock := fun n => pace * Z.of_nat n;
     ffprobe := fun _ => match dims with
                         | inl err => inl err
                         | inr (width, height) => inr (Int width, Int height)
                         end;
     ffmpeg := enc;
     beyond := fun _ => false |}.

Definition sample_env (bound : bool) (dims : exn + (Z * Z)) (enc : job → settled) : env :=
  env_at 1000 bound dims enc.

Definition observer (n : string) (state : Z) : client :=
  {| client_id := n; client_ws := {| sock_id := n; readyState := state |}; isAlive := true |}.

(** A directory with one finished upload [name] of ten bytes and its
    side-car, and the local video ["clip.mp4"]; [cs] are the connected
    observers. *)
Definition world_with (name : string) (cs : list client) : world :=
  {| tusUploadDir := <[name := File 10 Opaque]>
                       (<[name +:+ ".json" := File 40 (UploadInfo (Some 10))]> ∅);
     uploadsDir := <["clip.mp4" := File 99 Opaque]> (<["tus-uploads" := Dir]> ∅);
     hlsDir := ∅;
     clients := cs;
     wss_clients := client_ws <$> cs;
     processedLocalVideos := ∅;
     outbox := []; trace := []; uuids := 0; ticks := 0 |}.

Definition sample_world (cs : list client) : world := world_with "a" cs.

Definition single_job (input : source) (videoId : string) : job :=
  {| job_input := input; job_vid := videoId; job_output := "playlist.m3u8" |}.

(** The sample directory two clock readings later, with a flag for ["a"]
    dated at the epoch. *)
Definition aged_world : world :=
  {| tusUploadDir := <["a.processed" := File 24 (IsoDate 0)]>
                       (tusUploadDir (sample_world []));
     uploadsDir := uploadsDir (sample_world []);
     hlsDir := ∅; clients := []; wss_clients := [];
     processedLocalVideos := ∅;
     outbox := []; trace := []; uuids := 1; ticks := 2 |}.

(** An upload directory whose upload ["a.processed.b"] is gone while the
    flag written for it is still there, next to the upload ["a.b"] and its
    flag; both flags are dated at the epoch. *)
Definition orphan_world : world :=
  {| tusUploadDir := <["a.b" := File 10 Opaque]>
                       (<["a.b.processed" := File 24 (IsoDate 0)]>
                          (<["a.processed.b.processed" := File 24 (IsoDate 0)]> ∅));
     uploadsDir := <["tus-uploads" := Dir]> ∅;
     hlsDir := ∅; clients := []; wss_clients := [];
     processedLocalVideos := ∅;
     outbox := []; trace := []; uuids := 0; ticks := 0 |}.

(** The sample directory with a flag whose upload ["gone"] is not there. *)
Definition stray_world : world :=
  {| tusUploadDir := <["gone.processed" := File 24 (IsoDate 0)]>
                       (tusUploadDir (sample_world []));
     uploadsDir := uploadsDir (sample_world []);
     hlsDir := ∅; clients := []; wss_clients := [];
     processedLocalVideos := ∅;
     outbox := []; trace := []; uuids := 0; ticks := 0 |}.

(** ** The observer registry: upgrade, pong, close and the heartbeat *)

Definition set_clients (f : list client -> list client) (w : world) : world :=
  {| tusUploadDir := tusUploadDir w; uploadsDir := uploadsDir w;
     hlsDir := hlsDir w; clients := f (clients w); wss_clients := wss_clients w;
     processedLocalVideos := processedLocalVideos w; outbox := outbox w;
     trace := trace w; uuids := uuids w; ticks := ticks w |}.

(** The [clients] Map as the list of its values in insertion order; an
    entry's key is its [client_id]. *)
Module ClientMap.
Fixpoint get (id : string) (m : list client) : option client :=
  match m with
  | [] => None
  | c :: m' => if String.eqb (client_id c) id then Some c else get id m'
  end.

(** [Map.prototype.set]: a known key keeps its place, a new one goes last. *)
Fixpoint set (c : client) (m : list client) : list client :=
  match m with
  | [] => [c]
  | x :: m' => if String.eqb (client_id x) (client_id c) then c :: m' else x :: set c m'
  end.

Definition delete (id : string) (m : list client) : list client :=
  List.filter (fun c => negb (String.eqb (client_id c) id)) m.

Definition keys (m : list client) : list string := client_id <$> m.
End ClientMap.

(** [client.isAlive = b] on the entry [c]. *)
Definition with_isAlive (b : bool) (c : client) : client :=
  {| client_id := client_id c; client_ws := client_ws c; isAlive := b |}.

(** [server.on('upgrade', ...)]: the URL test and, for [/ws], the callback
    that [wss.handleUpgrade] runs with the new socket [ws].  The entry's
    [timestamp] is read off the clock and never looked at again;
    [wss.clients] is the library's own bookkeeping. *)
Definition on_upgrade (url : string) (ws : socket) : M unit :=
  if String.eqb url "/ws" then
    clientId ← uuidv4;
    timestamp ← Date_now;
    modify (set_clients
              (ClientMap.set {| client_id := clientId; client_ws := ws; isAlive := true |}))
  else mret tt.

(** [ws.on('pong', ...)] of the connection registered as [clientId]. *)
Definition on_pong (clientId : string) : M unit :=
  client ← gets (fun w => ClientMap.get clientId (clients w));
  match client with
  | Some c => modify (set_clients (ClientMap.set (with_isAlive true c)))
  | None => mret tt
  end.

(** [ws.on('close', ...)] of the connection registered as [clientId]. *)
Definition on_close (clientId : string) : M unit :=
  modify (set_clients (ClientMap.delete clientId)).

(** What the heartbeat asks of a socket. *)
Inductive control := ping | terminate.

(** The callback of [clients.forEach] in the heartbeat, on the entry [c]:
    the registry so far and the controls issued so far, by socket.  The
    sockets of the registry are server-side ones, past [CONNECTING], so
    neither call throws. *)
Definition heartbeat_turn (st : list client * list (string * control)) (c : client)
    : list client * list (string * control) :=
  let '(m, sent) := st in
  if negb (isAlive c) then
    (ClientMap.delete (client_id c) m, (sent ++ [(sock_id (client_ws c), terminate)])%list)
  else
    (ClientMap.set (with_isAlive false c) m, (sent ++ [(sock_id (client_ws c), ping)])%list).

(** One heartbeat over the entries the Map holds when it starts; a callback
    only ever deletes or updates the entry it is called on. *)
Definition heartbeat (m : list client) : list client * list (string * control) :=
  foldl heartbeat_turn (m, []) m.

(** The callback of [pingInterval], every thirty seconds; the result lists
    the controls it issued. *)
Definition pingInterval_tick : M (list (string * control)) := fun _ w =>
  let r := heartbeat (clients w) in (Returned r.2, set_clients (fun _ => r.1) w).

(** ** Local videos: [scanLocalVideos] and the listing *)

Module Path.
(** The variables of the loop of [path.extname] (POSIX). *)
Record scan := {
  startDot : Z;
  startPart : Z;
  end_ : Z;
  matchedSlash : bool;
  preDotState : Z
}.

Definition scan0 : scan :=
  {| startDot := -1; startPart := 0; end_ := -1; matchedSlash := true; preDotState := 0 |}.

(** One turn of the loop, at index [i] on the character [code]; the boolean
    tells whether the loop goes on ([false] is [break]). *)
Definition turn (i : Z) (code : ascii) (s : scan) : scan * bool :=
  if Ascii.eqb code "/" then
    if negb (matchedSlash s) then
      ({| startDot := startDot s; startPart := i + 1; end_ := end_ s;
          matchedSlash := matchedSlash s; preDotState := preDotState s |}, false)
    else (s, true)
  else
    let s1 := if end_ s =? -1
              then {| startDot := startDot s; startPart := startPart s; end_ := i + 1;
                      matchedSlash := false; preDotState := preDotState s |}
              else s in
    if Ascii.eqb code "." then
      if startDot s1 =? -1 then
        ({| startDot := i; startPart := startPart s1; end_ := end_ s1;
            matchedSlash := matchedSlash s1; preDotState := preDotState s1 |}, true)
      else if negb (preDotState s1 =? 1) then
        ({| startDot := startDot s1; startPart := startPart s1; end_ := end_ s1;
            matchedSlash := matchedSlash s1; preDotState := 1 |}, true)
      else (s1, true)
    else if negb (startDot s1 =? -1) then
      ({| startDot := startDot s1; startPart := startPart s1; end_ := end_ s1;
          matchedSlash := matchedSlash s1; preDotState := -1 |}, true)
    else (s1, true).

(** [for (let i = path.length - 1; i >= 0; --i)], over the characters from
    the last to the first. *)
Fixpoint loop (backwards : list ascii) (i : Z) (s : scan) : scan :=
  match backwards with
  | [] => s
  | code :: rest =>
      let '(s', go_on) := turn i code s in
      if go_on : bool then loop rest (i - 1) s' else s'
  end.

Definition extname (path : string) : string :=
  let chars := list_ascii_of_string path in
  let s := loop (rev chars) (Z.of_nat (length chars) - 1) scan0 in
  if (startDot s =? -1) || (end_ s =? -1) || (preDotState s =? 0)
     || ((preDotState s =? 1) && (startDot s =? end_ s - 1)
         && (startDot s =? startPart s + 1))
  then ""
  else substring (Z.to_nat (startDot s)) (Z.to_nat (end_ s - startDot s)) path.
End Path.

Definition lower_ascii (c : ascii) : ascii :=
  let n := N_of_ascii c in
  if ((65 <=? n) && (n <=? 90))%N then ascii_of_N (n + 32) else c.

(** U+212A KELVIN SIGN in UTF-8, the one character outside ASCII whose
    lower case is inside. *)
Definition kelvin : string :=
  String "226" (String "132" (String "170" EmptyString)).

(** [skip] counts the bytes of a Kelvin sign that are still to be passed. *)
Fixpoint lower_from (skip : nat) (s : string) : string :=
  match s with
  | EmptyString => EmptyString
  | String c rest =>
      match skip with
      | S n => lower_from n rest
      | O =>
          if JS.startsWith kelvin s then String "k" (lower_from 2 rest)
          else String (lower_ascii c) (lower_from 0 rest)
      end
  end.

(** [s.toLowerCase()], as far as a comparison with ASCII strings can tell:
    ASCII letters are lowered and the Kelvin sign becomes [k]; the lower
    case of any other character outside ASCII has a character outside
    ASCII in it, so such a character is kept as it is. *)
Definition toLowerCase (s : string) : string := lower_from 0 s.

Definition videoExtensions : list string :=
  [".mp4"; ".mov"; ".avi"; ".mkv"; ".webm"; ".flv"; ".wmv"; ".m4v"].

(** The callback of [files.filter] in [scanLocalVideos]. *)
Definition is_video (file : string) : bool :=
  let ext := toLowerCase (Path.extname file) in
  bool_decide (ext ∈ videoExtensions).

(** [fs.readdir(uploadsDir)]. *)
Definition uploads_readdir : M (list string) :=
  gets (fun w => (map_to_list (uploadsDir w)).*1).

Definition scanLocalVideos : M (list string) :=
  try_catch
    (files ← uploads_readdir;
     let videoFiles := List.filter is_video files in
     mret videoFiles)
    (fun error => mret []).

(** An element of the listing: the catalogue's record of a processed video,
    or [{filename, processed: false}]. *)
Inductive listed :=
| processed_entry (video : videoInfo)
| unprocessed_entry (filename : string).

Inductive list_reply :=
| videos_body (videos : list listed)
| list_error_body (error : string).

(** The callback of [videoFiles.map] in the listing. *)
Definition entry_of (catalogue : gmap string videoInfo) (filename : string) : listed :=
  match catalogue !! filename with
  | Some v => processed_entry v
  | None => unprocessed_entry filename
  end.

(** [app.get('/api/local-videos')]: the status and the body. *)
Definition get_local_videos : M (Z * list_reply) :=
  try_catch
    (videoFiles ← scanLocalVideos;
     catalogue ← gets processedLocalVideos;
     let videos := entry_of catalogue <$> videoFiles in
     mret (200, videos_body videos))
    (fun error => mret (500, list_error_body (message error))).

(** ** Further vocabulary *)

(** The control a heartbeat issues to the entry [c]. *)
Definition control_of (c : client) : string * control :=
  (sock_id (client_ws c), if isAlive c then ping else terminate).

(** The entries a heartbeat keeps, as it leaves them. *)
Definition dead_survivors (m : list client) : list client :=
  with_isAlive false <$> List.filter isAlive m.

(** A world that holds nothing but the registry [cs]. *)
Definition registry_world (cs : list client) : world :=
  {| tusUploadDir := ∅; uploadsDir := ∅; hlsDir := ∅; clients := cs;
     wss_clients := client_ws <$> cs; processedLocalVideos := ∅;
     outbox := []; trace := []; uuids := 0; ticks := 0 |}.

(** The handler changes the upload directory only at names that end in
    [.processed]; it leaves the uploads directory and the catalogue alone
    and takes no file of [hlsDir] away. *)
Definition flags_only : relation world := fun w w' =>
  (∀ k, is_flag k = false → tusUploadDir w' !! k = tusUploadDir w !! k)
  ∧ uploadsDir w' = uploadsDir w
  ∧ processedLocalVideos w' = processedLocalVideos w
  ∧ (∀ k, is_Some (hlsDir w !! k) → is_Some (hlsDir w' !! k)).

(** Nothing is sent, nothing is written under [hlsDir], no run is started
    and the registry stays. *)
Definition quiet : relation world := fun w w' =>
  clients w' = clients w ∧ outbox w' = outbox w ∧ hlsDir w' = hlsDir w
  ∧ started w' = started w.

(** The same, and the upload directory is as it was. *)
Definition idle : relation world := fun w w' =>
  tusUploadDir w' = tusUploadDir w ∧ quiet w w'.

(** Every entry of the catalogue sits under its own filename, is marked as
    processed and points at the playlist of its own identity. *)
Definition catalogue_wf (w : world) : Prop :=
  ∀ filename v, processedLocalVideos w !! filename = Some v →
    vi_filename v = filename ∧ vi_processed v = true ∧ vi_hlsUrl v = hlsUrl_of (vi_id v).

(** Does the character [c] occur in [s]? *)
Definition has (c : ascii) (s : string) : bool :=
  existsb (Ascii.eqb c) (list_ascii_of_string s).

(** The part of the world the encoder has no hand in. *)
Definition beside_hls (w : world) :=
  (tusUploadDir w, uploadsDir w, clients w, wss_clients w, processedLocalVideos w,
   outbox w, uuids w, ticks w).

(** The sample directory with a second upload, ["b"], of which five of
    ten bytes have arrived. *)
Definition half_uploaded : world :=
  set_tus (fun d => <["b" := File 5 Opaque]>
                      (<["b.json" := File 40 (UploadInfo (Some 10))]> d))
          (sample_world []).

(** An uploads directory with a video whose extension is in upper case, a
    text file, a dot-file and the directory of the resumable uploads. *)
Definition mixed_uploads : world :=
  {| tusUploadDir := ∅;
     uploadsDir := <["Talk.MOV" := File 99 Opaque]>
                     (<["notes.txt" := File 9 Opaque]>
                        (<[".mp4" := File 1 Opaque]> (<["tus-uploads" := Dir]> ∅)));
     hlsDir := ∅; clients := []; wss_clients := [];
     processedLocalVideos := ∅;
     outbox := []; trace := []; uuids := 0; ticks := 0 |}.

(** * Theorems *)

(** ** Running the monad *)

Lemma run_bind {A B} (m : M A) (k : A → M B) E w :
  (m ≫= k) E w =
  match m E w with
  | (Returned a, w') => k a E w'
  | (Thrown e, w') => (Thrown e, w')
  | (Parked, w') => (Parked, w')
  end.
Proof. reflexivity. Qed.

Lemma run_ret {A} (a : A) E w : mret (M := M) a E w = (Returned a, w).
Proof. reflexivity. Qed.

Lemma run_try_catch {A} (m : M A) h E w :
  try_catch m h E w =
  match m E w with
  | (Thrown e, w') => h e E w'
  | r => r
  end.
Proof. reflexivity. Qed.

Lemma run_throw {A} e E w : throw (A := A) e E w = (Thrown e, w).
Proof. reflexivity. Qed.

Lemma run_gets {A} (f : world → A) E w : gets f E w = (Returned (f w), w).
Proof. reflexivity. Qed.

Lemma run_asks {A} (f : env → A) E w : asks f E w = (Returned (f E), w).
Proof. reflexivity. Qed.

Lemma run_modify f E w : modify f E w = (Returned tt, f w).
Proof. reflexivity. Qed.

Lemma run_uuidv4 E w : uuidv4 E w = (Returned (uuid E (uuids w)), bump_uuids w).
Proof. reflexivity. Qed.

Lemma run_Date_now E w : Date_now E w = (Returned (clock E (ticks w)), bump_ticks w).
Proof. reflexivity. Qed.

Lemma run_for_of_nil {A S} (f : A → S → M S) s E w :
  for_of [] f s E w = (Returned s, w).
Proof. reflexivity. Qed.

Lemma run_for_of_cons {A S} x l (f : A → S → M S) s E w :
  for_of (x :: l) f s E w = (s' ← f x s; for_of l f s') E w.
Proof. reflexivity. Qed.

Lemma run_ffmpeg_run j E w : ffmpeg_run j E w = (Returned tt, push_trace (Started j) w).
Proof. reflexivity. Qed.

Lemma run_hls_writeFile vid name a E w :
  hls.writeFile vid name a E w =
  (Returned tt, push_trace (HlsWrite vid name) (set_hls (<[(vid, name) := a]>) w)).
Proof. reflexivity. Qed.

Lemma run_send s f E w : send s f E w = (Returned tt, push_outbox (sock_id s, f) w).
Proof. reflexivity. Qed.

Arguments try_catch : simpl never.
Arguments throw : simpl never.
Arguments gets : simpl never.
Arguments asks : simpl never.
Arguments modify : simpl never.
Arguments uuidv4 : simpl never.
Arguments Date_now : simpl never.
Arguments for_of : simpl never.
Arguments forEach : simpl never.
Arguments send : simpl never.
Arguments ffmpeg_run : simpl never.
Arguments ffmpeg_await : simpl never.
Arguments hls.writeFile : simpl never.
Arguments broadcast_wss : simpl never.
Arguments broadcast_clients : simpl never.
Arguments masterPlaylist : simpl never.
Arguments processVideo : simpl never.

Create Rewrite HintDb run.
#[global] Hint Rewrite @run_bind @run_ret @run_try_catch @run_throw @run_gets @run_asks
  @run_modify run_uuidv4 run_Date_now @run_for_of_nil @run_for_of_cons run_ffmpeg_run
  run_hls_writeFile run_send : run.

(** Symbolic execution of a handler, one primitive at a time. *)
Ltac run := repeat first [progress autorewrite with run | progress cbn beta iota].

(** ** Broadcasts *)

Lemma post_nil w : post [] w = w.
Proof. destruct w. unfold post. cbn. by rewrite app_nil_r. Qed.

Lemma post_push x fs w : post fs (push_outbox x w) = post (x :: fs) w.
Proof. unfold post, push_outbox. cbn. by rewrite <- app_assoc. Qed.

(** Without a binding for [WebSocket] the first callback throws, before
    anything is sent. *)
Lemma forEach_offer_unbound {A} (sock : A → socket) f (cs : list A) E w :
  global_WebSocket E = false →
  forEach cs (offer sock f) E w =
  (match cs with
   | [] => Returned tt
   | _ :: _ => Thrown (ReferenceError "WebSocket")
   end, w).
Proof.
  intros HE. destruct cs as [|c cs]; [reflexivity|].
  unfold forEach. rewrite run_for_of_cons, run_bind.
  unfold offer at 1. rewrite run_bind. unfold WebSocket_OPEN. by rewrite HE.
Qed.

(** With the binding, every open socket gets the frame, in registry order. *)
Lemma forEach_offer_bound {A} (sock : A → socket) f (cs : list A) E w :
  global_WebSocket E = true →
  forEach cs (offer sock f) E w = (Returned tt, post (deliver sock f cs) w).
Proof.
  intros HE. revert w. induction cs as [|c cs IH]; intros w.
  - unfold forEach. by rewrite run_for_of_nil, post_nil.
  - unfold forEach in *. rewrite run_for_of_cons, run_bind.
    unfold offer at 1. rewrite run_bind. unfold WebSocket_OPEN at 1. rewrite HE.
    unfold deliver. cbn [List.filter]. unfold is_open at 1.
    destruct (readyState (sock c) =? 1); run; rewrite IH; [|done].
    by rewrite post_push.
Qed.

Lemma forEach_offer_pass {A} (sock : A → socket) f (cs : list A) E w :
  can_broadcast E cs →
  forEach cs (offer sock f) E w = (Returned tt, post (deliver sock f cs) w).
Proof.
  intros [HE | ->]; [by apply forEach_offer_bound|].
  unfold forEach, deliver. cbn. by rewrite run_for_of_nil, post_nil.
Qed.

Lemma broadcast_wss_unbound f E w :
  global_WebSocket E = false →
  broadcast_wss f E w =
  (match wss_clients w with
   | [] => Returned tt
   | _ :: _ => Thrown (ReferenceError "WebSocket")
   end, w).
Proof.
  intros HE. unfold broadcast_wss. rewrite run_bind, run_gets.
  by apply (forEach_offer_unbound (fun s => s)).
Qed.

Lemma broadcast_wss_pass f E w :
  can_broadcast E (wss_clients w) →
  broadcast_wss f E w = (Returned tt, post (deliver (fun s => s) f (wss_clients w)) w).
Proof.
  intros HE. unfold broadcast_wss. rewrite run_bind, run_gets.
  by apply (forEach_offer_pass (fun s => s)).
Qed.

Lemma broadcast_clients_unbound f E w :
  global_WebSocket E = false →
  broadcast_clients f E w =
  (match clients w with
   | [] => Returned tt
   | _ :: _ => Thrown (ReferenceError "WebSocket")
   end, w).
Proof.
  intros HE. unfold broadcast_clients. rewrite run_bind, run_gets.
  by apply (forEach_offer_unbound client_ws).
Qed.

Lemma broadcast_clients_pass f E w :
  can_broadcast E (clients w) →
  broadcast_clients f E w = (Returned tt, post (deliver client_ws f (clients w)) w).
Proof.
  intros HE. unfold broadcast_clients. rewrite run_bind, run_gets.
  by apply (forEach_offer_pass client_ws).
Qed.

(** ** Frame rules *)

#[global] Instance same_preorder {X} (obs : world → X) : PreOrder (same obs).
Proof.
  split; [by intros w|]. intros w1 w2 w3 H12 H23. unfold same in *. congruence.
Qed.

#[global] Instance trace_grows_preorder : PreOrder trace_grows.
Proof.
  split; unfold trace_grows.
  - by intros w.
  - intros w1 w2 w3. apply transitivity.
Qed.

Section steps.
Context (R : relation world) `{!PreOrder R}.

Lemma steps_ret {A} (a : A) : steps R (mret a).
Proof. intros E w. by rewrite run_ret. Qed.

Lemma steps_throw {A} e : steps R (throw (A := A) e).
Proof. intros E w. by rewrite run_throw. Qed.

Lemma steps_gets {A} (f : world → A) : steps R (gets f).
Proof. intros E w. by rewrite run_gets. Qed.

Lemma steps_asks {A} (f : env → A) : steps R (asks f).
Proof. intros E w. by rewrite run_asks. Qed.

Lemma steps_modify f : (∀ w, R w (f w)) → steps R (modify f).
Proof. intros Hf E w. rewrite run_modify. apply Hf. Qed.

Lemma steps_bind {A B} (m : M A) (k : A → M B) :
  steps R m → (∀ a, steps R (k a)) → steps R (m ≫= k).
Proof.
  intros Hm Hk E w. rewrite run_bind. specialize (Hm E w).
  destruct (m E w) as [[a|e|] w1]; cbn in *; [|done..].
  etransitivity; [exact Hm|apply Hk].
Qed.

Lemma steps_try_catch {A} (m : M A) h :
  steps R m → (∀ e, steps R (h e)) → steps R (try_catch m h).
Proof.
  intros Hm Hh E w. rewrite run_try_catch. specialize (Hm E w).
  destruct (m E w) as [[a|e|] w1]; cbn in *; [done| |done].
  etransitivity; [exact Hm|apply Hh].
Qed.

Lemma steps_for_of {A S} (l : list A) (f : A → S → M S) s :
  (∀ x s, x ∈ l → steps R (f x s)) → steps R (for_of l f s).
Proof.
  revert s. induction l as [|x l IH]; intros s Hf.
  - intros E w. by rewrite run_for_of_nil.
  - intros E w. rewrite run_for_of_cons. revert E w. apply steps_bind.
    + apply Hf. left.
    + intros s'. apply IH. intros y s'' Hy. apply Hf. by right.
Qed.

Lemma steps_forEach {A} (l : list A) (f : A → M unit) :
  (∀ x, x ∈ l → steps R (f x)) → steps R (forEach l f).
Proof. intros Hf. apply steps_for_of. intros x _ Hx. by apply Hf. Qed.

Lemma steps_exists_ m : steps R m → steps R (exists_ m).
Proof.
  intros Hm. apply steps_try_catch.
  - apply steps_bind; [done|]. intros _. apply steps_ret.
  - intros _. apply steps_ret.
Qed.
End steps.

(** Splits a frame goal along the structure of the handler; what is left are
    the primitives that touch the world. *)
Ltac steps_rule :=
  first
    [ apply steps_ret | apply steps_throw | apply steps_gets | apply steps_asks
    | apply steps_exists_ | apply steps_bind | apply steps_try_catch
    | apply steps_forEach
    | match goal with
      | |- steps _ (match ?x with _ => _ end) => destruct x
      end ].

Ltac steps_intro :=
  repeat lazymatch goal with
         | |- steps _ _ => fail
         | |- PreOrder _ => apply _
         | |- ∀ _, _ => intro
         end.

Ltac steps_struct := repeat (steps_rule; steps_intro).

(** A primitive: unfold it and look at the world it returns. *)
Ltac steps_prim :=
  let E := fresh "E" in let w := fresh "w" in
  intros E w;
  cbv [tus.access tus.stat tus.readFile tus.writeFile tus.unlink uploads.access
       hls.access hls.writeFile source_unlink JSON_parse WebSocket_OPEN send
       uuidv4 Date_now ffmpeg_run modify throw];
  try rewrite run_ret;
  repeat case_match; cbn.

(** Closes a leaf of a [trace_grows] goal. *)
Ltac close_trace_grows :=
  unfold trace_grows; cbn; first [done | by apply prefix_app_r].

(** Closes a leaf of a goal about one file of [hlsDir]. *)
Ltac close_same :=
  unfold same; cbn;
  first [ done
        | rewrite lookup_insert_ne; [done|]; cbn; intros [= ?]; discriminate ].

(** ** The push path *)

(** Once the probe has answered, the handler has written the master playlist
    and is about to enter the ladder. *)
Lemma on_upload_finish_probed E w name width height :
  name ≠ "" → ffprobe E (InTus name) = inr (width, height) →
  on_upload_finish {| file_path := Some name |} E w =
  try_catch
    (for_of qualities (encode_rung (InTus name) (uuid E (uuids w))) false;;
     try_catch (source_unlink (InTus name)) (fun _ => mret tt))
    (fun error => broadcast_wss (videoError (uuid E (uuids w)) (message error))) E
    (push_trace (HlsWrite (uuid E (uuids w)) "playlist.m3u8")
       (set_hls (<[(uuid E (uuids w), "playlist.m3u8") :=
                    MasterPlaylist (masterPlaylist qualities width height)]>)
          (bump_uuids w))).
Proof.
  intros Hn Hp. unfold on_upload_finish. cbn [file_path].
  destruct name as [|c name]; [done|].
  run. rewrite Hp. run. reflexivity.
Qed.


(** Nothing in the ladder writes to [playlist.m3u8] again: the rungs write
    [<name>.m3u8] and [<name><k>.ts]. *)
Lemma steps_ladder_master path vid :
  steps (same (fun w => hlsDir w !! (vid, "playlist.m3u8")))
    (try_catch
       (for_of qualities (encode_rung path vid) false;;
        try_catch (source_unlink path) (fun _ => mret tt))
       (fun error => broadcast_wss (videoError vid (message error)))).
Proof.
  apply steps_try_catch; [apply _| |]; steps_intro.
  - apply steps_bind; [apply _| |]; steps_intro.
    + apply steps_for_of; [apply _|]. intros q b Hq. unfold qualities in Hq.
      repeat (apply elem_of_cons in Hq as [->|Hq]); [..|by apply elem_of_nil in Hq];
        steps_struct; steps_prim; close_same.
    + steps_struct; steps_prim; close_same.
  - steps_struct; steps_prim; close_same.
Qed.







(** The two scenarios of the specification, a 1920x1080 source and a 480x270
    source against the ladder 360p/480p/720p, and a first stream without
    dimensions. *)
Example master_entries_1080p :
  (fun e => (inf_width e, inf_height e)) <$> master_entries qualities 1920 1080
  = [(Int 640, Int 360); (Int 853, Int 480); (Int 1280, Int 720)].
Proof. vm_compute. reflexivity. Qed.

Example master_entries_270p :
  (fun e => (inf_width e, inf_height e)) <$> master_entries qualities 480 270
  = [(Int 480, Int 270); (Int 480, Int 270); (Int 480, Int 270)].
Proof. vm_compute. reflexivity. Qed.

Example masterPlaylist_1080p :
  masterPlaylist qualities 1920 1080
  = "#EXTM3U" +:+ nl +:+ "#EXT-X-VERSION:3" +:+ nl +:+
    "#EXT-X-STREAM-INF:BANDWIDTH=800000,RESOLUTION=640x360" +:+ nl +:+
    "360p.m3u8" +:+ nl +:+
    "#EXT-X-STREAM-INF:BANDWIDTH=1500000,RESOLUTION=853x480" +:+ nl +:+
    "480p.m3u8" +:+ nl +:+
    "#EXT-X-STREAM-INF:BANDWIDTH=2500000,RESOLUTION=1280x720" +:+ nl +:+
    "720p.m3u8" +:+ nl.
Proof. vm_compute. reflexivity. Qed.

Example masterPlaylist_no_dimensions :
  masterPlaylist qualities NaN NaN
  = "#EXTM3U" +:+ nl +:+ "#EXT-X-VERSION:3" +:+ nl +:+
    "#EXT-X-STREAM-INF:BANDWIDTH=800000,RESOLUTION=NaNxNaN" +:+ nl +:+
    "360p.m3u8" +:+ nl +:+
    "#EXT-X-STREAM-INF:BANDWIDTH=1500000,RESOLUTION=NaNxNaN" +:+ nl +:+
    "480p.m3u8" +:+ nl +:+
    "#EXT-X-STREAM-INF:BANDWIDTH=2500000,RESOLUTION=NaNxNaN" +:+ nl +:+
    "720p.m3u8" +:+ nl.
Proof. vm_compute. reflexivity. Qed.

(** [Number::toString] on integers: up to [2^53] every digit, beyond it the
    shortest digits that read back as the same double, and from [10^21] on
    the exponent form. *)
Example show_samples :
  JS.show <$> [Int 0; Int (-5); Int 1280; Int (2 ^ 53); Int (2 ^ 60); Int (2 ^ 64);
               Int (10 ^ 21); Int (2 ^ 70); Int (- 10 ^ 25); Int (123 * 10 ^ 28);
               Int (10 ^ 400); NaN; Infinity false; Infinity true]
  = ["0"; "-5"; "1280"; "9007199254740992"; "1152921504606847000";
     "18446744073709552000"; "1e+21"; "1.1805916207174113e+21"; "-1e+25"; "1.23e+30";
     "Infinity"; "NaN"; "Infinity"; "-Infinity"].
Proof. vm_compute. reflexivity. Qed.


(** What the handler does when [WebSocket] is unbound and a socket is
    registered: the first broadcast it reaches throws, and so does the one in
    its [catch]. *)
Lemma on_upload_finish_unbound E w name :
  global_WebSocket E = false → wss_clients w ≠ [] → name ≠ "" →
  on_upload_finish {| file_path := Some name |} E w =
  (Thrown (ReferenceError "WebSocket"),
   match ffprobe E (InTus name) with
   | inl _ => bump_uuids w
   | inr (width, height) =>
       push_trace (Started (variant_job (InTus name) (uuid E (uuids w)) rung_360p))
         (push_trace (HlsWrite (uuid E (uuids w)) "playlist.m3u8")
            (set_hls (<[(uuid E (uuids w), "playlist.m3u8") :=
                         MasterPlaylist (masterPlaylist qualities width height)]>)
               (bump_uuids w)))
   end).
Proof.
  intros HE Hc Hn. unfold on_upload_finish. cbn [file_path].
  destruct name as [|c name]; [done|]. run.
  destruct (ffprobe E _) as [err|[width height]]; run.
  - rewrite broadcast_wss_unbound by done. cbn [wss_clients bump_uuids].
    by destruct (wss_clients w).
  - unfold qualities at 1. run. unfold encode_rung at 1. run. cbn [negb].
    rewrite broadcast_wss_unbound by done.
    cbn [wss_clients push_trace set_hls bump_uuids].
    destruct (wss_clients w) eqn:Hw; [done|]. run.
    rewrite broadcast_wss_unbound by done.
    cbn [wss_clients push_trace set_hls bump_uuids]. by rewrite Hw.
Qed.

(** C10. With [WebSocket] unbound in the module's scope and at least one
    socket registered with the WebSocket server, the upload-finish handler
    rejects with a [ReferenceError] whenever the event names a file: the
    early notification throws right after the first rung's encode has been
    started, and the broadcast in the [catch] throws again.  No frame is
    sent, no file of the upload directory is removed (the source stays), and
    all the handler leaves in the trace is the master playlist's write and
    the start of the 360p run: no run's end or error is ever awaited and no
    later rung is started. *)
Theorem C10_push_path_reference_error E w event :
  global_WebSocket E = false → wss_clients w ≠ [] →
  let r := on_upload_finish event E w in
  let vid := uuid E (uuids w) in
  (∀ name, file_path event = Some name → name ≠ "" →
     r.1 = Thrown (ReferenceError "WebSocket"))
  ∧ outbox r.2 = outbox w
  ∧ tusUploadDir r.2 = tusUploadDir w
  ∧ ∃ evs, trace r.2 = (trace w ++ evs)%list
      ∧ ∀ e, e ∈ evs →
          e = HlsWrite vid "playlist.m3u8"
          ∨ ∃ name, e = Started (variant_job (InTus name) vid rung_360p).
Proof.
  intros HE Hc r vid. subst r vid. destruct event as [[name|]].
  2:{ cbn. split; [done|]. split; [done|]. split; [done|].
      exists []. rewrite app_nil_r. split; [done|]. by intros e ?%elem_of_nil. }
  destruct (decide (name = "")) as [->|Hn].
  { cbn. split; [by intros ? [= <-] ?|]. split; [done|]. split; [done|].
    exists []. rewrite app_nil_r. split; [done|]. by intros e ?%elem_of_nil. }
  rewrite on_upload_finish_unbound by done. cbn [fst snd].
  split; [done|]. destruct (ffprobe E (InTus name)) as [err|[width height]]; cbn.
  - split; [done|]. split; [done|].
    exists []. rewrite app_nil_r. split; [done|]. by intros e ?%elem_of_nil.
  - split; [done|]. split; [done|]. eexists. rewrite <- app_assoc. split; [done|].
    intros e He. apply elem_of_cons in He as [->|He]; [by left|].
    apply list_elem_of_singleton in He as ->. right. by exists name.
Qed.

Lemma C10_witness :
  let E := sample_env false (inr (1920, 1080)) (fun _ => Done 2) in
  let w := sample_world [observer "o1" 1] in
  global_WebSocket E = false
  ∧ wss_clients w ≠ []
  ∧ (on_upload_finish {| file_path := Some "a" |} E w).1
    = Thrown (ReferenceError "WebSocket")
  ∧ outbox (on_upload_finish {| file_path := Some "a" |} E w).2 = [].
Proof.
  intros E w. split; [reflexivity|]. split; [done|].
  destruct (C10_push_path_reference_error E w {| file_path := Some "a" |})
    as (H1 & H2 & _); [reflexivity|done|].
  split; [by apply (H1 "a")|exact H2].
Defined.

(** ** The scanner's first pass *)

Lemma elem_of_listing w name : name ∈ listing w ↔ is_Some (tusUploadDir w !! name).
Proof.
  unfold listing. rewrite list_elem_of_fmap. split.
  - intros ([k n] & -> & Hin). apply elem_of_map_to_list in Hin. by exists n.
  - intros [n Hn]. exists (name, n). split; [done|]. by apply elem_of_map_to_list.
Qed.

Lemma elem_of_filter_bool {A} (P : A → bool) l x :
  x ∈ List.filter P l ↔ x ∈ l ∧ P x = true.
Proof. rewrite !list_elem_of_In. apply filter_In. Qed.

Lemma is_flag_flag_of file : is_flag (flag_of file) = true.
Proof.
  unfold is_flag, flag_of. induction file as [|c s IH]; [reflexivity|].
  change (String c s +:+ ".processed") with (String c (s +:+ ".processed")).
  cbn [JS.endsWith]. rewrite IH. by destruct (String.eqb _ _).
Qed.

(** [".processed"] has no proper border, so it cannot start inside [s] and
    run over into the suffix that [flag_of] appends. *)
Lemma startsWith_flag_boundary c s :
  JS.startsWith ".processed" (String c s) = false →
  JS.startsWith ".processed" (String c s +:+ ".processed") = false.
Proof.
  change (String c s +:+ ".processed") with (String c (s +:+ ".processed")).
  cbn [JS.startsWith]. destruct (Ascii.eqb "." c); [|done].
  do 9 (destruct s as [|? s]; [done|];
        change (String ?a s +:+ ".processed") with (String a (s +:+ ".processed"));
        cbn iota;
        match goal with
        | |- context [Ascii.eqb ?a ?b] => destruct (Ascii.eqb a b)
        end; [|done]).
  done.
Qed.

(** For a name that does not contain [".processed"], the first pass reads
    the flag back as standing for that name. *)
Lemma originalFile_of_flag_of file :
  occurs ".processed" file = false → originalFile_of (flag_of file) = file.
Proof.
  unfold originalFile_of, flag_of. induction file as [|c s IH]; intros Ho; [reflexivity|].
  cbn [occurs] in Ho. apply orb_false_iff in Ho as [Hs Ho].
  pose proof (startsWith_flag_boundary c s Hs) as Hb.
  change (String c s +:+ ".processed") with (String c (s +:+ ".processed")) in *.
  cbn [JS.replace_first]. rewrite Hb. by rewrite IH.
Qed.

Lemma run_unlink_quietly name E w :
  unlink_quietly name E w = (Returned tt, remove_flag name w).
Proof.
  unfold unlink_quietly, remove_flag, tus.unlink. rewrite run_try_catch.
  destruct (tusUploadDir w !! name) as [[|sz b]|]; by run.
Qed.

(** One turn of the loop over the flags, in closed form. *)
Lemma run_prune_flag flag ids E w :
  prune_flag flag ids E w =
  if tus.present w (originalFile_of flag)
  then if stale E w flag
       then (Returned ids, remove_flag flag (bump_ticks w))
       else (Returned ({[originalFile_of flag]} ∪ ids), bump_ticks w)
  else (Returned ids, remove_flag flag w).
Proof.
  unfold prune_flag, exists_, tus.access, tus.readFile, stale, originalFile_of.
  run. destruct (tus.present w (JS.replace_first _ _)); run.
  - destruct (tusUploadDir w !! flag) as [[|sz [d| |]]|]; run;
      cbn [Date_parse]; try (destruct (TTL <? _)); run;
      rewrite ?run_unlink_quietly; by run.
  - rewrite run_unlink_quietly. by run.
Qed.

Lemma lookup_remove_flag_ne q k w :
  k ≠ q → tusUploadDir (remove_flag q w) !! k = tusUploadDir w !! k.
Proof.
  intros Hne. unfold remove_flag.
  destruct (tusUploadDir w !! q) as [[|sz b]|]; cbn; [done| |done].
  by rewrite lookup_delete_ne.
Qed.

Lemma lookup_remove_flag_None q k w :
  tusUploadDir w !! k = None → tusUploadDir (remove_flag q w) !! k = None.
Proof.
  intros Hk. unfold remove_flag.
  destruct (tusUploadDir w !! q) as [[|sz b]|]; cbn; [done| |done].
  rewrite lookup_delete. by case_decide.
Qed.

Lemma remove_flag_file q sz b w :
  tusUploadDir w !! q = Some (File sz b) →
  tusUploadDir (remove_flag q w) !! q = None
  ∧ trace (remove_flag q w) = (trace w ++ [TusUnlink q])%list.
Proof.
  intros Hq. unfold remove_flag. rewrite Hq. cbn. by rewrite lookup_delete_eq.
Qed.

Lemma trace_remove_flag q w : trace w `prefix_of` trace (remove_flag q w).
Proof.
  unfold remove_flag. destruct (tusUploadDir w !! q) as [[|sz b]|]; cbn; [done| |done].
  by apply prefix_app_r.
Qed.

Lemma ticks_remove_flag q w : ticks (remove_flag q w) = ticks w.
Proof. unfold remove_flag. by destruct (tusUploadDir w !! q) as [[|sz b]|]. Qed.

Lemma started_remove_flag q w : started (remove_flag q w) = started w.
Proof.
  unfold remove_flag. destruct (tusUploadDir w !! q) as [[|sz b]|]; cbn; [done| |done].
  unfold started. cbn. rewrite omap_app. cbn. by rewrite app_nil_r.
Qed.

(** One turn always returns; it only ever unlinks the flag it looks at, it
    never forgets a name it has put in the skip set, and it starts no run. *)
Lemma prune_flag_turn q ids E w :
  ∃ ids' w', prune_flag q ids E w = (Returned ids', w')
    ∧ ids ⊆ ids'
    ∧ trace w `prefix_of` trace w'
    ∧ (∀ k, k ≠ q → tusUploadDir w' !! k = tusUploadDir w !! k)
    ∧ (∀ k, tusUploadDir w !! k = None → tusUploadDir w' !! k = None)
    ∧ started w' = started w
    ∧ (ticks w ≤ ticks w')%nat.
Proof.
  rewrite run_prune_flag.
  destruct (tus.present w (originalFile_of q)); [destruct (stale E w q)|];
    eexists _, _; (split; [reflexivity|]); (split; [set_solver|]).
  - split; [apply (trace_remove_flag q (bump_ticks w))|].
    split; [intros k Hk; by rewrite lookup_remove_flag_ne|].
    split; [intros k Hk; by apply lookup_remove_flag_None|].
    rewrite started_remove_flag, ticks_remove_flag. cbn. split; [done|lia].
  - cbn. repeat split; try done. lia.
  - split; [apply trace_remove_flag|].
    split; [intros k Hk; by rewrite lookup_remove_flag_ne|].
    split; [intros k Hk; by apply lookup_remove_flag_None|].
    rewrite started_remove_flag, ticks_remove_flag. split; [done|lia].
Qed.

Lemma prune_loop_frames E flags : ∀ ids w,
  ∃ ids' w', for_of flags prune_flag ids E w = (Returned ids', w')
    ∧ ids ⊆ ids'
    ∧ trace w `prefix_of` trace w'
    ∧ (∀ k, k ∉ flags → tusUploadDir w' !! k = tusUploadDir w !! k)
    ∧ (∀ k, tusUploadDir w !! k = None → tusUploadDir w' !! k = None)
    ∧ started w' = started w
    ∧ (ticks w ≤ ticks w')%nat.
Proof.
  induction flags as [|q l IH]; intros ids w.
  - exists ids, w. by rewrite run_for_of_nil.
  - rewrite run_for_of_cons, run_bind.
    destruct (prune_flag_turn q ids E w)
      as (ids1 & w1 & -> & Hi1 & Ht1 & Hk1 & Hn1 & Hs1 & Hc1).
    destruct (IH ids1 w1) as (ids2 & w2 & -> & Hi2 & Ht2 & Hk2 & Hn2 & Hs2 & Hc2).
    exists ids2, w2. split; [done|]. split; [set_solver|].
    split; [by etransitivity|].
    split; [|split; [|split; [congruence|lia]]].
    + intros k Hk. apply not_elem_of_cons in Hk as [? ?]. rewrite Hk2, Hk1; done.
    + intros k Hk. by apply Hn2, Hn1.
Qed.

Lemma run_prune_flags E w :
  prune_flags E w = for_of (List.filter is_flag (listing w)) prune_flag ∅ E w.
Proof. unfold prune_flags, tus.readdir. by run. Qed.

Lemma length_append (a b : string) :
  String.length (a +:+ b) = (String.length a + String.length b)%nat.
Proof.
  induction a as [|x a IH]; [done|].
  change (String x a +:+ b) with (String x (a +:+ b)). cbn. by rewrite IH.
Qed.

Lemma long_not_dots (name : string) :
  (2 < String.length name)%nat → name ∉ [""; "."; ".."].
Proof.
  intros Hl Hin. repeat (apply elem_of_cons in Hin as [->|Hin]; [cbn in Hl; lia|]).
  by apply elem_of_nil in Hin.
Qed.

(** A name that ends in [.json] or in [.processed] is an entry's name. *)
Lemma present_suffixed w file (suffix : string) :
  (2 < String.length suffix)%nat →
  tus.present w (file +:+ suffix)
  = bool_decide (is_Some (tusUploadDir w !! (file +:+ suffix))).
Proof.
  intros Hl. unfold tus.present. rewrite bool_decide_eq_false_2; [done|].
  apply long_not_dots. rewrite length_append. lia.
Qed.

Lemma run_access_suffixed file (suffix : string) E w :
  (2 < String.length suffix)%nat →
  tus.access (file +:+ suffix) E w
  = match tusUploadDir w !! (file +:+ suffix) with
    | Some _ => (Returned tt, w)
    | None => (Thrown (fs_error "ENOENT"), w)
    end.
Proof.
  intros Hl. unfold tus.access. rewrite present_suffixed by done.
  destruct (tusUploadDir w !! (file +:+ suffix)) as [n|].
  - by rewrite bool_decide_eq_true_2.
  - rewrite bool_decide_eq_false_2; [done|]. by intros [? ?].
Qed.

Lemma run_access_json file E w :
  tus.access (file +:+ ".json") E w
  = match tusUploadDir w !! (file +:+ ".json") with
    | Some _ => (Returned tt, w)
    | None => (Thrown (fs_error "ENOENT"), w)
    end.
Proof. apply run_access_suffixed. cbn. lia. Qed.

Lemma run_access_flag file E w :
  tus.access (flag_of file) E w
  = match tusUploadDir w !! flag_of file with
    | Some _ => (Returned tt, w)
    | None => (Thrown (fs_error "ENOENT"), w)
    end.
Proof. apply run_access_suffixed. cbn. lia. Qed.

Lemma present_lookup w name n : tusUploadDir w !! name = Some n → tus.present w name = true.
Proof.
  intros H. unfold tus.present. case_bool_decide; [done|].
  apply bool_decide_eq_true. by exists n.
Qed.

Lemma present_false w name :
  tus.present w name = false → tusUploadDir w !! name = None ∧ name ∉ [""; "."; ".."].
Proof.
  unfold tus.present. case_bool_decide as Hd; [done|].
  intros H. apply bool_decide_eq_false in H. split; [|done].
  destruct (tusUploadDir w !! name) eqn:Hn; [|done]. destruct H. by eexists.
Qed.

Lemma present_false_stays w w' name :
  (∀ k, tusUploadDir w !! k = None → tusUploadDir w' !! k = None) →
  tus.present w name = false → tus.present w' name = false.
Proof.
  intros Hn H. apply present_false in H as [H Hd]. unfold tus.present.
  rewrite bool_decide_eq_false_2 by done. apply bool_decide_eq_false.
  rewrite (Hn _ H). by intros [? ?].
Qed.

(** One turn reads the clock at most once. *)
Lemma prune_flag_ticks q ids E w : (ticks (prune_flag q ids E w).2 ≤ S (ticks w))%nat.
Proof.
  rewrite run_prune_flag.
  destruct (tus.present w (originalFile_of q)); [destruct (stale E w q)|];
    cbn [snd]; rewrite ?ticks_remove_flag; cbn; lia.
Qed.

Lemma prune_flag_doomed E flag ids w :
  doomed E w (S (ticks w)) flag →
  ∃ w', prune_flag flag ids E w = (Returned ids, w')
    ∧ tusUploadDir w' !! flag = None
    ∧ ∃ evs, trace w' = (trace w ++ evs)%list ∧ TusUnlink flag ∈ evs.
Proof.
  intros (sz & b & Hf & Hd). rewrite run_prune_flag.
  assert (Hrm : ∀ w0, tusUploadDir w0 !! flag = Some (File sz b) → trace w0 = trace w →
            tusUploadDir (remove_flag flag w0) !! flag = None
            ∧ ∃ evs, trace (remove_flag flag w0) = (trace w ++ evs)%list
                ∧ TusUnlink flag ∈ evs).
  { intros w0 H0 Ht. destruct (remove_flag_file flag sz b w0 H0) as [Hg Htr].
    split; [done|]. exists [TusUnlink flag]. rewrite Htr, Ht. split; [done|]. by left. }
  destruct (tus.present w (originalFile_of flag)) eqn:Ho.
  - destruct Hd as [?|(t & -> & Hstale)]; [done|].
    assert (stale E w flag = true) as ->.
    { unfold stale. rewrite Hf. apply Z.ltb_lt, Hstale. lia. }
    eexists. split; [done|]. by apply Hrm.
  - eexists. split; [done|]. by apply Hrm.
Qed.

Lemma prune_loop_doomed E flag (hi : nat) flags : ∀ ids w,
  doomed E w hi flag → flag ∈ flags → (ticks w + length flags ≤ hi)%nat →
  ∃ ids' w', for_of flags prune_flag ids E w = (Returned ids', w')
    ∧ tusUploadDir w' !! flag = None
    ∧ ∃ evs, trace w' = (trace w ++ evs)%list ∧ TusUnlink flag ∈ evs.
Proof.
  induction flags as [|q l IH]; intros ids w Hd Hin Hhi; [by apply elem_of_nil in Hin|].
  cbn [length] in Hhi. rewrite run_for_of_cons, run_bind.
  destruct (decide (q = flag)) as [->|Hne].
  - destruct (prune_flag_doomed E flag ids w) as (w1 & -> & Hg & evs & Ht & He).
    { destruct Hd as (sz & b & Hf & Hd). exists sz, b. split; [done|].
      destruct Hd as [Ho|(t & Hb & Hst)]; [by left|].
      right. exists t. split; [done|]. intros n Hn. apply Hst. lia. }
    destruct (prune_loop_frames E l ids w1)
      as (ids2 & w2 & -> & _ & [evs2 Ht2] & _ & Hn2 & _).
    exists ids2, w2. split; [done|]. split; [by apply Hn2|].
    exists (evs ++ evs2)%list. rewrite Ht2, Ht, <- app_assoc. split; [done|].
    apply elem_of_app. by left.
  - pose proof (prune_flag_ticks q ids E w) as Hup.
    destruct (prune_flag_turn q ids E w)
      as (ids1 & w1 & Hrun & _ & [evs1 Ht1] & Hk1 & Hn1 & _ & Hc1).
    rewrite Hrun in Hup |- *. cbn [snd] in Hup.
    apply elem_of_cons in Hin as [?|Hin']; [done|].
    destruct (IH ids1 w1) as (ids2 & w2 & -> & Hg & evs & Ht & He); [|done|lia|].
    { destruct Hd as (sz & b & Hf & Hd). exists sz, b. split; [by rewrite Hk1|].
      destruct Hd as [Ho|(t & Hb & Hst)]; [left; by apply (present_false_stays w)|].
      right. exists t. split; [done|]. intros n Hn. apply Hst. lia. }
    exists ids2, w2. split; [done|]. split; [done|].
    exists (evs1 ++ evs)%list. rewrite Ht, Ht1, <- app_assoc. split; [done|].
    apply elem_of_app. by right.
Qed.

Lemma steps_scan_uploads_trace ids : steps trace_grows (scan_uploads ids).
Proof.
  unfold scan_uploads.
  steps_struct; try (apply steps_for_of; steps_intro; steps_struct);
    steps_prim; close_trace_grows.
Qed.

(** X26. Take the flag file written for an upload [file] (a regular file
    named [file.processed]) that is in the upload directory when a run of the
    scanner starts.  If [".processed"] does not occur in the upload's name
    and the upload is gone, or if the flag's date is more than thirty minutes
    back at each clock reading of the first pass, the run unlinks the flag:
    the unlink is among the events the run adds to the trace, and once the
    first pass is over the flag is not in the directory, so the existence
    test that guards a claim finds the upload free again. *)
Theorem scan_prunes_flags E w file sz b :
  tusUploadDir w !! flag_of file = Some (File sz b) →
  (occurs ".processed" file = false ∧ tus.present w file = false
   ∨ ∃ t, b = IsoDate t
       ∧ ∀ n, (ticks w ≤ n < ticks w + flag_count w)%nat → TTL < clock E n - t) →
  tusUploadDir (prune_flags E w).2 !! flag_of file = None
  ∧ ∃ evs, trace (checkForCompletedUploads E w).2 = (trace w ++ evs)%list
      ∧ TusUnlink (flag_of file) ∈ evs.
Proof.
  intros Hfile Hwhy.
  assert (Hd : doomed E w (ticks w + flag_count w) (flag_of file)).
  { exists sz, b. split; [done|]. destruct Hwhy as [[Ho Hgone]|Hst]; [left|by right].
    by rewrite originalFile_of_flag_of. }
  destruct (prune_loop_doomed E (flag_of file) (ticks w + flag_count w)
              (List.filter is_flag (listing w)) ∅ w Hd)
    as (ids & w1 & Hrun & Hgone & evs & Ht & He).
  { apply elem_of_filter_bool. split; [|apply is_flag_flag_of].
    apply elem_of_listing. by rewrite Hfile. }
  { done. }
  rewrite run_prune_flags, Hrun. split; [done|].
  unfold checkForCompletedUploads. rewrite run_try_catch, run_bind, run_prune_flags, Hrun.
  destruct (steps_scan_uploads_trace ids E w1) as [evs2 Ht2].
  exists (evs ++ evs2)%list. split; [|apply elem_of_app; by left].
  destruct (scan_uploads ids E w1) as [[[]|e|] w2]; cbn in *; run; cbn;
    by rewrite Ht2, Ht, <- app_assoc.
Qed.

(** ** The scanner's second pass *)

Lemma prune_loop_fresh E file sz t (hi : nat) flags : ∀ ids w,
  originalFile_of (flag_of file) = file →
  (∀ n, (ticks w ≤ n < hi)%nat → clock E n - t ≤ TTL) →
  (ticks w + length flags ≤ hi)%nat →
  shielded file ids w
  ∨ (flag_of file ∈ flags
     ∧ tusUploadDir w !! flag_of file = Some (File sz (IsoDate t))) →
  ∃ ids' w', for_of flags prune_flag ids E w = (Returned ids', w')
    ∧ shielded file ids' w'.
Proof.
  induction flags as [|q l IH]; intros ids w Ho Hfresh Hhi Hinv.
  - exists ids, w. rewrite run_for_of_nil. split; [done|].
    destruct Hinv as [?|[Hin _]]; [done|]. by apply elem_of_nil in Hin.
  - cbn [length] in Hhi. rewrite run_for_of_cons, run_bind.
    pose proof (prune_flag_ticks q ids E w) as Hup.
    destruct (prune_flag_turn q ids E w)
      as (ids1 & w1 & Hrun & Hi1 & _ & Hk1 & Hn1 & _ & Hc1).
    rewrite Hrun in Hup |- *. cbn [snd] in Hup.
    apply (IH ids1 w1 Ho); [intros n Hn; apply Hfresh; lia|lia|].
    destruct Hinv as [[Hin|Hgone]|[Hin Hflag]].
    + left. left. set_solver.
    + left. right. by apply Hn1.
    + destruct (decide (q = flag_of file)) as [->|Hne].
      * left. rewrite run_prune_flag, Ho in Hrun.
        destruct (tus.present w file) eqn:Hfile.
        -- assert (stale E w (flag_of file) = false) as Hst.
           { unfold stale. rewrite Hflag. apply Z.ltb_ge, Hfresh. lia. }
           rewrite Hst in Hrun. injection Hrun as <- <-. left.
           apply elem_of_union. left. by apply elem_of_singleton.
        -- injection Hrun as <- <-. right. apply lookup_remove_flag_None.
           by apply present_false in Hfile as [? _].
      * right. destruct (proj1 (elem_of_cons _ _ _) Hin) as [?|Hin']; [done|].
        split; [done|]. by rewrite Hk1.
Qed.

(** Closes a leaf of a goal about the runs started on one upload. *)
Ltac close_started_on :=
  unfold same, started_on, started; cbn;
  rewrite ?omap_app; cbn; rewrite ?app_nil_r;
  first [ done
        | rewrite List.filter_app; cbn; case_bool_decide; simplify_eq; cbn;
          by rewrite ?app_nil_r ].

(** Looking at another upload starts nothing on [file]. *)
Lemma steps_scan_file_other file g ids :
  g ≠ file → steps (same (started_on file)) (scan_file g ids).
Proof.
  intros Hne. unfold scan_file. steps_struct; steps_prim; close_started_on.
Qed.

Lemma scan_uploads_shielded file ids E w :
  shielded file ids w →
  started_on file (scan_uploads ids E w).2 = started_on file w.
Proof.
  intros Hsh. unfold scan_uploads, tus.readdir. run. fold (listing w).
  destruct (0 <? length (listing w))%nat; [|run; reflexivity].
  destruct (0 <? length (uploadFiles_of (listing w) ids))%nat; [|run; reflexivity].
  match goal with
  | |- context [for_of ?l scan_file ids] => set (loop := for_of l scan_file ids)
  end.
  assert (Hs : steps (same (started_on file)) loop).
  { apply steps_for_of; [apply _|]. intros g s Hg. apply steps_scan_file_other.
    intros ->. apply elem_of_filter_bool in Hg as [Hl Hf].
    apply andb_true_iff in Hf as [_ Hf]. apply negb_true_iff, bool_decide_eq_false in Hf.
    destruct Hsh as [?|Hgone]; [done|].
    apply elem_of_listing in Hl. rewrite Hgone in Hl. by destruct Hl. }
  specialize (Hs E w). unfold same in Hs.
  rewrite run_bind. destruct (loop E w) as [[s|e|] w2]; run; exact Hs.
Qed.

(** Where the first pass reads a flag back as standing for the upload it was
    written for (every name without [".processed"] in it), a flag that is
    dated within the last thirty minutes keeps the whole run from starting
    anything on that upload. *)
Lemma fresh_flag_blocks_scan E w file sz t :
  originalFile_of (flag_of file) = file →
  tusUploadDir w !! flag_of file = Some (File sz (IsoDate t)) →
  (∀ n, (ticks w ≤ n < ticks w + flag_count w)%nat → clock E n - t ≤ TTL) →
  started_on file (checkForCompletedUploads E w).2 = started_on file w.
Proof.
  intros Ho Hflag Hfresh.
  destruct (prune_loop_fresh E file sz t (ticks w + flag_count w)
              (List.filter is_flag (listing w)) ∅ w)
    as (ids & w1 & Hrun & Hsh); [done..| |].
  { right. split; [|done]. apply elem_of_filter_bool. split.
    - apply elem_of_listing. by rewrite Hflag.
    - apply is_flag_flag_of. }
  destruct (prune_loop_frames E (List.filter is_flag (listing w)) ∅ w)
    as (ids' & w1' & Hrun' & _ & _ & _ & _ & Hst & _).
  rewrite Hrun in Hrun'. injection Hrun' as <- <-.
  unfold checkForCompletedUploads. rewrite run_try_catch, run_bind, run_prune_flags, Hrun.
  pose proof (scan_uploads_shielded file ids E w1 Hsh) as Hs.
  unfold started_on in *. rewrite <- Hst.
  destruct (scan_uploads ids E w1) as [[[]|e|] w2]; cbn in *; run; exact Hs.
Qed.

(** ** The encoder *)

Lemma started_push_trace e w :
  started (push_trace e w)
  = (started w ++ match e with Started j => [j] | _ => [] end)%list.
Proof. unfold started. cbn. rewrite omap_app. by destruct e. Qed.

Lemma started_post fs w : started (post fs w) = started w.
Proof. done. Qed.

Lemma started_set_hls f w : started (set_hls f w) = started w.
Proof. done. Qed.

Lemma started_set_tus f w : started (set_tus f w) = started w.
Proof. done. Qed.

Lemma started_set_catalogue f w : started (set_catalogue f w) = started w.
Proof. done. Qed.

Lemma started_bump_uuids w : started (bump_uuids w) = started w.
Proof. done. Qed.

Lemma started_bump_ticks w : started (bump_ticks w) = started w.
Proof. done. Qed.

Create Rewrite HintDb started.
#[global] Hint Rewrite started_push_trace started_post started_set_hls started_set_tus
  started_set_catalogue started_bump_uuids started_bump_ticks : started.

(** Tidies the facts in the context after a step of the handler. *)
Ltac tidy :=
  cbn [tusUploadDir uploadsDir hlsDir clients wss_clients processedLocalVideos outbox
       uuids ticks post push_trace push_outbox set_hls set_tus set_catalogue
       bump_uuids bump_ticks] in *;
  autorewrite with started in *.

Ltac lists := cbn; rewrite ?app_nil_r; repeat rewrite <- app_assoc; cbn; done.

#[global] Instance hls_only_preorder : PreOrder hls_only.
Proof.
  split.
  - intros w. by repeat split.
  - intros w1 w2 w3 H12 H23. unfold hls_only in *.
    destruct H12 as (?&?&?&?&?&?&?&?&?&?), H23 as (?&?&?&?&?&?&?&?&?&?).
    repeat split; try congruence. eauto.
Qed.

Lemma steps_write_segments vid seg n : steps hls_only (write_segments vid seg n).
Proof.
  unfold write_segments. steps_struct. steps_prim. unfold hls_only, started. cbn.
  rewrite omap_app. cbn. rewrite app_nil_r. repeat split; try done.
  intros k Hk. rewrite lookup_insert. case_decide; eauto.
Qed.

Lemma write_segments_returns vid seg n E w :
  (write_segments vid seg n E w).1 = Returned tt.
Proof.
  unfold write_segments, forEach. generalize (seq 0 n). intros l. revert w.
  induction l as [|k l IH]; intros w; [done|].
  rewrite run_for_of_cons. run. apply IH.
Qed.

Lemma run_write_segments vid seg n E w :
  ∃ w1, write_segments vid seg n E w = (Returned tt, w1) ∧ hls_only w w1.
Proof.
  pose proof (write_segments_returns vid seg n E w) as Hr.
  pose proof (steps_write_segments vid seg n E w) as Hs.
  destruct (write_segments vid seg n E w) as [r w1]. cbn in *. subst r. by exists w1.
Qed.

(** Awaiting a run that ends: its segments and its playlist are on disk. *)
Lemma ffmpeg_await_done seg j n E w :
  ffmpeg E j = Done n →
  ∃ w1, hls_only w w1
    ∧ ffmpeg_await seg j E w =
      (Returned tt,
       push_trace (Ended j)
         (push_trace (HlsWrite (job_vid j) (job_output j))
            (set_hls (<[(job_vid j, job_output j) := MediaPlaylist]>) w1))).
Proof.
  intros Hj. unfold ffmpeg_await. run. rewrite Hj.
  destruct (run_write_segments (job_vid j) seg n E w) as (w1 & Hw & Hh).
  exists w1. split; [done|]. run. rewrite Hw. by run.
Qed.

(** Awaiting a run that errors: the promise rejects with ffmpeg's error. *)
Lemma ffmpeg_await_failed seg j n msg E w :
  ffmpeg E j = Failed n msg →
  ∃ w1, hls_only w w1
    ∧ ffmpeg_await seg j E w = (Thrown (Error msg), push_trace (Errored j msg) w1).
Proof.
  intros Hj. unfold ffmpeg_await. run. rewrite Hj.
  destruct (run_write_segments (job_vid j) seg n E w) as (w1 & Hw & Hh).
  exists w1. split; [done|]. run. rewrite Hw. by run.
Qed.

Ltac await_done H :=
  match goal with
  | |- context [ffmpeg_await ?seg ?j ?E ?w0] =>
      let w1 := fresh "w" in
      let Hh := fresh "Hh" in
      destruct H as [? H];
      destruct (ffmpeg_await_done seg j _ E w0 H) as (w1 & Hh & ->);
      destruct Hh as (? & _ & _ & ? & ? & ? & _ & _ & ? & ?)
  end.

Ltac await_failed H :=
  match goal with
  | |- context [ffmpeg_await ?seg ?j ?E ?w0] =>
      let w1 := fresh "w" in
      let Hh := fresh "Hh" in
      destruct (ffmpeg_await_failed seg j _ _ E w0 H) as (w1 & Hh & ->);
      destruct Hh as (? & _ & _ & ? & ? & ? & _ & _ & ? & ?)
  end.

Ltac use_facts :=
  repeat match goal with H : tusUploadDir _ = _ |- _ => rewrite H; clear H end;
  repeat match goal with H : outbox _ = _ |- _ => rewrite H; clear H end;
  repeat match goal with H : wss_clients _ = _ |- _ => rewrite H; clear H end;
  repeat match goal with H : processedLocalVideos _ = _ |- _ => rewrite H; clear H end;
  repeat match goal with H : started _ = _ |- _ => rewrite H; clear H end.

(** A file of [hlsDir] that was there is still there. *)
Ltac alive :=
  tidy;
  repeat first
    [ match goal with
      | H : ∀ k, is_Some (_ !! k) → is_Some (hlsDir ?b !! k)
        |- is_Some (hlsDir ?b !! _) => apply H
      end
    | apply lookup_insert_is_Some'; first [by left | right] ];
  eauto.

(** X9. For an upload whose name does not contain [".processed"], a flag
    that is dated within the last thirty minutes keeps a whole run of the
    scanner from starting anything on that upload.  "Within the last thirty
    minutes" is meant at the clock readings of the first pass, where the
    flag's age is tested: there is at most one reading for each flag file in
    the directory, so these are the readings [ticks w], ...,
    [ticks w + flag_count w - 1]; the clock is free to run on after them. *)
Corollary fresh_flag_blocks_scan_plain E w file sz t :
  occurs ".processed" file = false →
  tusUploadDir w !! flag_of file = Some (File sz (IsoDate t)) →
  (∀ n, (ticks w ≤ n < ticks w + flag_count w)%nat → clock E n - t ≤ TTL) →
  started_on file (checkForCompletedUploads E w).2 = started_on file w.
Proof. intros Ho. apply fresh_flag_blocks_scan. by apply originalFile_of_flag_of. Qed.

(** ** A scanner attempt, from claim to settlement *)

(** The upload is complete and unclaimed, the encode ends: the flag stays,
    the source stays, and the observers hear of the start and of the end. *)
Lemma scan_file_success E w file ids size b jsz n :
  tusUploadDir w !! file = Some (File size b) →
  tusUploadDir w !! (file +:+ ".json") = Some (File jsz (UploadInfo (Some size))) →
  tusUploadDir w !! flag_of file = None →
  can_broadcast E (clients w) →
  ffmpeg E (single_job (InTus file) (uuid E (uuids w))) = Done n →
  ∃ w', scan_file file ids E w = (Returned ({[file]} ∪ ids), w')
    ∧ tusUploadDir w'
      = <[flag_of file := File 24 (IsoDate (clock E (ticks w)))]> (tusUploadDir w)
    ∧ outbox w'
      = (outbox w
         ++ deliver client_ws (processing_started (uuid E (uuids w))) (clients w)
         ++ deliver client_ws
              (videoProcessed (uuid E (uuids w)) (hlsUrl_of (uuid E (uuids w))))
              (clients w))%list
    ∧ processedLocalVideos w' = processedLocalVideos w
    ∧ started w' = (started w ++ [single_job (InTus file) (uuid E (uuids w))])%list.
Proof.
  intros Hfile Hjson Hflag Hcb Hj.
  unfold scan_file, tus.stat. run. rewrite Hfile. run.
  unfold exists_ at 1. run. rewrite run_access_json, Hjson. run.
  unfold tus.readFile. rewrite Hjson. run. cbn [JSON_parse]. run.
  rewrite bool_decide_eq_true_2 by done.
  unfold exists_ at 1. run. rewrite run_access_flag, Hflag. run. cbn [negb].
  run. unfold tus.writeFile. cbn [tusUploadDir bump_ticks bump_uuids]. rewrite Hflag. run.
  unfold scan_attempt. run.
  rewrite broadcast_clients_pass by done. tidy.
  unfold processVideo. run.
  match goal with
  | |- context [ffmpeg_await ?seg ?j E ?w0] =>
      destruct (ffmpeg_await_done seg j n E w0 Hj) as (w1 & Hh & ->)
  end.
  destruct Hh as (Ht & _ & Hc & _ & Hp & Ho & _ & _ & Hs & _). tidy.
  run. unfold exists_ at 1, hls.access at 1. run.
  cbn [hlsDir push_trace set_hls job_vid job_output single_job]. rewrite lookup_insert_eq. run.
  rewrite broadcast_clients_pass by (tidy; by rewrite Hc).
  run. eexists. split; [reflexivity|]. tidy. rewrite Ht, Ho, Hp, Hc, Hs.
  repeat split; lists.
Qed.

(** X11. The upload is complete and unclaimed, the encode errors: the flag
    is taken back, what the encoder wrote stays, and the observers hear of
    the start and of the error.  (The statement is about broadcasts that
    get past [WebSocket.OPEN].) *)
Lemma scan_file_failure E w file ids size b jsz n msg :
  tusUploadDir w !! file = Some (File size b) →
  tusUploadDir w !! (file +:+ ".json") = Some (File jsz (UploadInfo (Some size))) →
  tusUploadDir w !! flag_of file = None →
  can_broadcast E (clients w) →
  ffmpeg E (single_job (InTus file) (uuid E (uuids w))) = Failed n msg →
  ∃ w', scan_file file ids E w = (Returned ids, w')
    ∧ tusUploadDir w' = tusUploadDir w
    ∧ outbox w'
      = (outbox w
         ++ deliver client_ws (processing_started (uuid E (uuids w))) (clients w)
         ++ deliver client_ws (videoError (uuid E (uuids w)) msg) (clients w))%list
    ∧ (∀ k, is_Some (hlsDir w !! k) → is_Some (hlsDir w' !! k))
    ∧ started w' = (started w ++ [single_job (InTus file) (uuid E (uuids w))])%list.
Proof.
  intros Hfile Hjson Hflag Hcb Hj.
  unfold scan_file, tus.stat. run. rewrite Hfile. run.
  unfold exists_ at 1. run. rewrite run_access_json, Hjson. run.
  unfold tus.readFile. rewrite Hjson. run. cbn [JSON_parse]. run.
  rewrite bool_decide_eq_true_2 by done.
  unfold exists_ at 1. run. rewrite run_access_flag, Hflag. run. cbn [negb].
  run. unfold tus.writeFile. cbn [tusUploadDir bump_ticks bump_uuids]. rewrite Hflag. run.
  unfold scan_attempt. run.
  rewrite broadcast_clients_pass by done. tidy.
  unfold processVideo. run.
  match goal with
  | |- context [ffmpeg_await ?seg ?j E ?w0] =>
      destruct (ffmpeg_await_failed seg j n msg E w0 Hj) as (w1 & Hh & ->)
  end.
  destruct Hh as (Ht & _ & Hc & _ & Hp & Ho & _ & _ & Hs & Hk). tidy.
  run. rewrite run_unlink_quietly. run.
  unfold remove_flag. tidy. rewrite Ht, lookup_insert_eq.
  rewrite broadcast_clients_pass by (tidy; by rewrite Hc).
  run. eexists. split; [reflexivity|]. tidy. rewrite Ht, Ho, Hc, Hs.
  split; [|split; [lists|split; [done|lists]]].
  rewrite delete_insert_eq. by apply delete_id.
Qed.

(** ** A push attempt, from probe to settlement *)

(** All three rungs end: the source is unlinked; the only frame is the early
    one. *)
Lemma push_success E w name width height sz b :
  name ≠ "" → ffprobe E (InTus name) = inr (width, height) →
  tusUploadDir w !! name = Some (File sz b) →
  can_broadcast E (wss_clients w) →
  (∀ q, q ∈ qualities →
     ∃ n, ffmpeg E (variant_job (InTus name) (uuid E (uuids w)) q) = Done n) →
  ∃ w', on_upload_finish {| file_path := Some name |} E w = (Returned tt, w')
    ∧ tusUploadDir w' = delete name (tusUploadDir w)
    ∧ outbox w'
      = (outbox w
         ++ deliver (fun s => s)
              (videoProcessed (uuid E (uuids w)) (hlsUrl_of (uuid E (uuids w))))
              (wss_clients w))%list
    ∧ processedLocalVideos w' = processedLocalVideos w
    ∧ started w'
      = (started w ++ (variant_job (InTus name) (uuid E (uuids w)) <$> qualities))%list.
Proof.
  intros Hn Hp Hfile Hcb Hdone.
  rewrite (on_upload_finish_probed E w name width height) by done.
  unfold qualities in Hdone.
  pose proof (Hdone _ (list_elem_of_here _ _)) as H1.
  pose proof (Hdone _ (list_elem_of_further _ _ _ (list_elem_of_here _ _))) as H2.
  pose proof (Hdone _ (list_elem_of_further _ _ _
                         (list_elem_of_further _ _ _ (list_elem_of_here _ _)))) as H3.
  clear Hdone. unfold qualities at 1. run.
  unfold encode_rung at 1. run. cbn [negb].
  rewrite broadcast_wss_pass by done. tidy. run.
  await_done H1. tidy. run.
  unfold encode_rung at 1. run. cbn [negb]. run.
  await_done H2. tidy. run.
  unfold encode_rung at 1. run. cbn [negb]. run.
  await_done H3. tidy. run.
  cbn [source_unlink]. unfold tus.unlink at 1. tidy.
  repeat match goal with H : tusUploadDir _ = _ |- _ => rewrite H end.
  rewrite Hfile. run.
  eexists. split; [reflexivity|]. tidy. use_facts.
  split; [done|]. split; [done|]. split; [done|]. lists.
Qed.

(** X13. Some rung errors after the ones before it have ended: no later
    rung is started, the upload directory is as it was, the playlists
    written so far are still there, and the observers get the error with
    the identity.  (The statement is about broadcasts that get past
    [WebSocket.OPEN].) *)
Lemma push_failure E w name width height before q after n msg :
  name ≠ "" → ffprobe E (InTus name) = inr (width, height) →
  can_broadcast E (wss_clients w) →
  qualities = (before ++ q :: after)%list →
  (∀ q', q' ∈ before →
     ∃ n', ffmpeg E (variant_job (InTus name) (uuid E (uuids w)) q') = Done n') →
  ffmpeg E (variant_job (InTus name) (uuid E (uuids w)) q) = Failed n msg →
  ∃ w', on_upload_finish {| file_path := Some name |} E w = (Returned tt, w')
    ∧ tusUploadDir w' = tusUploadDir w
    ∧ outbox w'
      = (outbox w
         ++ deliver (fun s => s)
              (videoProcessed (uuid E (uuids w)) (hlsUrl_of (uuid E (uuids w))))
              (wss_clients w)
         ++ deliver (fun s => s) (videoError (uuid E (uuids w)) msg) (wss_clients w))%list
    ∧ started w'
      = (started w
         ++ (variant_job (InTus name) (uuid E (uuids w)) <$> (before ++ [q])))%list
    ∧ is_Some (hlsDir w' !! (uuid E (uuids w), "playlist.m3u8"))
    ∧ ∀ q', q' ∈ before →
        is_Some (hlsDir w' !! (uuid E (uuids w), q_name q' +:+ ".m3u8")).
Proof.
  intros Hn Hp Hcb Hq Hdone Hfail.
  rewrite (on_upload_finish_probed E w name width height) by done.
  unfold qualities at 1. unfold qualities in Hq.
  destruct before as [|q1 [|q2 [|q3 before]]]; cbn in Hq; simplify_eq.
  - (* the first rung errors *)
    run. unfold encode_rung at 1. run. cbn [negb].
    rewrite broadcast_wss_pass by done. tidy. run.
    await_failed Hfail. tidy. run.
    rewrite broadcast_wss_pass by (tidy; by use_facts). run.
    eexists. split; [reflexivity|]. tidy.
    split; [by use_facts|]. split; [use_facts; lists|].
    split; [use_facts; lists|]. split; [by alive|]. by intros ? ?%elem_of_nil.
  - (* the second rung errors *)
    pose proof (Hdone _ (list_elem_of_here _ _)) as H1.
    run. unfold encode_rung at 1. run. cbn [negb].
    rewrite broadcast_wss_pass by done. tidy. run.
    await_done H1. tidy. run.
    unfold encode_rung at 1. run. cbn [negb]. run.
    await_failed Hfail. tidy. run.
    rewrite broadcast_wss_pass by (tidy; by use_facts). run.
    eexists. split; [reflexivity|]. tidy.
    split; [by use_facts|]. split; [use_facts; lists|].
    split; [use_facts; lists|]. split; [by alive|].
    intros q' Hq'. apply list_elem_of_singleton in Hq' as ->. by alive.
  - (* the third rung errors *)
    pose proof (Hdone _ (list_elem_of_here _ _)) as H1.
    pose proof (Hdone _ (list_elem_of_further _ _ _ (list_elem_of_here _ _))) as H2.
    run. unfold encode_rung at 1. run. cbn [negb].
    rewrite broadcast_wss_pass by done. tidy. run.
    await_done H1. tidy. run.
    unfold encode_rung at 1. run. cbn [negb]. run.
    await_done H2. tidy. run.
    unfold encode_rung at 1. run. cbn [negb]. run.
    await_failed Hfail. tidy. run.
    rewrite broadcast_wss_pass by (tidy; by use_facts). run.
    eexists. split; [reflexivity|]. tidy.
    split; [by use_facts|]. split; [use_facts; lists|].
    split; [use_facts; lists|]. split; [by alive|].
    intros q' Hq'. apply elem_of_cons in Hq' as [->|Hq'];
      [|apply list_elem_of_singleton in Hq' as ->]; by alive.
  - destruct before; cbn in *; simplify_eq.
Qed.

(** ** Both trigger paths on one upload *)

#[global] Instance writes_no_upload_preorder : PreOrder writes_no_upload.
Proof.
  split.
  - intros w k. by left.
  - intros w1 w2 w3 H12 H23 k. destruct (H23 k) as [Hk|Hk]; rewrite Hk; [apply H12|by right].
Qed.

(** X14. The upload-finish handler never creates or rewrites a file in the
    upload directory, so it never writes a flag: all it can do there is
    unlink the source. *)
Lemma on_upload_finish_writes_no_upload event :
  steps writes_no_upload (on_upload_finish event).
Proof.
  unfold on_upload_finish.
  steps_struct; try (apply steps_for_of; steps_intro; steps_struct);
    steps_prim; unfold writes_no_upload; cbn; intros k; try (by left).
  rewrite lookup_delete. case_decide; [by right|by left].
Qed.

(** C1, evaluated. The upload ["a"] is complete and unclaimed; nobody is
    connected.  The upload-finish handler starts the 360p run and parks on
    it without having written a flag; the scanner's next run finds no flag,
    writes one and starts its own run on the same source.  Both runs are
    then under way at once. *)
Theorem C1_push_and_scan_overlap :
  let E := sample_env true (inr (1920, 1080)) (fun _ => Pending) in
  let pushed := on_upload_finish {| file_path := Some "a" |} E (sample_world []) in
  let scanned := checkForCompletedUploads E pushed.2 in
  pushed.1 = Parked
  ∧ tusUploadDir pushed.2 !! flag_of "a" = None
  ∧ running pushed.2 = [variant_job (InTus "a") "id0" rung_360p]
  ∧ scanned.1 = Parked
  ∧ running scanned.2
    = [variant_job (InTus "a") "id0" rung_360p; single_job (InTus "a") "id1"].
Proof. vm_compute. repeat split; reflexivity. Qed.

(** C2, evaluated. The upload ["a.processed.b"] is claimed and transcoded by
    a first run, which leaves its flag dated at the first clock reading.  One
    second later the next run reads the flag's name back as
    ["a.b.processed"], finds no such file, unlinks the flag as orphaned and
    claims the upload again, although the flag was two seconds old. *)
Theorem C2_fresh_flag_taken_for_orphan :
  let E := sample_env true (inr (1920, 1080)) (fun _ => Done 1) in
  let name := "a.processed.b" in
  let first := checkForCompletedUploads E (world_with name []) in
  let second := checkForCompletedUploads E first.2 in
  tusUploadDir first.2 !! flag_of name = Some (File 24 (IsoDate 0))
  ∧ (∀ n, clock E n - 0 ≤ TTL ↔ (n ≤ 1800)%nat)
  ∧ ticks second.2 = 2%nat
  ∧ originalFile_of (flag_of name) = "a.b.processed"
  ∧ started_on name first.2 = [single_job (InTus name) "id0"]
  ∧ started_on name second.2
    = [single_job (InTus name) "id0"; single_job (InTus name) "id1"].
Proof.
  cbv zeta. split; [vm_compute; reflexivity|]. split.
  { intros n. unfold TTL. cbn. lia. }
  vm_compute. repeat split; reflexivity.
Qed.

(** C8, evaluated. A first run claims ["a"], transcodes it and returns; the
    flag it leaves is dated at the first clock reading and the source is
    still in place.  At the next reading, 31 minutes 40 seconds later, the
    following run takes the flag for stale, unlinks it and transcodes the
    same source again under a new identity. *)
Theorem C8_succeeded_source_rescanned :
  let E := env_at 1900000 true (inr (1920, 1080)) (fun _ => Done 1) in
  let first := checkForCompletedUploads E (sample_world []) in
  let second := checkForCompletedUploads E first.2 in
  first.1 = Returned tt
  ∧ trace first.2
    = [TusWrite "a.processed"; Started (single_job (InTus "a") "id0");
       HlsWrite "id0" "segment_000.ts"; HlsWrite "id0" "playlist.m3u8";
       Ended (single_job (InTus "a") "id0")]
  ∧ tusUploadDir first.2 !! "a.processed" = Some (File 24 (IsoDate 0))
  ∧ tusUploadDir first.2 !! "a" = Some (File 10 Opaque)
  ∧ clock E (ticks first.2) = 1900000
  ∧ started_on "a" second.2
    = [single_job (InTus "a") "id0"; single_job (InTus "a") "id1"]
  ∧ running second.2 = [].
Proof. vm_compute. repeat split; reflexivity. Qed.

(** C3, evaluated. The upload ["a.processed.b"] is gone and the flag written
    for it, ["a.processed.b.processed"], is still in the directory, dated at
    the epoch.  The first pass reads the flag's name back as
    ["a.b.processed"], which is there (it is the flag of the upload ["a.b"]),
    so the flag is not taken for orphaned; its date is within the thirty
    minutes, so it is not taken for stale either.  The run ends without
    having unlinked anything: the orphaned flag is still in the directory. *)
Theorem C3_orphaned_flag_kept :
  let E := sample_env true (inr (1920, 1080)) (fun _ => Done 1) in
  let file := "a.processed.b" in
  let run := checkForCompletedUploads E orphan_world in
  tus.present orphan_world file = false
  ∧ tusUploadDir orphan_world !! flag_of file = Some (File 24 (IsoDate 0))
  ∧ originalFile_of (flag_of file) = "a.b.processed"
  ∧ tus.present orphan_world "a.b.processed" = true
  ∧ run.1 = Returned tt
  ∧ trace run.2 = []
  ∧ tusUploadDir run.2 !! flag_of file = Some (File 24 (IsoDate 0))
  ∧ tusUploadDir (prune_flags E orphan_world).2 !! flag_of file
    = Some (File 24 (IsoDate 0)).
Proof. vm_compute. repeat split; reflexivity. Qed.

(** The names the first pass derives from the flags [.processed],
    [..processed] and [...processed] lead to the upload directory itself and
    to its parent, so these flags are never taken for orphaned. *)
Example originalFile_of_dot_flags :
  (fun flag => (originalFile_of flag, tus.present orphan_world (originalFile_of flag)))
    <$> [".processed"; "..processed"; "...processed"]
  = [("", true); (".", true); ("..", true)].
Proof. vm_compute. reflexivity. Qed.

Lemma scan_prunes_flags_witness :
  let E := sample_env true (inr (1920, 1080)) (fun _ => Done 1) in
  tusUploadDir stray_world !! flag_of "gone" = Some (File 24 (IsoDate 0))
  ∧ occurs ".processed" "gone" = false
  ∧ tus.present stray_world "gone" = false
  ∧ tusUploadDir (prune_flags E stray_world).2 !! flag_of "gone" = None.
Proof.
  intros E. split; [reflexivity|]. split; [reflexivity|]. split; [reflexivity|].
  refine (proj1 (scan_prunes_flags E stray_world "gone" 24 (IsoDate 0) _ _));
    [reflexivity|].
  left. split; reflexivity.
Defined.

(** ** Settlement of an attempt *)

(** C5 (amended). When everything an attempt encodes ends well, what follows
    depends on the path.  On the scanner's path the readiness event, with the
    identity and the package URL, goes to every open observer after the
    start event, while the flag stays in place and so does the source.  On
    the push path, with all three rungs ended, the source is unlinked and
    nothing else in the upload directory changes; the only frames are the
    early ones sent when the first rung was started.  Neither path touches
    the catalogue.  (The statement is about broadcasts that get past
    [WebSocket.OPEN].) *)
Theorem C5_success_by_path E w :
  (∀ file ids size b jsz n,
     tusUploadDir w !! file = Some (File size b) →
     tusUploadDir w !! (file +:+ ".json") = Some (File jsz (UploadInfo (Some size))) →
     tusUploadDir w !! flag_of file = None →
     can_broadcast E (clients w) →
     ffmpeg E (single_job (InTus file) (uuid E (uuids w))) = Done n →
     ∃ w', scan_file file ids E w = (Returned ({[file]} ∪ ids), w')
       ∧ tusUploadDir w' !! flag_of file
         = Some (File 24 (IsoDate (clock E (ticks w))))
       ∧ tusUploadDir w' !! file = Some (File size b)
       ∧ outbox w'
         = (outbox w
            ++ deliver client_ws (processing_started (uuid E (uuids w))) (clients w)
            ++ deliver client_ws
                 (videoProcessed (uuid E (uuids w)) (hlsUrl_of (uuid E (uuids w))))
                 (clients w))%list
       ∧ processedLocalVideos w' = processedLocalVideos w)
  ∧ (∀ name width height sz b,
       name ≠ "" → ffprobe E (InTus name) = inr (width, height) →
       tusUploadDir w !! name = Some (File sz b) →
       can_broadcast E (wss_clients w) →
       (∀ q, q ∈ qualities →
          ∃ n, ffmpeg E (variant_job (InTus name) (uuid E (uuids w)) q) = Done n) →
       ∃ w', on_upload_finish {| file_path := Some name |} E w = (Returned tt, w')
         ∧ tusUploadDir w' !! name = None
         ∧ (∀ k, k ≠ name → tusUploadDir w' !! k = tusUploadDir w !! k)
         ∧ outbox w'
           = (outbox w
              ++ deliver (fun s => s)
                   (videoProcessed (uuid E (uuids w)) (hlsUrl_of (uuid E (uuids w))))
                   (wss_clients w))%list
         ∧ processedLocalVideos w' = processedLocalVideos w).
Proof.
  split.
  - intros file ids size b jsz n Hfile Hjson Hflag Hcb Hj.
    destruct (scan_file_success E w file ids size b jsz n Hfile Hjson Hflag Hcb Hj)
      as (w' & Hrun & Ht & Ho & Hp & _).
    exists w'. split; [done|]. rewrite Ht.
    split; [apply lookup_insert_eq|]. split; [|done].
    rewrite lookup_insert_ne; [done|]. intros Heq. rewrite Heq, Hfile in Hflag. done.
  - intros name width height sz b Hn Hprobe Hfile Hcb Hdone.
    destruct (push_success E w name width height sz b Hn Hprobe Hfile Hcb Hdone)
      as (w' & Hrun & Ht & Ho & Hp & _).
    exists w'. split; [done|]. rewrite Ht.
    split; [apply lookup_delete_eq|]. split; [|done].
    intros k Hk. by rewrite lookup_delete_ne.
Qed.

(** C5 as stated fails on the scanner's path: after a run whose only encode
    has ended, the flag is still there, the source is still there, and the
    catalogue has no entry for it. *)
Lemma C5_counterexample :
  let E := sample_env true (inr (1920, 1080)) (fun _ => Done 1) in
  let r := checkForCompletedUploads E (sample_world [observer "o1" 1]) in
  started_on "a" r.2 = [single_job (InTus "a") "id0"]
  ∧ running r.2 = []
  ∧ tusUploadDir r.2 !! flag_of "a" = Some (File 24 (IsoDate 0))
  ∧ tusUploadDir r.2 !! "a" = Some (File 10 Opaque)
  ∧ processedLocalVideos r.2 !! "a" = None
  ∧ ¬ (tusUploadDir r.2 !! flag_of "a" = None
       ∧ tusUploadDir r.2 !! "a" = None
       ∧ is_Some (processedLocalVideos r.2 !! "a")).
Proof.
  cbv zeta. do 5 (split; [vm_compute; reflexivity|]).
  intros [H _]. vm_compute in H. discriminate.
Qed.

Lemma C5_witness :
  let E := sample_env true (inr (1920, 1080)) (fun _ => Done 1) in
  let w := sample_world [observer "o1" 1] in
  (∃ w', scan_file "a" ∅ E w = (Returned ({["a"]} ∪ ∅), w')
     ∧ tusUploadDir w' !! flag_of "a" = Some (File 24 (IsoDate (clock E (ticks w)))))
  ∧ (∃ w', on_upload_finish {| file_path := Some "a" |} E w = (Returned tt, w')
       ∧ tusUploadDir w' !! "a" = None).
Proof.
  intros E w. destruct (C5_success_by_path E w) as [Hscan Hpush]. split.
  - destruct (Hscan "a" ∅ 10 Opaque 40 1%nat) as (w' & Hrun & Hflag & _);
      [reflexivity|reflexivity|reflexivity|by left|reflexivity|].
    by exists w'.
  - destruct (Hpush "a" 1920 1080 10 Opaque) as (w' & Hrun & Hgone & _);
      [done|reflexivity|reflexivity|by left| |by exists w'].
    intros q _. by exists 1%nat.
Defined.

(** C6, evaluated. [WebSocket] is unbound and one observer is connected; the
    encoder errors on whatever it is given.  The upload-finish handler starts
    the 360p run and throws at the early notification, then again in its
    [catch]: it rejects, the run's error is never awaited, and no frame, in
    particular no error event, reaches the observer.  The scanner under the
    same conditions throws before it starts any run. *)
Theorem C6_error_event_lost :
  let E := sample_env false (inr (1920, 1080)) (fun _ => Failed 1 "boom") in
  let w := sample_world [observer "o1" 1] in
  let pushed := on_upload_finish {| file_path := Some "a" |} E w in
  let scanned := checkForCompletedUploads E w in
  pushed.1 = Thrown (ReferenceError "WebSocket")
  ∧ started pushed.2 = [variant_job (InTus "a") "id0" rung_360p]
  ∧ outbox pushed.2 = []
  ∧ started scanned.2 = []
  ∧ outbox scanned.2 = [].
Proof. vm_compute. repeat split; reflexivity. Qed.

(** The same failure where the broadcast gets past [WebSocket.OPEN]: the
    second rung errors, the third is never started, the first rung's
    playlist stays, and the observer gets the early frame and the error. *)
Example second_rung_fails :
  let E := sample_env true (inr (1920, 1080))
             (fun j => if String.eqb (job_output j) "480p.m3u8"
                       then Failed 1 "boom" else Done 1) in
  let r := on_upload_finish {| file_path := Some "a" |} E
             (sample_world [observer "o1" 1]) in
  r.1 = Returned tt
  ∧ (job_output <$> started r.2) = ["360p.m3u8"; "480p.m3u8"]
  ∧ hlsDir r.2 !! ("id0", "360p.m3u8") = Some MediaPlaylist
  ∧ tusUploadDir r.2 !! "a" = Some (File 10 Opaque)
  ∧ outbox r.2
    = [("o1", videoProcessed "id0" "/hls/id0/playlist.m3u8");
       ("o1", videoError "id0" "boom")].
Proof. vm_compute. repeat split; reflexivity. Qed.

(** ** The query API *)

(** An entry of the uploads directory is found under its own name. *)
Lemma run_access_entry name n E w :
  uploadsDir w !! name = Some n → uploads.access name E w = (Returned tt, w).
Proof. intros H. unfold uploads.access, uploads.present. by rewrite H. Qed.






(** A request for a filename the catalogue already holds answers from the
    catalogue and leaves the world as it is. *)
Lemma post_process_cached E w filename v :
  filename ≠ "" → is_Some (uploadsDir w !! filename) →
  processedLocalVideos w !! filename = Some v →
  post_process (Some filename) E w = (Returned (ok (video_body v)), w).
Proof.
  intros Hn [nd Hfile] Hv. unfold post_process. destruct filename as [|c s]; [done|].
  run. unfold exists_. run. rewrite (run_access_entry _ _ E w Hfile). run. cbn [negb]. run.
  rewrite Hv. by run.
Qed.

(** A request that transcodes to the end records the video in the catalogue
    before it broadcasts, so the entry is there whether or not the broadcast
    throws. *)
Lemma post_process_first E w filename n :
  filename ≠ "" → is_Some (uploadsDir w !! filename) →
  processedLocalVideos w !! filename = None →
  ffmpeg E (single_job (InUploads filename) (uuid E (uuids w))) = Done n →
  ∃ r w', post_process (Some filename) E w = (Returned r, w')
    ∧ uploadsDir w' = uploadsDir w
    ∧ processedLocalVideos w'
      = <[filename := {| vi_id := uuid E (uuids w); vi_filename := filename;
                         vi_hlsUrl := hlsUrl_of (uuid E (uuids w));
                         vi_timestamp := clock E (ticks w);
                         vi_processed := true |}]> (processedLocalVideos w)
    ∧ started w'
      = (started w ++ [single_job (InUploads filename) (uuid E (uuids w))])%list.
Proof.
  intros Hn [nd Hfile] Hv Hj.
  unfold post_process. destruct filename as [|c s]; [done|].
  run. unfold exists_. run. rewrite (run_access_entry _ _ E w Hfile). run. cbn [negb]. run.
  rewrite Hv. run. unfold processLocalVideo, processVideo. run.
  match goal with
  | |- context [ffmpeg_await ?seg ?j E ?w0] =>
      destruct (ffmpeg_await_done seg j n E w0 Hj) as (w1 & Hh & ->)
  end.
  destruct Hh as (_ & Hu & Hc & _ & Hp & _ & _ & Hti & Hs & _). tidy. run.
  unfold mark_processed. cbn [vi_id vi_filename vi_hlsUrl vi_timestamp].
  destruct (global_WebSocket E) eqn:HE.
  - rewrite broadcast_clients_pass by by left. run.
    eexists _, _. split; [reflexivity|]. tidy. rewrite Hu, Hp, Hs, Hti.
    by rewrite !app_nil_r.
  - rewrite broadcast_clients_unbound by done. tidy.
    destruct (clients w1) as [|c1 cs]; run;
      (eexists _, _; split; [reflexivity|]); tidy; rewrite Hu, Hp, Hs, Hti;
      by rewrite !app_nil_r.
Qed.

(** C7 (amended). Of two process-requests for the same filename, the second
    does no work when it arrives after the first has finished transcoding:
    the first has put the video in the catalogue, the second answers with
    that entry and leaves the world untouched, so one run has been started
    in all.  (The catalogue has no in-flight state: a request that arrives
    while the first is still transcoding is not covered.) *)
Theorem C7_second_request_after_first E w filename n :
  filename ≠ "" → is_Some (uploadsDir w !! filename) →
  processedLocalVideos w !! filename = None →
  ffmpeg E (single_job (InUploads filename) (uuid E (uuids w))) = Done n →
  let first := post_process (Some filename) E w in
  let second := post_process (Some filename) E first.2 in
  let info := {| vi_id := uuid E (uuids w); vi_filename := filename;
                 vi_hlsUrl := hlsUrl_of (uuid E (uuids w));
                 vi_timestamp := clock E (ticks w); vi_processed := true |} in
  processedLocalVideos first.2 !! filename = Some info
  ∧ second = (Returned (ok (video_body info)), first.2)
  ∧ started second.2
    = (started w ++ [single_job (InUploads filename) (uuid E (uuids w))])%list.
Proof.
  intros Hn Hfile Hv Hj first second info. subst first second info.
  destruct (post_process_first E w filename n Hn Hfile Hv Hj)
    as (r & w1 & -> & Hu & Hp & Hs).
  cbn [snd].
  assert (Hc : processedLocalVideos w1 !! filename
               = Some {| vi_id := uuid E (uuids w); vi_filename := filename;
                         vi_hlsUrl := hlsUrl_of (uuid E (uuids w));
                         vi_timestamp := clock E (ticks w); vi_processed := true |}).
  { rewrite Hp. apply lookup_insert_eq. }
  split; [done|].
  rewrite (post_process_cached E w1 filename _ Hn) by (by rewrite ?Hu).
  by split.
Qed.

(** C7 as stated fails: a second request that arrives while the first is
    still transcoding finds nothing in the catalogue and starts a run of its
    own on the same file. *)
Lemma C7_counterexample :
  let E := sample_env true (inr (1920, 1080)) (fun _ => Pending) in
  let first := post_process (Some "clip.mp4") E (sample_world []) in
  let second := post_process (Some "clip.mp4") E first.2 in
  first.1 = Parked
  ∧ processedLocalVideos first.2 !! "clip.mp4" = None
  ∧ second.1 = Parked
  ∧ running second.2
    = [single_job (InUploads "clip.mp4") "id0"; single_job (InUploads "clip.mp4") "id1"].
Proof. vm_compute. repeat split; reflexivity. Qed.

Lemma C7_witness :
  let E := sample_env true (inr (1920, 1080)) (fun _ => Done 1) in
  let w := sample_world [] in
  let first := post_process (Some "clip.mp4") E w in
  "clip.mp4" ≠ ""
  ∧ is_Some (uploadsDir w !! "clip.mp4")
  ∧ processedLocalVideos w !! "clip.mp4" = None
  ∧ started (post_process (Some "clip.mp4") E first.2).2
    = (started w ++ [single_job (InUploads "clip.mp4") (uuid E (uuids w))])%list.
Proof.
  intros E w first. split; [done|]. split; [by eexists|]. split; [reflexivity|].
  refine (proj2 (proj2 (C7_second_request_after_first E w "clip.mp4" 1 _ _ _ _)));
    [done|by eexists|reflexivity|reflexivity].
Defined.


(** The directory itself, an entry reached through [./] and an upload in
    [tus-uploads] are found by the existence test of the process-request,
    although none of them is an entry of the uploads directory under the
    name given; a plain name that is no entry is not. *)
Example present_samples :
  let E := sample_env true (inr (1920, 1080)) (fun _ => Done 1) in
  let w := sample_world [] in
  (fun name => (uploadsDir w !! name, uploads.present E w name))
    <$> ["."; "./clip.mp4"; "tus-uploads/a"; "clip.mp4/"; "x/../clip.mp4";
         "no-such.mp4"; "tus-uploads/b"; "./no-such.mp4"]
  = [(None, true); (None, true); (None, true); (None, false); (None, true);
     (None, false); (None, false); (None, false)].
Proof. vm_compute. reflexivity. Qed.



(** * Further properties of the handlers *)

(** ** The registry and the heartbeat *)

Lemma run_on_close id E w :
  on_close id E w = (Returned tt, set_clients (ClientMap.delete id) w).
Proof. reflexivity. Qed.

Lemma ClientMap_delete_app id m1 m2 :
  ClientMap.delete id (m1 ++ m2)%list
  = (ClientMap.delete id m1 ++ ClientMap.delete id m2)%list.
Proof. apply List.filter_app. Qed.

Lemma ClientMap_delete_absent id m :
  id ∉ ClientMap.keys m → ClientMap.delete id m = m.
Proof.
  induction m as [|x m IH]; intros Hid; [done|].
  apply not_elem_of_cons in Hid as [Hx Hm]. cbn.
  destruct (String.eqb_spec (client_id x) id) as [?|_]; [done|]. cbn.
  f_equal. by apply IH.
Qed.

Lemma ClientMap_set_absent c m :
  client_id c ∉ ClientMap.keys m → ClientMap.set c m = (m ++ [c])%list.
Proof.
  induction m as [|x m IH]; intros Hid; [done|].
  apply not_elem_of_cons in Hid as [Hx Hm]. cbn.
  destruct (String.eqb_spec (client_id x) (client_id c)) as [?|_]; [done|].
  f_equal. by apply IH.
Qed.

Lemma ClientMap_set_here c x pre post :
  client_id x = client_id c → client_id c ∉ ClientMap.keys pre →
  ClientMap.set c (pre ++ x :: post)%list = (pre ++ c :: post)%list.
Proof.
  intros Hx. induction pre as [|y pre IH]; intros Hid; cbn.
  - by rewrite Hx, String.eqb_refl.
  - apply not_elem_of_cons in Hid as [Hy Hpre].
    destruct (String.eqb_spec (client_id y) (client_id c)) as [?|_]; [done|].
    f_equal. by apply IH.
Qed.

Lemma ClientMap_get_here c pre post :
  client_id c ∉ ClientMap.keys pre →
  ClientMap.get (client_id c) (pre ++ c :: post)%list = Some c.
Proof.
  induction pre as [|y pre IH]; intros Hid; cbn.
  - by rewrite String.eqb_refl.
  - apply not_elem_of_cons in Hid as [Hy Hpre].
    destruct (String.eqb_spec (client_id y) (client_id c)) as [?|_]; [done|]. by apply IH.
Qed.

Lemma ClientMap_get_absent id m : id ∉ ClientMap.keys m → ClientMap.get id m = None.
Proof.
  induction m as [|x m IH]; intros Hid; [done|].
  apply not_elem_of_cons in Hid as [Hx Hm]. cbn.
  destruct (String.eqb_spec (client_id x) id) as [?|_]; [done|]. by apply IH.
Qed.

(** With unique keys, an entry splits the registry into what was inserted
    before it and what was inserted after. *)
Lemma ClientMap_split m c :
  NoDup (ClientMap.keys m) → c ∈ m →
  ∃ pre post, m = (pre ++ c :: post)%list ∧ (client_id c ∉ ClientMap.keys pre)
    ∧ (client_id c ∉ ClientMap.keys post).
Proof.
  intros Hnd (pre & post & ->)%list_elem_of_split. exists pre, post. split; [done|].
  unfold ClientMap.keys in *. rewrite fmap_app, fmap_cons in Hnd.
  apply NoDup_app in Hnd as (_ & Hdis & Hpost). apply NoDup_cons in Hpost as [Hc _].
  split; [|done]. intros Hin. apply (Hdis _ Hin). by left.
Qed.

Lemma ClientMap_get_elem m c :
  NoDup (ClientMap.keys m) → c ∈ m → ClientMap.get (client_id c) m = Some c.
Proof.
  intros Hnd Hc. destruct (ClientMap_split m c Hnd Hc) as (pre & post & -> & Hpre & _).
  by apply ClientMap_get_here.
Qed.

Lemma keys_dead_survivors m x :
  x ∈ ClientMap.keys (dead_survivors m) → x ∈ ClientMap.keys m.
Proof.
  unfold ClientMap.keys, dead_survivors. rewrite <- list_fmap_compose.
  intros (c & -> & Hc)%list_elem_of_fmap. apply elem_of_filter_bool in Hc as [Hc _].
  apply list_elem_of_fmap. by exists c.
Qed.

Lemma NoDup_keys_dead_survivors m :
  NoDup (ClientMap.keys m) → NoDup (ClientMap.keys (dead_survivors m)).
Proof.
  unfold ClientMap.keys, dead_survivors. rewrite <- list_fmap_compose.
  induction m as [|c m IH]; intros Hnd; [constructor|].
  apply NoDup_cons in Hnd as [Hc Hm]. cbn [List.filter]. destruct (isAlive c).
  - rewrite fmap_cons. apply NoDup_cons. split; [|by apply IH].
    intros (x & Hx & Hin)%list_elem_of_fmap. apply elem_of_filter_bool in Hin as [Hin _].
    apply Hc. cbn in Hx. rewrite Hx. apply list_elem_of_fmap. by exists x.
  - by apply IH.
Qed.

Lemma dead_survivors_twice m : dead_survivors (dead_survivors m) = [].
Proof.
  unfold dead_survivors. induction m as [|c m IH]; [done|].
  cbn [List.filter]. destruct (isAlive c); [|done]. by rewrite fmap_cons.
Qed.

(** The heartbeat's loop with [pre] already visited and [todo] to come. *)
Lemma heartbeat_loop todo : ∀ pre sent,
  NoDup (ClientMap.keys (pre ++ todo)) →
  foldl heartbeat_turn ((pre ++ todo)%list, sent) todo
  = ((pre ++ dead_survivors todo)%list, (sent ++ (control_of <$> todo))%list).
Proof.
  induction todo as [|c todo IH]; intros pre sent Hnd.
  - cbn. by rewrite !app_nil_r.
  - unfold ClientMap.keys in Hnd. rewrite fmap_app, fmap_cons in Hnd.
    apply NoDup_app in Hnd as (Hpre & Hdis & Htodo). apply NoDup_cons in Htodo as [Hc Htodo].
    assert (Hcpre : client_id c ∉ ClientMap.keys pre).
    { intros Hin. apply (Hdis _ Hin). by left. }
    cbn [foldl]. unfold heartbeat_turn at 2, control_of at 1, dead_survivors.
    cbn [List.filter fmap list_fmap].
    destruct (isAlive c) eqn:Ha; cbn [negb].
    + rewrite (ClientMap_set_here (with_isAlive false c) c) by done.
      rewrite (cons_middle _ pre todo), app_assoc.
      rewrite IH.
      * by rewrite <- !app_assoc.
      * unfold ClientMap.keys. rewrite !fmap_app. cbn.
        apply NoDup_app. split; [|split; [|done]].
        -- apply NoDup_app. split; [done|]. split; [|apply NoDup_singleton].
           intros x Hx ->%list_elem_of_singleton. done.
        -- intros x [Hx| ->%list_elem_of_singleton]%elem_of_app Hin.
           ++ apply (Hdis _ Hx). by right.
           ++ done.
    + rewrite ClientMap_delete_app. cbn [ClientMap.delete List.filter].
      rewrite String.eqb_refl. cbn [negb].
      fold (ClientMap.delete (client_id c) pre) (ClientMap.delete (client_id c) todo).
      rewrite !ClientMap_delete_absent by done.
      rewrite IH.
      * by rewrite <- !app_assoc.
      * unfold ClientMap.keys. rewrite fmap_app. apply NoDup_app. split; [done|].
        split; [|done]. intros x Hx Hin. apply (Hdis _ Hx). by right.
Qed.

Lemma heartbeat_closed m :
  NoDup (ClientMap.keys m) → heartbeat m = (dead_survivors m, control_of <$> m).
Proof. intros Hnd. exact (heartbeat_loop m [] [] Hnd). Qed.

Lemma run_pingInterval_tick E w :
  NoDup (ClientMap.keys (clients w)) →
  pingInterval_tick E w
  = (Returned (control_of <$> clients w),
     set_clients (fun _ => dead_survivors (clients w)) w).
Proof. intros Hnd. unfold pingInterval_tick. by rewrite heartbeat_closed. Qed.

(** X1. One heartbeat sorts the registry by the alive mark.  Every entry
    gets exactly one control, in insertion order: [terminate] when its mark
    was already down, [ping] otherwise.  The terminated entries leave the
    registry, the pinged ones stay where they were with the mark taken
    down, so after a heartbeat every registered connection owes a pong; the
    keys stay unique. *)
Theorem heartbeat_sorts_clients E w :
  NoDup (ClientMap.keys (clients w)) →
  ∃ w', pingInterval_tick E w = (Returned (control_of <$> clients w), w')
    ∧ clients w' = with_isAlive false <$> List.filter isAlive (clients w)
    ∧ NoDup (ClientMap.keys (clients w'))
    ∧ (∀ c, c ∈ clients w' → isAlive c = false)
    ∧ (∀ c, c ∈ clients w →
         ClientMap.get (client_id c) (clients w')
         = if isAlive c then Some (with_isAlive false c) else None).
Proof.
  intros Hnd. rewrite run_pingInterval_tick by done. eexists. split; [reflexivity|].
  cbn [clients set_clients]. split; [done|].
  split; [by apply NoDup_keys_dead_survivors|]. split.
  - by intros c (c0 & -> & _)%list_elem_of_fmap.
  - intros c Hc. destruct (ClientMap_split _ c Hnd Hc) as (pre & post & Hm & Hpre & Hpost).
    rewrite Hm. unfold dead_survivors. rewrite List.filter_app, fmap_app. cbn [List.filter].
    destruct (isAlive c) eqn:Ha.
    + rewrite fmap_cons.
      apply (ClientMap_get_here (with_isAlive false c)). cbn.
      intros Hin. by apply keys_dead_survivors in Hin.
    + apply ClientMap_get_absent. unfold ClientMap.keys. rewrite fmap_app.
      intros [Hin|Hin]%elem_of_app; by apply keys_dead_survivors in Hin.
Qed.

Lemma heartbeat_sorts_clients_witness :
  let E := sample_env true (inr (1920, 1080)) (fun _ => Done 1) in
  let w := registry_world [observer "u" 1; with_isAlive false (observer "v" 1)] in
  NoDup (ClientMap.keys (clients w))
  ∧ ∃ w', pingInterval_tick E w = (Returned [("u", ping); ("v", terminate)], w')
      ∧ clients w' = [with_isAlive false (observer "u" 1)].
Proof.
  intros E w.
  assert (Hnd : NoDup (ClientMap.keys (clients w))).
  { cbn. apply NoDup_cons. split; [|apply NoDup_singleton].
    by intros [=]%list_elem_of_singleton. }
  split; [exact Hnd|].
  destruct (heartbeat_sorts_clients E w Hnd) as (w' & Hrun & Hcs & _).
  exists w'. split; [exact Hrun|exact Hcs].
Defined.

(** X2. A connection that answers no ping is gone after two heartbeats: with
    no pong in between, the second heartbeat terminates every connection
    the first one had kept and leaves the registry empty. *)
Theorem silent_clients_evicted E E' w :
  NoDup (ClientMap.keys (clients w)) →
  ∃ w1 w2,
    pingInterval_tick E w = (Returned (control_of <$> clients w), w1)
    ∧ pingInterval_tick E' w1
      = (Returned ((fun c => (sock_id (client_ws c), terminate)) <$> clients w1), w2)
    ∧ clients w2 = [].
Proof.
  intros Hnd. set (w1 := set_clients (fun _ => dead_survivors (clients w)) w).
  assert (Hnd1 : NoDup (ClientMap.keys (clients w1))) by (by apply NoDup_keys_dead_survivors).
  exists w1, (set_clients (fun _ => dead_survivors (clients w1)) w1).
  split; [by apply run_pingInterval_tick|]. split.
  - rewrite run_pingInterval_tick by done. f_equal. f_equal.
    subst w1. cbn [clients set_clients]. unfold dead_survivors.
    rewrite <- !list_fmap_compose. apply list_fmap_ext. by intros ? c ?.
  - subst w1. cbn [clients set_clients]. apply dead_survivors_twice.
Qed.

Lemma silent_clients_evicted_witness :
  let E := sample_env true (inr (1920, 1080)) (fun _ => Done 1) in
  let w := registry_world [observer "u" 1; observer "v" 3] in
  NoDup (ClientMap.keys (clients w))
  ∧ ∃ w1 w2, (pingInterval_tick E w).2 = w1
      ∧ pingInterval_tick E w1 = (Returned [("u", terminate); ("v", terminate)], w2)
      ∧ clients w2 = [].
Proof.
  intros E w.
  assert (Hnd : NoDup (ClientMap.keys (clients w))).
  { cbn. apply NoDup_cons. split; [|apply NoDup_singleton].
    by intros [=]%list_elem_of_singleton. }
  split; [exact Hnd|].
  destruct (silent_clients_evicted E E w Hnd) as (w1 & w2 & H1 & H2 & H3).
  exists w1, w2. split; [by rewrite H1|]. split; [|exact H3].
  rewrite H2. apply (f_equal (fun x => clients x.2)) in H1. cbn in H1. by rewrite <- H1.
Defined.

Lemma run_on_pong_elem E w c :
  NoDup (ClientMap.keys (clients w)) → c ∈ clients w →
  ∃ pre post, clients w = (pre ++ c :: post)%list
    ∧ on_pong (client_id c) E w
      = (Returned tt,
         set_clients (fun _ => (pre ++ with_isAlive true c :: post)%list) w).
Proof.
  intros Hnd Hc. destruct (ClientMap_split _ c Hnd Hc) as (pre & post & Hm & Hpre & Hpost).
  exists pre, post. split; [done|]. unfold on_pong. run.
  rewrite ClientMap_get_elem by done. run. unfold set_clients. f_equal. f_equal.
  rewrite Hm. by apply ClientMap_set_here.
Qed.

(** X3. A pong saves the connection from the next heartbeat: whatever its
    mark was, once its pong has been handled the heartbeat pings it and
    keeps it in the registry (with the mark down again), and every entry of
    the registry still gets its one control. *)
Theorem pong_keeps_client E E' w c :
  NoDup (ClientMap.keys (clients w)) → c ∈ clients w →
  ∃ w1 controls w2,
    on_pong (client_id c) E w = (Returned tt, w1)
    ∧ pingInterval_tick E' w1 = (Returned controls, w2)
    ∧ (sock_id (client_ws c), ping) ∈ controls
    ∧ ClientMap.get (client_id c) (clients w2) = Some (with_isAlive false c)
    ∧ length controls = length (clients w).
Proof.
  intros Hnd Hc. destruct (run_on_pong_elem E w c Hnd Hc) as (pre & post & Hm & ->).
  assert (Hnd1 : NoDup (ClientMap.keys (pre ++ with_isAlive true c :: post))).
  { rewrite Hm in Hnd. unfold ClientMap.keys in *. rewrite fmap_app, fmap_cons in *.
    exact Hnd. }
  eexists _, _, _. split; [reflexivity|].
  rewrite run_pingInterval_tick by done. split; [reflexivity|].
  cbn [clients set_clients]. split; [|split].
  - rewrite fmap_app, fmap_cons. apply elem_of_app. right. by left.
  - destruct (ClientMap_split _ _ Hnd1 (proj2 (elem_of_app _ _ _)
               (or_intror (list_elem_of_here _ _)))) as (pre' & post' & Hm' & Hpre' & _).
    unfold dead_survivors. rewrite Hm', List.filter_app, fmap_app.
    cbn [List.filter isAlive with_isAlive]. rewrite fmap_cons.
    apply (ClientMap_get_here (with_isAlive false (with_isAlive true c))).
    intros Hin. by apply keys_dead_survivors in Hin.
  - rewrite length_fmap, Hm, !length_app. done.
Qed.

Lemma pong_keeps_client_witness :
  let E := sample_env true (inr (1920, 1080)) (fun _ => Done 1) in
  let w := registry_world [with_isAlive false (observer "u" 1);
                           with_isAlive false (observer "v" 1)] in
  NoDup (ClientMap.keys (clients w))
  ∧ with_isAlive false (observer "v" 1) ∈ clients w
  ∧ ∃ w1 controls w2,
      on_pong "v" E w = (Returned tt, w1)
      ∧ pingInterval_tick E w1 = (Returned controls, w2)
      ∧ ClientMap.get "v" (clients w2) = Some (with_isAlive false (observer "v" 1)).
Proof.
  intros E w.
  assert (Hnd : NoDup (ClientMap.keys (clients w))).
  { cbn. apply NoDup_cons. split; [|apply NoDup_singleton].
    by intros [=]%list_elem_of_singleton. }
  assert (Hin : with_isAlive false (observer "v" 1) ∈ clients w).
  { cbn. right. left. }
  split; [exact Hnd|]. split; [exact Hin|].
  destruct (pong_keeps_client E E w _ Hnd Hin) as (w1 & cs & w2 & H1 & H2 & _ & H3 & _).
  exists w1, cs, w2. split; [exact H1|]. split; [exact H2|exact H3].
Defined.

(** X4. An upgrade request for [/ws] registers the connection, alive, under
    a fresh identity, after the entries that are already there; the close
    handler of that connection takes exactly this entry away again, and an
    upgrade request for any other URL registers nothing. *)
Theorem upgrade_then_close E E' w ws :
  NoDup (ClientMap.keys (clients w)) →
  uuid E (uuids w) ∉ ClientMap.keys (clients w) →
  ∃ w1, on_upgrade "/ws" ws E w = (Returned tt, w1)
    ∧ clients w1
      = (clients w
         ++ [{| client_id := uuid E (uuids w); client_ws := ws; isAlive := true |}])%list
    ∧ NoDup (ClientMap.keys (clients w1))
    ∧ clients (on_close (uuid E (uuids w)) E' w1).2 = clients w
    ∧ ∀ url, url ≠ "/ws" → on_upgrade url ws E w = (Returned tt, w).
Proof.
  intros Hnd Hfresh. unfold on_upgrade at 1. cbn [String.eqb Ascii.eqb Bool.eqb]. run.
  eexists. split; [reflexivity|]. cbn [clients set_clients bump_ticks bump_uuids].
  rewrite ClientMap_set_absent by done. split; [done|]. split; [|split].
  - unfold ClientMap.keys. rewrite fmap_app. apply NoDup_app. split; [done|].
    split; [|apply NoDup_singleton]. by intros x Hx ->%list_elem_of_singleton.
  - rewrite run_on_close. cbn [clients set_clients snd].
    cbn [clients set_clients bump_ticks bump_uuids]. rewrite ClientMap_set_absent by done.
    rewrite ClientMap_delete_app, ClientMap_delete_absent by done.
    cbn. rewrite String.eqb_refl. cbn. by rewrite app_nil_r.
  - intros url Hurl. unfold on_upgrade.
    destruct (String.eqb_spec url "/ws") as [?|_]; [done|]. by run.
Qed.

Lemma upgrade_then_close_witness :
  let E := sample_env true (inr (1920, 1080)) (fun _ => Done 1) in
  let w := registry_world [observer "u" 1] in
  let ws := {| sock_id := "s"; readyState := 1 |} in
  NoDup (ClientMap.keys (clients w))
  ∧ (uuid E (uuids w) ∉ ClientMap.keys (clients w))
  ∧ ∃ w1, on_upgrade "/ws" ws E w = (Returned tt, w1)
      ∧ clients w1 = [observer "u" 1;
                      {| client_id := "id0"; client_ws := ws; isAlive := true |}]
      ∧ clients (on_close "id0" E w1).2 = [observer "u" 1].
Proof.
  intros E w ws.
  assert (Hnd : NoDup (ClientMap.keys (clients w))) by (cbn; apply NoDup_singleton).
  assert (Hfresh : uuid E (uuids w) ∉ ClientMap.keys (clients w)).
  { cbn. by intros [=]%list_elem_of_singleton. }
  split; [exact Hnd|]. split; [exact Hfresh|].
  destruct (upgrade_then_close E E w ws Hnd Hfresh) as (w1 & H1 & H2 & _ & H3 & _).
  exists w1. split; [exact H1|]. split; [exact H2|exact H3].
Defined.

(** ** What the scanner leaves alone *)

#[global] Instance flags_only_preorder : PreOrder flags_only.
Proof.
  split.
  - intros w. by repeat split.
  - intros w1 w2 w3 (Ht1 & Hu1 & Hp1 & Hh1) (Ht2 & Hu2 & Hp2 & Hh2).
    repeat split; try congruence; [|eauto].
    intros k Hk. by rewrite Ht2, Ht1.
Qed.

(** Closes a leaf of a [flags_only] goal. *)
Ltac close_flags_only :=
  unfold flags_only; cbn;
  repeat match goal with |- _ ∧ _ => split end;
  try done;
  let k := fresh "k" in let Hk := fresh "Hk" in
  intros k Hk;
  first
    [ done
    | rewrite lookup_delete_ne; [done|]; intros ?; subst;
      first [congruence | rewrite is_flag_flag_of in Hk; congruence]
    | rewrite lookup_insert_ne; [done|]; intros ?; subst;
      first [congruence | rewrite is_flag_flag_of in Hk; congruence]
    | apply lookup_insert_is_Some'; by right ].

Lemma steps_prune_loop flags ids :
  (∀ q, q ∈ flags → is_flag q = true) → steps flags_only (for_of flags prune_flag ids).
Proof.
  intros Hflags. apply steps_for_of; [apply _|]. intros q ids' Hq. apply Hflags in Hq.
  unfold prune_flag, unlink_quietly. steps_struct; steps_prim; close_flags_only.
Qed.

Lemma steps_prune_flags : steps flags_only prune_flags.
Proof.
  intros E w. rewrite run_prune_flags. apply steps_prune_loop.
  by intros q [_ Hq]%elem_of_filter_bool.
Qed.

Lemma steps_scan_file_flags file ids : steps flags_only (scan_file file ids).
Proof.
  unfold scan_file, scan_attempt, unlink_quietly, processVideo, broadcast_clients.
  steps_struct; steps_prim; close_flags_only.
Qed.

Lemma steps_scan_uploads_flags ids : steps flags_only (scan_uploads ids).
Proof.
  unfold scan_uploads. steps_struct.
  apply steps_for_of; [apply _|]. intros file ids' _. apply steps_scan_file_flags.
Qed.

(** X5. Whatever a run of the scanner finds and however it ends, the only
    entries of the upload directory it creates, rewrites or removes are
    flags, names ending in [.processed]: every upload and every side-car is
    after the run what it was before.  The run leaves the uploads directory
    and the catalogue untouched and removes nothing from the HLS
    directory. *)
Theorem scanner_touches_only_flags : steps flags_only checkForCompletedUploads.
Proof.
  unfold checkForCompletedUploads. apply steps_try_catch; [apply _| |].
  - apply steps_bind; [apply _|apply steps_prune_flags|].
    intros ids. apply steps_scan_uploads_flags.
  - intros e. apply steps_ret. apply _.
Qed.

(** The second pass starts nothing on a name it does not pick. *)
Lemma scan_uploads_not_picked file ids E w :
  file ∉ uploadFiles_of (listing w) ids →
  started_on file (scan_uploads ids E w).2 = started_on file w.
Proof.
  intros Hout. unfold scan_uploads, tus.readdir. run. fold (listing w).
  destruct (0 <? length (listing w))%nat; [|run; reflexivity].
  destruct (0 <? length (uploadFiles_of (listing w) ids))%nat; [|run; reflexivity].
  match goal with
  | |- context [for_of ?l scan_file ids] => set (loop := for_of l scan_file ids)
  end.
  assert (Hs : steps (same (started_on file)) loop).
  { apply steps_for_of; [apply _|]. intros g s Hg. apply steps_scan_file_other.
    by intros ->. }
  specialize (Hs E w). unfold same in Hs.
  rewrite run_bind. destruct (loop E w) as [[s|e|] w2]; run; exact Hs.
Qed.

(** X6. The scanner never transcodes a side-car or a flag: on an entry whose
    name ends in [.json] or in [.processed] no run is ever started, whatever
    the entry holds. *)
Theorem scanner_skips_sidecars_and_flags E w name :
  JS.endsWith name ".json" = true ∨ is_flag name = true →
  started_on name (checkForCompletedUploads E w).2 = started_on name w.
Proof.
  intros Hname.
  destruct (prune_loop_frames E (List.filter is_flag (listing w)) ∅ w)
    as (ids & w1 & Hrun & _ & _ & _ & _ & Hst & _).
  unfold checkForCompletedUploads. rewrite run_try_catch, run_bind, run_prune_flags, Hrun.
  assert (Hs : started_on name (scan_uploads ids E w1).2 = started_on name w1).
  { apply scan_uploads_not_picked. unfold uploadFiles_of.
    intros [_ Hf]%elem_of_filter_bool.
    apply andb_true_iff in Hf as [Hf _]. apply andb_true_iff in Hf as [Hj Hp].
    apply negb_true_iff in Hj, Hp. destruct Hname; congruence. }
  unfold started_on in *. rewrite <- Hst.
  destruct (scan_uploads ids E w1) as [[[]|e|] w2]; cbn in *; run; exact Hs.
Qed.

Lemma scanner_skips_sidecars_and_flags_witness :
  let E := sample_env true (inr (1920, 1080)) (fun _ => Done 1) in
  let w := sample_world [] in
  JS.endsWith "a.json" ".json" = true
  ∧ is_Some (tusUploadDir w !! "a.json")
  ∧ started_on "a.json" (checkForCompletedUploads E w).2 = [].
Proof.
  intros E w. split; [reflexivity|]. split; [by eexists|].
  apply (scanner_skips_sidecars_and_flags E w "a.json"). left. reflexivity.
Defined.

(** X7. The second pass waits for an upload to be complete.  Unless the
    entry is a regular file whose side-car exists, parses and carries
    exactly the file's size, looking at it changes nothing: no identity is
    drawn, no flag is written, no run is started, and the skip set is
    handed on as it was. *)
Theorem scan_file_waits_for_upload E w file ids nd :
  tusUploadDir w !! file = Some nd →
  (∀ size b jsz, nd = File size b →
     tusUploadDir w !! (file +:+ ".json") ≠ Some (File jsz (UploadInfo (Some size)))) →
  scan_file file ids E w = (Returned ids, w).
Proof.
  intros Hfile Hnot. unfold scan_file, tus.stat. run. rewrite Hfile. run.
  destruct nd as [|size b]; [by run|].
  specialize (Hnot size b). unfold exists_, tus.readFile. run. rewrite run_access_json.
  destruct (tusUploadDir w !! (file +:+ ".json")) as [[|jsz [ms|[sz|]|]]|] eqn:Hj;
    run; rewrite ?Hj; run; cbn [JSON_parse]; run; try reflexivity.
  all: rewrite bool_decide_eq_false_2; [by run|];
    first [done | intros [= ->]; by apply (Hnot jsz)].
Qed.

Lemma scan_file_waits_for_upload_witness :
  let E := sample_env true (inr (1920, 1080)) (fun _ => Done 1) in
  tusUploadDir half_uploaded !! "b" = Some (File 5 Opaque)
  ∧ tusUploadDir half_uploaded !! "b.json" = Some (File 40 (UploadInfo (Some 10)))
  ∧ scan_file "b" ∅ E half_uploaded = (Returned ∅, half_uploaded).
Proof.
  intros E. split; [reflexivity|]. split; [reflexivity|].
  apply (scan_file_waits_for_upload E half_uploaded "b" ∅ (File 5 Opaque)); [reflexivity|].
  intros size b jsz [= <- <-]. change (tusUploadDir half_uploaded !! ("b" +:+ ".json"))
    with (Some (File 40 (UploadInfo (Some 10)))). by intros [=].
Defined.

(** ** The scanner on a runtime without a global [WebSocket] *)

#[global] Instance quiet_preorder : PreOrder quiet.
Proof.
  split.
  - intros w. by repeat split.
  - intros w1 w2 w3 (?&?&?&?) (?&?&?&?). repeat split; congruence.
Qed.

#[global] Instance idle_preorder : PreOrder idle.
Proof.
  split.
  - intros w. by repeat split.
  - intros w1 w2 w3 [? ?] [? ?]. split; [congruence|by etransitivity].
Qed.

Lemma broadcast_clients_throws f E w :
  global_WebSocket E = false → clients w ≠ [] →
  broadcast_clients f E w = (Thrown (ReferenceError "WebSocket"), w).
Proof.
  intros HE Hcs. rewrite broadcast_clients_unbound by done.
  by destruct (clients w).
Qed.

(** The attempt throws at its first broadcast, before the encoder is
    called; its [catch] takes the flag back and throws again. *)
Lemma scan_attempt_unbound file vid ids E w :
  global_WebSocket E = false → clients w ≠ [] →
  scan_attempt file vid ids E w
  = (Thrown (ReferenceError "WebSocket"), remove_flag (flag_of file) w).
Proof.
  intros HE Hcs. unfold scan_attempt. run.
  rewrite broadcast_clients_throws by done. run.
  rewrite run_unlink_quietly. run.
  rewrite broadcast_clients_throws; [done|done|].
  unfold remove_flag. by destruct (tusUploadDir w !! flag_of file) as [[|??]|].
Qed.

Lemma scan_file_unbound file ids E w :
  global_WebSocket E = false → clients w ≠ [] →
  idle w (scan_file file ids E w).2.
Proof.
  intros HE Hcs. unfold scan_file, tus.stat. run.
  destruct (tusUploadDir w !! file) as [[|size b]|] eqn:Hfile; run; try reflexivity.
  unfold exists_ at 1, tus.readFile. run. rewrite run_access_json.
  destruct (tusUploadDir w !! (file +:+ ".json")) as [[|jsz [ms|[sz|]|]]|] eqn:Hj;
    run; rewrite ?Hj; run; cbn [JSON_parse]; run; try reflexivity.
  all: case_bool_decide; run; try reflexivity.
  unfold exists_. run. rewrite run_access_flag.
  destruct (tusUploadDir w !! flag_of file) as [n|] eqn:Hflag; run; cbn [negb]; run;
    [reflexivity|].
  unfold tus.writeFile. cbn [tusUploadDir bump_ticks bump_uuids]. rewrite Hflag. run.
  rewrite scan_attempt_unbound by done. run.
  unfold remove_flag. cbn [tusUploadDir push_trace set_tus bump_ticks bump_uuids].
  rewrite lookup_insert_eq. unfold idle, quiet. cbn. rewrite delete_insert_eq.
  rewrite delete_id by done. unfold started. cbn. rewrite !omap_app. cbn.
  by rewrite !app_nil_r.
Qed.

Lemma scan_loop_unbound E files : ∀ ids w,
  global_WebSocket E = false → clients w ≠ [] →
  idle w (for_of files scan_file ids E w).2.
Proof.
  induction files as [|file files IH]; intros ids w HE Hcs; [by run|].
  rewrite run_for_of_cons, run_bind.
  pose proof (scan_file_unbound file ids E w HE Hcs) as H1.
  destruct (scan_file file ids E w) as [[ids1|e|] w1]; cbn in H1; [|done..].
  etransitivity; [exact H1|]. apply IH; [done|].
  destruct H1 as (_ & -> & _). done.
Qed.

Lemma steps_prune_flags_quiet : steps quiet prune_flags.
Proof.
  unfold prune_flags. apply steps_bind; [apply _| |]; steps_intro.
  - steps_struct.
  - apply steps_for_of; [apply _|]. intros q ids _.
    unfold prune_flag, unlink_quietly. steps_struct; steps_prim;
      unfold quiet, started; cbn; rewrite ?omap_app; cbn; by rewrite ?app_nil_r.
Qed.

(** X8. On a runtime that does not bind [WebSocket], one connected observer
    is enough to stop the scanner from transcoding anything: every attempt
    throws at its first notification, before the encoder is called, and its
    flag is taken back.  A whole run starts no run, sends no frame, writes
    nothing under the HLS directory, and leaves the upload directory as
    the first pass left it. *)
Theorem scanner_unbound_starts_nothing E w :
  global_WebSocket E = false → clients w ≠ [] →
  started (checkForCompletedUploads E w).2 = started w
  ∧ outbox (checkForCompletedUploads E w).2 = outbox w
  ∧ hlsDir (checkForCompletedUploads E w).2 = hlsDir w
  ∧ tusUploadDir (checkForCompletedUploads E w).2 = tusUploadDir (prune_flags E w).2.
Proof.
  intros HE Hcs. pose proof (steps_prune_flags_quiet E w) as (Hc1 & Ho1 & Hh1 & Hs1).
  destruct (prune_loop_frames E (List.filter is_flag (listing w)) ∅ w)
    as (ids & w1 & Hrun & _).
  rewrite <- run_prune_flags in Hrun.
  unfold checkForCompletedUploads. rewrite run_try_catch, run_bind.
  rewrite Hrun in *. cbn [snd] in *.
  assert (Hidle : idle w1 (scan_uploads ids E w1).2).
  { unfold scan_uploads, tus.readdir. run.
    destruct (0 <? length _)%nat; [|by run].
    destruct (0 <? length _)%nat; [|by run].
    match goal with
    | |- context [for_of ?l scan_file ids] =>
        pose proof (scan_loop_unbound E l ids w1 HE) as Hl;
        set (loop := for_of l scan_file ids) in *
    end.
    rewrite run_bind. destruct (loop E w1) as [[s|e|] w2]; run; apply Hl; by rewrite Hc1. }
  destruct Hidle as (Ht & Hc & Ho & Hh & Hs).
  destruct (scan_uploads ids E w1) as [[[]|e|] w2]; cbn in *; run; cbn;
    repeat split; congruence.
Qed.

Lemma scanner_unbound_starts_nothing_witness :
  let E := sample_env false (inr (1920, 1080)) (fun _ => Done 1) in
  let w := sample_world [observer "o1" 1] in
  global_WebSocket E = false
  ∧ clients w ≠ []
  ∧ started (checkForCompletedUploads E w).2 = []
  ∧ outbox (checkForCompletedUploads E w).2 = [].
Proof.
  intros E w. split; [reflexivity|]. split; [done|].
  destruct (scanner_unbound_starts_nothing E w) as (H1 & H2 & _); [reflexivity|done|].
  split; [exact H1|exact H2].
Defined.

(** ** The push path: a failed probe, and the status query *)

(** X12. When the probe of an upload fails, the handler writes no file
    under the HLS directory, starts nothing and leaves the upload where it
    is; it broadcasts one error event, with the identity it drew and the
    probe's message, to every open socket, and returns.  (The statement is
    about broadcasts that get past [WebSocket.OPEN].) *)
Theorem push_probe_failure E w name err :
  name ≠ "" → ffprobe E (InTus name) = inl err →
  can_broadcast E (wss_clients w) →
  ∃ w', on_upload_finish {| file_path := Some name |} E w = (Returned tt, w')
    ∧ outbox w'
      = (outbox w
         ++ deliver (fun s => s) (videoError (uuid E (uuids w)) (message err))
              (wss_clients w))%list
    ∧ hlsDir w' = hlsDir w
    ∧ tusUploadDir w' = tusUploadDir w
    ∧ trace w' = trace w.
Proof.
  intros Hn Hp Hcb. unfold on_upload_finish. cbn [file_path].
  destruct name as [|c name]; [done|].
  run. rewrite Hp. run. rewrite broadcast_wss_pass by done.
  eexists. split; [reflexivity|]. by tidy.
Qed.

Lemma push_probe_failure_witness :
  let E := sample_env true (inl (Error "moov atom not found")) (fun _ => Done 1) in
  let w := sample_world [observer "o1" 1] in
  "a" ≠ ""
  ∧ ffprobe E (InTus "a") = inl (Error "moov atom not found")
  ∧ ∃ w', on_upload_finish {| file_path := Some "a" |} E w = (Returned tt, w')
      ∧ outbox w' = [("o1", videoError "id0" "moov atom not found")]
      ∧ trace w' = [].
Proof.
  intros E w. split; [done|]. split; [reflexivity|].
  destruct (push_probe_failure E w "a" (Error "moov atom not found"))
    as (w' & H1 & H2 & _ & _ & H3); [done|reflexivity|by left|].
  exists w'. split; [exact H1|]. split; [exact H2|exact H3].
Defined.

(** X15. The status query answers "processed" as soon as the probe of an
    upload has succeeded: the master playlist the handler writes before the
    first encode is the file the query looks for, and nothing the handler
    does afterwards removes or replaces it.  So the answer is "processed",
    with the package URL, while the rungs are still being encoded and also
    after one of them has failed. *)
Theorem status_processed_once_probed E E' w name width height :
  name ≠ "" → ffprobe E (InTus name) = inr (width, height) →
  ∃ r w', on_upload_finish {| file_path := Some name |} E w = (r, w')
    ∧ hlsDir w' !! (uuid E (uuids w), "playlist.m3u8")
      = Some (MasterPlaylist (masterPlaylist qualities width height))
    ∧ get_video (uuid E (uuids w)) E' w'
      = (Returned (ok (status_body (uuid E (uuids w)) "processed"
                         (Some (hlsUrl_of (uuid E (uuids w)))))), w').
Proof.
  intros Hn Hp. rewrite (on_upload_finish_probed E w name width height) by done.
  match goal with
  | |- context [try_catch ?m ?h E ?w0] =>
      pose proof (steps_ladder_master (InTus name) (uuid E (uuids w)) E w0) as Hm;
      destruct (try_catch m h E w0) as [r w']
  end.
  unfold same in Hm. cbn [snd hlsDir push_trace set_hls] in Hm.
  rewrite lookup_insert_eq in Hm.
  exists r, w'. split; [done|]. split; [done|].
  unfold get_video, exists_, hls.access. run. rewrite Hm. by run.
Qed.

Lemma status_processed_once_probed_witness :
  let E := sample_env true (inr (1920, 1080)) (fun _ => Failed 0 "boom") in
  let w := sample_world [] in
  "a" ≠ ""
  ∧ ffprobe E (InTus "a") = inr (1920, 1080)
  ∧ ∃ r w', on_upload_finish {| file_path := Some "a" |} E w = (r, w')
      ∧ get_video "id0" E w'
        = (Returned (ok (status_body "id0" "processed" (Some "/hls/id0/playlist.m3u8"))),
           w').
Proof.
  intros E w. split; [done|]. split; [reflexivity|].
  destruct (status_processed_once_probed E E w "a" 1920 1080)
    as (r & w' & H1 & _ & H2); [done|reflexivity|].
  exists r, w'. split; [exact H1|exact H2].
Defined.

(** ** The local-video requests *)

Lemma ffmpeg_await_pending seg j E w :
  ffmpeg E j = Pending → ffmpeg_await seg j E w = (Parked, w).
Proof. intros Hj. unfold ffmpeg_await. run. by rewrite Hj. Qed.

(** X16. A process-request whose encode errors is answered 500 with the
    encoder's message.  Nothing is put in the catalogue and nothing is
    broadcast, the file stays in the uploads directory, and one run has
    been started: the next request for the same name starts over. *)
Theorem post_process_encode_failure E w filename n msg :
  filename ≠ "" → is_Some (uploadsDir w !! filename) →
  processedLocalVideos w !! filename = None →
  ffmpeg E (single_job (InUploads filename) (uuid E (uuids w))) = Failed n msg →
  ∃ w', post_process (Some filename) E w
        = (Returned {| status := 500; json := error_body msg |}, w')
    ∧ processedLocalVideos w' = processedLocalVideos w
    ∧ uploadsDir w' = uploadsDir w
    ∧ outbox w' = outbox w
    ∧ started w'
      = (started w ++ [single_job (InUploads filename) (uuid E (uuids w))])%list.
Proof.
  intros Hn [nd Hfile] Hv Hj.
  unfold post_process. destruct filename as [|c s]; [done|].
  run. unfold exists_. run. rewrite (run_access_entry _ _ E w Hfile). run. cbn [negb]. run.
  rewrite Hv. run. unfold processLocalVideo, processVideo. run.
  match goal with
  | |- context [ffmpeg_await ?seg ?j E ?w0] =>
      destruct (ffmpeg_await_failed seg j n msg E w0 Hj) as (w1 & Hh & ->)
  end.
  destruct Hh as (_ & Hu & _ & _ & Hp & Ho & _ & _ & Hs & _). tidy. run.
  eexists. split; [reflexivity|]. tidy. rewrite Hu, Hp, Ho, Hs.
  by rewrite !app_nil_r.
Qed.

Lemma post_process_encode_failure_witness :
  let E := sample_env true (inr (1920, 1080)) (fun _ => Failed 1 "boom") in
  let w := sample_world [observer "o1" 1] in
  "clip.mp4" ≠ ""
  ∧ is_Some (uploadsDir w !! "clip.mp4")
  ∧ ∃ w', post_process (Some "clip.mp4") E w
          = (Returned {| status := 500; json := error_body "boom" |}, w')
      ∧ processedLocalVideos w' = ∅
      ∧ outbox w' = [].
Proof.
  intros E w. split; [done|]. split; [by eexists|].
  destruct (post_process_encode_failure E w "clip.mp4" 1 "boom")
    as (w' & H1 & H2 & _ & H3 & _); [done|by eexists|reflexivity|reflexivity|].
  exists w'. split; [exact H1|]. split; [exact H2|exact H3].
Defined.

(** X17. A process-request whose encode ends is answered 200 with the
    video's record: the identity drawn for it, the filename, the package
    URL and the time of completion.  The answer and the frame that goes to
    every open observer carry the record as [processLocalVideo] returned
    it; the copy kept in the catalogue is the one marked as processed.  The
    playlist the URL points at is on disk.  (The statement is about
    broadcasts that get past [WebSocket.OPEN].) *)
Theorem post_process_answers E w filename n :
  filename ≠ "" → is_Some (uploadsDir w !! filename) →
  processedLocalVideos w !! filename = None →
  ffmpeg E (single_job (InUploads filename) (uuid E (uuids w))) = Done n →
  can_broadcast E (clients w) →
  ∃ w' info,
    info = {| vi_id := uuid E (uuids w); vi_filename := filename;
              vi_hlsUrl := hlsUrl_of (uuid E (uuids w));
              vi_timestamp := clock E (ticks w); vi_processed := false |}
    ∧ post_process (Some filename) E w = (Returned (ok (video_body info)), w')
    ∧ processedLocalVideos w' !! filename = Some (mark_processed info)
    ∧ outbox w'
      = (outbox w ++ deliver client_ws (localVideoProcessed info) (clients w))%list
    ∧ is_Some (hlsDir w' !! (uuid E (uuids w), "playlist.m3u8")).
Proof.
  intros Hn [nd Hfile] Hv Hj Hcb.
  unfold post_process. destruct filename as [|c s]; [done|].
  run. unfold exists_. run. rewrite (run_access_entry _ _ E w Hfile). run. cbn [negb]. run.
  rewrite Hv. run. unfold processLocalVideo, processVideo. run.
  match goal with
  | |- context [ffmpeg_await ?seg ?j E ?w0] =>
      destruct (ffmpeg_await_done seg j n E w0 Hj) as (w1 & Hh & ->)
  end.
  destruct Hh as (_ & Hu & Hc & _ & Hp & Ho & _ & Hti & Hs & _). tidy. run.
  rewrite broadcast_clients_pass by (tidy; by rewrite Hc). run.
  tidy. rewrite ?Hti. eexists _, _. split; [reflexivity|]. split; [reflexivity|]. tidy.
  rewrite lookup_insert_eq, Ho, Hc. split; [done|]. split; [done|].
  cbn [job_vid job_output single_job]. rewrite lookup_insert_eq. by eexists.
Qed.

Lemma post_process_answers_witness :
  let E := sample_env true (inr (1920, 1080)) (fun _ => Done 1) in
  let w := sample_world [observer "o1" 1; observer "o2" 3] in
  let info := {| vi_id := "id0"; vi_filename := "clip.mp4";
                 vi_hlsUrl := "/hls/id0/playlist.m3u8"; vi_timestamp := 0;
                 vi_processed := false |} in
  "clip.mp4" ≠ ""
  ∧ is_Some (uploadsDir w !! "clip.mp4")
  ∧ ∃ w', post_process (Some "clip.mp4") E w = (Returned (ok (video_body info)), w')
      ∧ outbox w' = [("o1", localVideoProcessed info)].
Proof.
  intros E w info. split; [done|]. split; [by eexists|].
  destruct (post_process_answers E w "clip.mp4" 1)
    as (w' & info' & -> & H1 & _ & H2 & _);
    [done|by eexists|reflexivity|reflexivity|by left|].
  exists w'. split; [exact H1|exact H2].
Defined.

(** X18. On a runtime that does not bind [WebSocket], with an observer
    connected, a process-request whose encode ends is answered 500,
    "WebSocket is not defined", and no frame is sent; but the video has been
    transcoded and is in the catalogue, so the same request made again is
    answered 200 from the catalogue without another run. *)
Theorem post_process_unbound E E' w filename n :
  filename ≠ "" → is_Some (uploadsDir w !! filename) →
  processedLocalVideos w !! filename = None →
  ffmpeg E (single_job (InUploads filename) (uuid E (uuids w))) = Done n →
  global_WebSocket E = false → clients w ≠ [] →
  ∃ w' info,
    info = {| vi_id := uuid E (uuids w); vi_filename := filename;
              vi_hlsUrl := hlsUrl_of (uuid E (uuids w));
              vi_timestamp := clock E (ticks w); vi_processed := true |}
    ∧ post_process (Some filename) E w
      = (Returned {| status := 500; json := error_body "WebSocket is not defined" |}, w')
    ∧ outbox w' = outbox w
    ∧ processedLocalVideos w' !! filename = Some info
    ∧ post_process (Some filename) E' w' = (Returned (ok (video_body info)), w').
Proof.
  intros Hn [nd Hfile] Hv Hj HE Hcs.
  assert (Hrun : ∃ w', post_process (Some filename) E w
      = (Returned {| status := 500; json := error_body "WebSocket is not defined" |}, w')
      ∧ outbox w' = outbox w ∧ uploadsDir w' = uploadsDir w
      ∧ processedLocalVideos w' !! filename
        = Some {| vi_id := uuid E (uuids w); vi_filename := filename;
                  vi_hlsUrl := hlsUrl_of (uuid E (uuids w));
                  vi_timestamp := clock E (ticks w); vi_processed := true |}).
  { unfold post_process. destruct filename as [|c s]; [done|].
    run. unfold exists_. run. rewrite (run_access_entry _ _ E w Hfile). run. cbn [negb]. run.
    rewrite Hv. run. unfold processLocalVideo, processVideo. run.
    match goal with
    | |- context [ffmpeg_await ?seg ?j E ?w0] =>
        destruct (ffmpeg_await_done seg j n E w0 Hj) as (w1 & Hh & ->)
    end.
    destruct Hh as (_ & Hu & Hc & _ & Hp & Ho & _ & Hti & Hs & _). tidy. run.
    rewrite broadcast_clients_throws by (tidy; by rewrite ?Hc). run.
    eexists. split; [reflexivity|]. tidy. rewrite Hti, Ho, Hu.
    split; [done|]. split; [done|]. by rewrite lookup_insert_eq. }
  destruct Hrun as (w' & Hrun & Ho & Hu & Hc).
  eexists w', _. split; [reflexivity|]. split; [done|]. split; [done|]. split; [done|].
  apply post_process_cached; [done| |done]. rewrite Hu. by exists nd.
Qed.

Lemma post_process_unbound_witness :
  let E := sample_env false (inr (1920, 1080)) (fun _ => Done 1) in
  let w := sample_world [observer "o1" 1] in
  "clip.mp4" ≠ ""
  ∧ global_WebSocket E = false
  ∧ clients w ≠ []
  ∧ ∃ w', post_process (Some "clip.mp4") E w
          = (Returned {| status := 500; json := error_body "WebSocket is not defined" |},
             w')
      ∧ is_Some (processedLocalVideos w' !! "clip.mp4")
      ∧ status <$> (match (post_process (Some "clip.mp4") E w').1 with
                    | Returned r => Some r
                    | _ => None
                    end) = Some 200.
Proof.
  intros E w. split; [done|]. split; [reflexivity|]. split; [done|].
  destruct (post_process_unbound E E w "clip.mp4" 1)
    as (w' & info & _ & H1 & _ & H2 & H3);
    [done|by eexists|reflexivity|reflexivity|reflexivity|done|].
  exists w'. split; [exact H1|]. split; [by rewrite H2|]. by rewrite H3.
Defined.

(** Whatever a process-request does to the catalogue is one new entry under
    the requested name, marked as processed. *)
Lemma post_process_catalogue filename E w :
  processedLocalVideos (post_process filename E w).2 = processedLocalVideos w
  ∨ ∃ name vid t,
      filename = Some name
      ∧ processedLocalVideos w !! name = None
      ∧ processedLocalVideos (post_process filename E w).2
        = <[name := {| vi_id := vid; vi_filename := name; vi_hlsUrl := hlsUrl_of vid;
                       vi_timestamp := t; vi_processed := true |}]>
            (processedLocalVideos w).
Proof.
  unfold post_process. destruct filename as [[|c s]|]; [by left| |by left].
  run. unfold exists_, uploads.access. run.
  destruct (uploads.present E w (String c s)); run; cbn [negb]; run; [|by left].
  destruct (processedLocalVideos w !! String c s) as [v|] eqn:Hv; run; [by left|].
  unfold processLocalVideo, processVideo. run.
  match goal with
  | |- context [ffmpeg_await ?seg ?j E ?w0] =>
      destruct (ffmpeg E j) as [n|n msg|] eqn:Hj;
      [ destruct (ffmpeg_await_done seg j n E w0 Hj) as (w1 & Hh & ->)
      | destruct (ffmpeg_await_failed seg j n msg E w0 Hj) as (w1 & Hh & ->)
      | rewrite (ffmpeg_await_pending seg j E w0 Hj) ]
  end.
  - destruct Hh as (_ & _ & Hc & _ & Hp & _). tidy. run.
    right. exists (String c s), (uuid E (uuids w)), (clock E (ticks w1)).
    split; [done|]. split; [done|].
    destruct (global_WebSocket E) eqn:HE.
    + rewrite broadcast_clients_pass by by left. run. cbn [snd]. tidy. by rewrite Hp.
    + rewrite broadcast_clients_unbound by done. tidy.
      destruct (clients w1); run; cbn [snd]; tidy; by rewrite Hp.
  - destruct Hh as (_ & _ & _ & _ & Hp & _). tidy. run. left. cbn [snd]. by tidy.
  - run. by left.
Qed.

Lemma steps_on_upload_finish_catalogue event :
  steps (same processedLocalVideos) (on_upload_finish event).
Proof.
  unfold on_upload_finish.
  steps_struct; try (apply steps_for_of; steps_intro; steps_struct);
    steps_prim; by unfold same.
Qed.

Lemma steps_scanner_catalogue : steps (same processedLocalVideos) checkForCompletedUploads.
Proof.
  unfold checkForCompletedUploads, prune_flags, scan_uploads.
  steps_struct;
    try (apply steps_for_of; steps_intro;
         unfold prune_flag, scan_file, scan_attempt, unlink_quietly, processVideo,
           broadcast_clients;
         steps_struct);
    steps_prim; by unfold same.
Qed.

(** X19. The catalogue stays well formed under every handler: each entry
    sits under its own filename, is marked as processed and carries the
    package URL of its own identity.  A process-request adds at most the
    entry for the name it was asked for: every other name is in the
    catalogue after it exactly as before, and no entry that was there is
    removed or changed.  The upload-finish handler, the scanner and the
    status query never write to the catalogue: it is after them what it was
    before. *)
Theorem catalogue_stays_well_formed E w :
  catalogue_wf w →
  (∀ filename,
     let w' := (post_process filename E w).2 in
     catalogue_wf w'
     ∧ (∀ name, filename ≠ Some name →
          processedLocalVideos w' !! name = processedLocalVideos w !! name)
     ∧ (∀ name v, processedLocalVideos w !! name = Some v →
          processedLocalVideos w' !! name = Some v))
  ∧ (∀ event,
       processedLocalVideos (on_upload_finish event E w).2 = processedLocalVideos w
       ∧ catalogue_wf (on_upload_finish event E w).2)
  ∧ (processedLocalVideos (checkForCompletedUploads E w).2 = processedLocalVideos w
     ∧ catalogue_wf (checkForCompletedUploads E w).2)
  ∧ (∀ videoId,
       processedLocalVideos (get_video videoId E w).2 = processedLocalVideos w
       ∧ catalogue_wf (get_video videoId E w).2).
Proof.
  intros Hwf.
  assert (Hsame : ∀ w', processedLocalVideos w' = processedLocalVideos w →
            processedLocalVideos w' = processedLocalVideos w ∧ catalogue_wf w').
  { intros w' Heq. split; [done|]. intros name v. rewrite Heq. apply Hwf. }
  split; [|split; [|split]].
  - intros filename w'. subst w'.
    destruct (post_process_catalogue filename E w)
      as [Heq|(f & vid & t & -> & Hnew & Hins)].
    { destruct (Hsame _ Heq) as [_ Hwf']. split; [exact Hwf'|]. rewrite Heq. by split. }
    unfold catalogue_wf. rewrite Hins. split; [|split].
    + intros name v. destruct (decide (f = name)) as [->|Hne].
      * rewrite lookup_insert_eq. by intros [= <-].
      * rewrite lookup_insert_ne by done. apply Hwf.
    + intros name Hne. rewrite lookup_insert_ne; [done|]. by intros ->.
    + intros name v Hv. rewrite lookup_insert_ne; [done|]. intros ->.
      rewrite Hnew in Hv. discriminate.
  - intros event. apply Hsame, (steps_on_upload_finish_catalogue event E w).
  - apply Hsame, (steps_scanner_catalogue E w).
  - intros videoId. apply Hsame.
    assert (steps (same processedLocalVideos) (get_video videoId)) as Hs.
    { unfold get_video. steps_struct; steps_prim; by unfold same. }
    exact (Hs E w).
Qed.

Lemma catalogue_stays_well_formed_witness :
  let E := sample_env true (inr (1920, 1080)) (fun _ => Done 1) in
  let w := sample_world [] in
  let w' := (post_process (Some "clip.mp4") E w).2 in
  catalogue_wf w
  ∧ catalogue_wf w'
  ∧ is_Some (processedLocalVideos w' !! "clip.mp4")
  ∧ processedLocalVideos w' !! "other.mp4" = processedLocalVideos w !! "other.mp4"
  ∧ processedLocalVideos (checkForCompletedUploads E w).2 = processedLocalVideos w.
Proof.
  intros E w w'.
  assert (Hwf : catalogue_wf w) by (by intros f v Hv).
  destruct (catalogue_stays_well_formed E w Hwf) as (Hpost & _ & [Hscan _] & _).
  destruct (Hpost (Some "clip.mp4")) as (H1 & H2 & _).
  split; [exact Hwf|]. split; [exact H1|]. split; [vm_compute; by eexists|].
  split; [by apply H2|exact Hscan].
Defined.

(** ** Local videos: what the listing shows *)

Example extname_samples :
  Path.extname <$> ["index.html"; "index.coffee.md"; "index."; "index"; ".index";
                    ".index.md"; ".."; "a/b.c/d"; "a.b/"; "..."; "..c"]
  = [".html"; ".md"; "."; ""; ""; ".md"; ""; ""; ".b"; "."; ".c"].
Proof. vm_compute. reflexivity. Qed.

Example toLowerCase_samples :
  toLowerCase <$> [".MP4"; ".Mkv"; ".m" +:+ kelvin +:+ "V"] = [".mp4"; ".mkv"; ".mkv"].
Proof. vm_compute. reflexivity. Qed.

Lemma turn_plain i c s :
  Ascii.eqb c "/" = false → Ascii.eqb c "." = false →
  Path.startDot s = -1 → Path.end_ s ≠ -1 →
  Path.turn i c s = (s, true).
Proof.
  intros Hs Hd Hsd He. unfold Path.turn. rewrite Hs, Hd.
  apply Z.eqb_neq in He. rewrite He. cbn zeta. by rewrite Hsd.
Qed.

Lemma turn_dot i s :
  Path.end_ s ≠ -1 → Path.startDot s = -1 →
  Path.turn i "." s
  = ({| Path.startDot := i; Path.startPart := Path.startPart s; Path.end_ := Path.end_ s;
        Path.matchedSlash := Path.matchedSlash s;
        Path.preDotState := Path.preDotState s |}, true).
Proof.
  intros He Hsd. unfold Path.turn.
  change (Ascii.eqb "." "/") with false. change (Ascii.eqb "." ".") with true.
  apply Z.eqb_neq in He. rewrite He. cbn zeta. rewrite Hsd. reflexivity.
Qed.

Lemma loop_plain l : ∀ rest i s,
  Forall (fun c => Ascii.eqb c "/" = false ∧ Ascii.eqb c "." = false) l →
  Path.startDot s = -1 → Path.end_ s ≠ -1 →
  Path.loop (l ++ rest) i s = Path.loop rest (i - Z.of_nat (length l)) s.
Proof.
  induction l as [|c l IH]; intros rest i s Hl Hsd He.
  - cbn. by rewrite Z.sub_0_r.
  - apply Forall_cons in Hl as [[Hs Hd] Hl].
    cbn [app Path.loop]. rewrite turn_plain by done.
    rewrite IH by done. f_equal. cbn [length]. lia.
Qed.

(** The scan of the extension proper: the end of the name is marked, no dot
    has been seen. *)
Lemma loop_extension l rest i :
  Forall (fun c => Ascii.eqb c "/" = false ∧ Ascii.eqb c "." = false) l →
  l ≠ [] → 0 ≤ i →
  Path.loop (l ++ rest) i Path.scan0
  = Path.loop rest (i - Z.of_nat (length l))
      {| Path.startDot := -1; Path.startPart := 0; Path.end_ := i + 1;
         Path.matchedSlash := false; Path.preDotState := 0 |}.
Proof.
  intros Hl Hne Hi. destruct l as [|c l]; [done|].
  apply Forall_cons in Hl as [[Hs Hd] Hl].
  cbn [app Path.loop]. unfold Path.turn at 1. rewrite Hs, Hd. cbn.
  rewrite loop_plain; [|done|done|cbn; lia]. f_equal. lia.
Qed.

(** Left of the last dot: the marks stay, and the state before the dot is
    no longer the initial one. *)
Lemma loop_stem l : ∀ i s,
  Forall (fun c => Ascii.eqb c "/" = false) l →
  Path.startDot s ≠ -1 → Path.end_ s ≠ -1 →
  Path.startDot (Path.loop l i s) = Path.startDot s
  ∧ Path.end_ (Path.loop l i s) = Path.end_ s
  ∧ Path.startPart (Path.loop l i s) = Path.startPart s
  ∧ (l ≠ [] ∨ Path.preDotState s ≠ 0 → Path.preDotState (Path.loop l i s) ≠ 0).
Proof.
  induction l as [|c l IH]; intros i s Hl Hsd He.
  - cbn. repeat split; try done. by intros [?|?].
  - apply Forall_cons in Hl as [Hs Hl]. cbn [Path.loop].
    unfold Path.turn. rewrite Hs.
    apply Z.eqb_neq in He as He', Hsd as Hsd'. rewrite He'. cbn zeta. rewrite Hsd'.
    cbn [negb].
    destruct (Ascii.eqb c "."); [destruct (Path.preDotState s =? 1) eqn:Hp|]; cbn [negb].
    + destruct (IH (i - 1) s Hl Hsd He) as (H1 & H2 & H3 & H4).
      repeat split; try done. intros _. apply H4. right. apply Z.eqb_eq in Hp. lia.
    + match goal with
      | |- context [Path.loop l (i - 1) ?s1] =>
          destruct (IH (i - 1) s1 Hl Hsd He) as (H1 & H2 & H3 & H4)
      end.
      repeat split; try done. intros _. apply H4. right. done.
    + match goal with
      | |- context [Path.loop l (i - 1) ?s1] =>
          destruct (IH (i - 1) s1 Hl Hsd He) as (H1 & H2 & H3 & H4)
      end.
      repeat split; try done. intros _. apply H4. right. done.
Qed.

Lemma list_ascii_of_string_app a b :
  list_ascii_of_string (a +:+ b) = (list_ascii_of_string a ++ list_ascii_of_string b)%list.
Proof.
  induction a as [|c a IH]; [done|].
  change (String c a +:+ b) with (String c (a +:+ b)). cbn. by rewrite IH.
Qed.

Lemma length_list_ascii_of_string s :
  length (list_ascii_of_string s) = String.length s.
Proof. induction s as [|c s IH]; [done|]. cbn. by rewrite IH. Qed.

Lemma substring_all s : substring 0 (String.length s) s = s.
Proof. induction s as [|c s IH]; [done|]. cbn. by rewrite IH. Qed.

Lemma substring_suffix a b :
  substring (String.length a) (String.length b) (a +:+ b) = b.
Proof. induction a as [|c a IH]; [apply substring_all|]. exact IH. Qed.

Lemma has_false c s :
  has c s = false → Forall (fun x => Ascii.eqb x c = false) (list_ascii_of_string s).
Proof.
  unfold has. induction (list_ascii_of_string s) as [|x l IH]; intros H; [constructor|].
  cbn in H. apply orb_false_iff in H as [Hx Hl]. constructor; [|by apply IH].
  by rewrite Ascii.eqb_sym.
Qed.

Lemma loop_name lb le :
  Forall (fun c => Ascii.eqb c "/" = false) lb → lb ≠ [] →
  Forall (fun c => Ascii.eqb c "/" = false ∧ Ascii.eqb c "." = false) le → le ≠ [] →
  ∃ s, Path.loop (rev (lb ++ "."%char :: le))
         (Z.of_nat (length (lb ++ "."%char :: le)) - 1) Path.scan0 = s
    ∧ Path.startDot s = Z.of_nat (length lb)
    ∧ Path.end_ s = Z.of_nat (length lb) + 1 + Z.of_nat (length le)
    ∧ Path.preDotState s ≠ 0.
Proof.
  intros Hlb Hnb Hle Hne. eexists. split; [reflexivity|].
  rewrite rev_app_distr. cbn [rev]. rewrite <- app_assoc. cbn [app].
  rewrite length_app. cbn [length].
  rewrite loop_extension; [|by apply Forall_rev| |lia].
  2:{ intros Hr. apply (f_equal (@rev ascii)) in Hr. rewrite rev_involutive in Hr. done. }
  rewrite length_rev. cbn [Path.loop]. rewrite turn_dot; [|cbn; lia|done].
  cbn [Path.end_ Path.startDot Path.startPart Path.matchedSlash Path.preDotState].
  match goal with
  | |- context [Path.loop (rev lb) ?i ?s1] =>
      destruct (loop_stem (rev lb) i s1) as (H1 & H2 & _ & H4);
        [by apply Forall_rev|cbn; lia|cbn; lia|]
  end.
  rewrite H1, H2. cbn. split; [lia|]. split; [lia|]. apply H4. left.
  intros Hr. apply (f_equal (@rev ascii)) in Hr. rewrite rev_involutive in Hr. done.
Qed.

Lemma list_ascii_nonempty s : s ≠ "" → list_ascii_of_string s ≠ [].
Proof. by destruct s. Qed.

(** The extension of [<base>.<e>], for a non-empty [base] and a non-empty
    [e] without a dot, is [.<e>]: dots in [base] do not matter. *)
Lemma extname_suffix base e :
  base ≠ "" → has "/" base = false →
  e ≠ "" → has "/" e = false → has "." e = false →
  Path.extname (base +:+ "." +:+ e) = "." +:+ e.
Proof.
  intros Hb Hbs He Hes Hed.
  destruct (loop_name (list_ascii_of_string base) (list_ascii_of_string e))
    as (s & Hs & Hsd & Hend & Hpre).
  - by apply has_false.
  - by apply list_ascii_nonempty.
  - apply has_false in Hes, Hed. rewrite Forall_forall in *. intros c Hc. split; eauto.
  - by apply list_ascii_nonempty.
  - unfold Path.extname. cbn zeta.
    change ("." +:+ e) with (String "." e). rewrite list_ascii_of_string_app.
    cbn [list_ascii_of_string]. rewrite Hs, Hsd, Hend.
    rewrite !length_list_ascii_of_string.
    rewrite (proj2 (Z.eqb_neq (Z.of_nat _) (-1))) by lia.
    rewrite (proj2 (Z.eqb_neq (_ + _) (-1))) by lia.
    rewrite (proj2 (Z.eqb_neq _ 0) Hpre).
    rewrite (proj2 (Z.eqb_neq (Z.of_nat (String.length base)) (_ - 1))).
    2:{ destruct e; [done|]. cbn [String.length]. lia. }
    rewrite andb_false_r. cbn [orb andb].
    rewrite Nat2Z.id.
    replace (Z.to_nat _) with (String.length (String "." e))
      by (cbn [String.length]; lia).
    apply substring_suffix.
Qed.

Lemma extname_none path :
  (let s := Path.loop (rev (list_ascii_of_string path))
              (Z.of_nat (length (list_ascii_of_string path)) - 1) Path.scan0 in
   Path.startDot s = -1 ∨ Path.preDotState s = 0) →
  Path.extname path = "".
Proof.
  cbn zeta. intros H. unfold Path.extname. cbn zeta.
  destruct H as [-> | ->]; [done|].
  change (0 =? 0) with true. by rewrite orb_true_r.
Qed.

(** A name with no dot after its first character has no extension. *)
Lemma extname_no_dot name :
  has "/" name = false → has "." (JS.skip 1 name) = false →
  Path.extname name = "".
Proof.
  intros Hs Hd. apply extname_none. cbn zeta.
  destruct name as [|c rest]; [by left|].
  cbn [JS.skip] in Hd. apply has_false in Hs, Hd.
  cbn [list_ascii_of_string] in *. apply Forall_cons in Hs as [Hc Hs].
  set (l := list_ascii_of_string rest) in *.
  assert (Hl : Forall (fun c => Ascii.eqb c "/" = false ∧ Ascii.eqb c "." = false) (rev l)).
  { apply Forall_rev. rewrite Forall_forall in *. intros x Hx. split; eauto. }
  cbn [rev length]. destruct (decide (l = [])) as [->|Hne].
  - cbn [rev app length Path.loop]. unfold Path.turn. rewrite Hc. cbn.
    destruct (Ascii.eqb c "."); cbn; [by right|by left].
  - rewrite loop_extension; [|done| |lia].
    2:{ intros Hr. apply (f_equal (@rev ascii)) in Hr. rewrite rev_involutive in Hr. done. }
    cbn [Path.loop]. destruct (Ascii.eqb c ".") eqn:Hcd.
    + apply Ascii.eqb_eq in Hcd as ->. rewrite turn_dot; [|cbn; lia|done]. by right.
    + rewrite turn_plain; [|done|done|done|cbn; lia]. by left.
Qed.

Lemma lower_ascii_fixed c x :
  (N_of_ascii c < 97)%N → lower_ascii x = c → x = c.
Proof.
  intros Hc. unfold lower_ascii. cbn zeta.
  destruct ((65 <=? N_of_ascii x) && (N_of_ascii x <=? 90))%N eqn:Hx; [|done].
  intros <-. apply andb_true_iff in Hx as [H1 H2].
  apply N.leb_le in H1, H2. rewrite N_ascii_embedding in Hc by lia. lia.
Qed.

Lemma lower_ascii_keeps c :
  (N_of_ascii c < 65)%N → lower_ascii c = c.
Proof.
  intros Hc. unfold lower_ascii. cbn zeta.
  destruct (65 <=? N_of_ascii c)%N eqn:H1; [|done]. apply N.leb_le in H1. lia.
Qed.

(** A character below ['A'] that occurs in [s] occurs in its lower-case
    form. *)
Lemma has_lower_from c s : ∀ k,
  (N_of_ascii c < 65)%N →
  has c (JS.skip k s) = true → has c (lower_from k s) = true.
Proof.
  induction s as [|x rest IH]; intros k Hc Hin.
  - by destruct k.
  - destruct k as [|k]; [|by apply IH].
    cbn [JS.skip] in Hin. cbn [lower_from].
    destruct (JS.startsWith kelvin (String x rest)) eqn:Hk.
    + unfold has. cbn [list_ascii_of_string existsb].
      fold (has c (lower_from 2 rest)). apply orb_true_iff. right. apply IH; [done|].
      unfold kelvin in Hk. cbn [JS.startsWith] in Hk.
      destruct (Ascii.eqb_spec "226" x) as [<-|]; [|done].
      destruct rest as [|x2 rest]; [done|].
      destruct (Ascii.eqb_spec "132" x2) as [<-|]; [|done].
      destruct rest as [|x3 rest]; [done|].
      destruct (Ascii.eqb_spec "170" x3) as [<-|]; [|done].
      cbn [JS.skip]. unfold has in Hin. cbn [list_ascii_of_string existsb] in Hin.
      repeat (apply orb_true_iff in Hin as [Hin|Hin];
              [apply Ascii.eqb_eq in Hin; subst c; cbn in Hc; lia|]).
      exact Hin.
    + unfold has in *. cbn [list_ascii_of_string existsb] in *.
      apply orb_true_iff in Hin as [Hin|Hin]; apply orb_true_iff.
      * left. apply Ascii.eqb_eq in Hin as <-. rewrite lower_ascii_keeps by done.
        apply Ascii.eqb_refl.
      * right. by apply (IH 0%nat).
Qed.

(** An extension that lower-cases to one of the eight is a dot followed by
    a non-empty run of characters that are neither dots nor separators. *)
Lemma video_extension_shape ext :
  toLowerCase ext ∈ videoExtensions →
  ∃ e, ext = "." +:+ e ∧ e ≠ "" ∧ has "/" e = false ∧ has "." e = false.
Proof.
  intros Hin. destruct ext as [|x e].
  { exfalso. unfold videoExtensions in Hin. cbn in Hin.
    repeat (apply elem_of_cons in Hin as [Hin|Hin]; [discriminate|]).
    by apply elem_of_nil in Hin. }
  unfold toLowerCase in Hin. cbn [lower_from] in Hin.
  destruct (JS.startsWith kelvin (String x e)) eqn:Hk.
  { exfalso. unfold videoExtensions in Hin.
    repeat (apply elem_of_cons in Hin as [Hin|Hin]; [discriminate|]).
    by apply elem_of_nil in Hin. }
  assert (Hx : x = "."%char ∧ (lower_from 0 e) ∈
             ["mp4"; "mov"; "avi"; "mkv"; "webm"; "flv"; "wmv"; "m4v"]).
  { unfold videoExtensions in Hin.
    repeat (apply elem_of_cons in Hin as [Hin|Hin];
            [injection Hin as Hx He; split;
             [by apply (lower_ascii_fixed "." x)|rewrite He; set_solver]|]).
    by apply elem_of_nil in Hin. }
  destruct Hx as [-> He]. exists e. split; [done|].
  assert (Hno : ∀ c, (N_of_ascii c < 65)%N → c = "."%char ∨ c = "/"%char → has c e = false).
  { intros c Hc Hcc. destruct (has c e) eqn:Hh; [|done].
    pose proof (has_lower_from c e 0 Hc Hh) as Hl. exfalso.
    repeat (apply elem_of_cons in He as [He|He];
            [rewrite He in Hl; destruct Hcc as [-> | ->]; discriminate|]).
    by apply elem_of_nil in He. }
  split; [|split].
  - intros ->. cbn in He.
    repeat (apply elem_of_cons in He as [He|He]; [discriminate|]).
    by apply elem_of_nil in He.
  - apply Hno; [cbn; lia|by right].
  - apply Hno; [cbn; lia|by left].
Qed.


Lemma is_video_suffix base ext :
  base ≠ "" → has "/" base = false → toLowerCase ext ∈ videoExtensions →
  is_video (base +:+ ext) = true.
Proof.
  intros Hb Hs Hext.
  destruct (video_extension_shape ext Hext) as (e & -> & He & Hes & Hed).
  unfold is_video. cbn zeta. rewrite extname_suffix by done.
  by apply bool_decide_eq_true_2.
Qed.

Lemma run_scanLocalVideos E w :
  scanLocalVideos E w
  = (Returned (List.filter is_video (map_to_list (uploadsDir w)).*1), w).
Proof. unfold scanLocalVideos, uploads_readdir. by run. Qed.

Lemma elem_of_uploads_listing w name :
  name ∈ (map_to_list (uploadsDir w)).*1 ↔ is_Some (uploadsDir w !! name).
Proof.
  rewrite list_elem_of_fmap. split.
  - intros ([k n] & -> & Hin). apply elem_of_map_to_list in Hin. by exists n.
  - intros [n Hn]. exists (name, n). split; [done|]. by apply elem_of_map_to_list.
Qed.

(** X20. [scanLocalVideos] lists every entry of the uploads directory whose
    name is a non-empty stem followed by one of the eight video extensions,
    in any mix of upper and lower case; dots inside the stem do not matter.
    It returns, and it lists nothing that is not in the directory. *)
Theorem scanLocalVideos_lists_videos E w base ext :
  base ≠ "" → has "/" base = false →
  toLowerCase ext ∈ videoExtensions →
  is_Some (uploadsDir w !! (base +:+ ext)) →
  ∃ files, scanLocalVideos E w = (Returned files, w)
    ∧ base +:+ ext ∈ files
    ∧ ∀ file, file ∈ files → is_Some (uploadsDir w !! file).
Proof.
  intros Hb Hs Hext Hfile. rewrite run_scanLocalVideos. eexists. split; [reflexivity|].
  split.
  - apply elem_of_filter_bool. split; [by apply elem_of_uploads_listing|].
    by apply is_video_suffix.
  - intros file [Hin _]%elem_of_filter_bool. by apply elem_of_uploads_listing.
Qed.

Lemma scanLocalVideos_lists_videos_witness :
  let E := sample_env true (inr (1920, 1080)) (fun _ => Done 1) in
  "Talk" ≠ ""
  ∧ toLowerCase ".MOV" ∈ videoExtensions
  ∧ is_Some (uploadsDir mixed_uploads !! "Talk.MOV")
  ∧ ∃ files, scanLocalVideos E mixed_uploads = (Returned files, mixed_uploads)
      ∧ "Talk.MOV" ∈ files.
Proof.
  intros E.
  assert (Hext : toLowerCase ".MOV" ∈ videoExtensions).
  { change (toLowerCase ".MOV") with ".mov". apply list_elem_of_further, list_elem_of_here. }
  split; [done|]. split; [exact Hext|]. split; [by eexists|].
  destruct (scanLocalVideos_lists_videos E mixed_uploads "Talk" ".MOV")
    as (files & H1 & H2 & _); [done|reflexivity|exact Hext|by eexists|].
  exists files. split; [exact H1|exact H2].
Defined.

(** X21. An entry with no dot after its first character is never listed:
    a name without an extension (the directory of the resumable uploads,
    say) and a dot-file such as [.mp4] are not taken for videos. *)
Theorem scanLocalVideos_needs_extension E w name :
  has "/" name = false → has "." (JS.skip 1 name) = false →
  ∃ files, scanLocalVideos E w = (Returned files, w) ∧ name ∉ files.
Proof.
  intros Hs Hd. rewrite run_scanLocalVideos. eexists. split; [reflexivity|].
  intros [_ Hv]%elem_of_filter_bool. unfold is_video in Hv. cbn zeta in Hv.
  rewrite extname_no_dot in Hv by done. by vm_compute in Hv.
Qed.

Lemma scanLocalVideos_needs_extension_witness :
  let E := sample_env true (inr (1920, 1080)) (fun _ => Done 1) in
  has "/" ".mp4" = false
  ∧ has "." (JS.skip 1 ".mp4") = false
  ∧ is_Some (uploadsDir mixed_uploads !! ".mp4")
  ∧ ∃ files, scanLocalVideos E mixed_uploads = (Returned files, mixed_uploads)
      ∧ ".mp4" ∉ files.
Proof.
  intros E. split; [reflexivity|]. split; [reflexivity|]. split; [by eexists|].
  apply (scanLocalVideos_needs_extension E mixed_uploads ".mp4"); reflexivity.
Defined.

Lemma run_get_local_videos E w :
  get_local_videos E w
  = (Returned (200, videos_body (entry_of (processedLocalVideos w)
                                   <$> List.filter is_video (map_to_list (uploadsDir w)).*1)),
     w).
Proof. unfold get_local_videos. run. rewrite run_scanLocalVideos. by run. Qed.

Lemma append_nonempty a b : a ≠ "" → a +:+ b ≠ "".
Proof. by destruct a. Qed.

(** X22. The listing follows the catalogue.  A video file that has not
    been processed is listed as [{filename, processed: false}]; once a
    process-request for it has transcoded to the end, the listing shows the
    catalogue's record in its place, marked as processed and with the
    package URL, whether or not the broadcast of that request threw.  The
    listing has one element per video file both times and is answered
    200. *)
Theorem local_listing_follows_catalogue E E' w base ext n :
  base ≠ "" → has "/" base = false →
  toLowerCase ext ∈ videoExtensions →
  is_Some (uploadsDir w !! (base +:+ ext)) →
  processedLocalVideos w !! (base +:+ ext) = None →
  ffmpeg E (single_job (InUploads (base +:+ ext)) (uuid E (uuids w))) = Done n →
  ∃ before after_ w1,
    get_local_videos E' w = (Returned (200, videos_body before), w)
    ∧ unprocessed_entry (base +:+ ext) ∈ before
    ∧ w1 = (post_process (Some (base +:+ ext)) E w).2
    ∧ get_local_videos E' w1 = (Returned (200, videos_body after_), w1)
    ∧ processed_entry
        {| vi_id := uuid E (uuids w); vi_filename := base +:+ ext;
           vi_hlsUrl := hlsUrl_of (uuid E (uuids w));
           vi_timestamp := clock E (ticks w); vi_processed := true |} ∈ after_
    ∧ length after_ = length before.
Proof.
  intros Hb Hs Hext Hfile Hv Hj.
  assert (Hvid : is_video (base +:+ ext) = true) by by apply is_video_suffix.
  destruct (post_process_first E w (base +:+ ext) n) as (r & w1 & Hrun & Hu & Hp & _);
    [by apply append_nonempty|done..|].
  eexists _, _, w1. rewrite !run_get_local_videos, Hrun, Hu, Hp. cbn [snd].
  split; [reflexivity|]. split; [|split; [reflexivity|split; [reflexivity|split]]].
  - apply list_elem_of_fmap. exists (base +:+ ext). unfold entry_of. rewrite Hv.
    split; [done|]. apply elem_of_filter_bool. split; [|done].
    by apply elem_of_uploads_listing.
  - apply list_elem_of_fmap. exists (base +:+ ext). unfold entry_of.
    rewrite lookup_insert_eq. split; [done|].
    apply elem_of_filter_bool. split; [|done]. by apply elem_of_uploads_listing.
  - by rewrite !length_fmap.
Qed.

Lemma local_listing_follows_catalogue_witness :
  let E := sample_env false (inr (1920, 1080)) (fun _ => Done 1) in
  let w := sample_world [observer "o1" 1] in
  "clip" ≠ ""
  ∧ toLowerCase ".mp4" ∈ videoExtensions
  ∧ is_Some (uploadsDir w !! "clip.mp4")
  ∧ ∃ before after_,
      get_local_videos E w = (Returned (200, videos_body before), w)
      ∧ unprocessed_entry "clip.mp4" ∈ before
      ∧ (get_local_videos E (post_process (Some "clip.mp4") E w).2).1
        = Returned (200, videos_body after_)
      ∧ processed_entry
          {| vi_id := "id0"; vi_filename := "clip.mp4";
             vi_hlsUrl := "/hls/id0/playlist.m3u8"; vi_timestamp := 0;
             vi_processed := true |} ∈ after_.
Proof.
  intros E w.
  assert (Hext : toLowerCase ".mp4" ∈ videoExtensions).
  { change (toLowerCase ".mp4") with ".mp4". apply list_elem_of_here. }
  split; [done|]. split; [exact Hext|]. split; [by eexists|].
  destruct (local_listing_follows_catalogue E E w "clip" ".mp4" 1)
    as (before & after_ & w1 & H1 & H2 & -> & H3 & H4 & _);
    [done|reflexivity|exact Hext|by eexists|reflexivity|reflexivity|].
  exists before, after_. split; [exact H1|]. split; [exact H2|].
  split; [exact (f_equal fst H3)|exact H4].
Defined.

(** ** The converter, the ladder and the flag names *)

(** X23. [processVideo] starts exactly one run, on the input it was given
    and into the directory of the identity it was given, and settles as the
    run does: when the run ends it returns the identity and the playlist is
    on disk, when the run errors it throws the encoder's own message, and
    while the run has not settled it is parked.  In every case it leaves
    both upload directories, the registries, the catalogue and the outbox
    as they were and takes no file of the HLS directory away. *)
Theorem processVideo_settles E w inputPath videoId :
  ∃ r w', processVideo inputPath videoId E w = (r, w')
    ∧ started w' = (started w ++ [single_job inputPath videoId])%list
    ∧ beside_hls w' = beside_hls w
    ∧ (∀ k, is_Some (hlsDir w !! k) → is_Some (hlsDir w' !! k))
    ∧ match ffmpeg E (single_job inputPath videoId) with
      | Done _ => r = Returned videoId ∧ is_Some (hlsDir w' !! (videoId, "playlist.m3u8"))
      | Failed _ msg => r = Thrown (Error msg)
      | Pending => r = Parked
      end.
Proof.
  unfold processVideo. run. fold (single_job inputPath videoId).
  match goal with
  | |- context [ffmpeg_await ?seg ?j E ?w0] =>
      destruct (ffmpeg E j) as [n|n msg|] eqn:Hj;
      [ destruct (ffmpeg_await_done seg j n E w0 Hj) as (w1 & Hh & ->)
      | destruct (ffmpeg_await_failed seg j n msg E w0 Hj) as (w1 & Hh & ->)
      | rewrite (ffmpeg_await_pending seg j E w0 Hj) ]
  end.
  - destruct Hh as (Ht & Hu & Hc & Hw & Hp & Ho & Hi & Hti & Hs & Hk). tidy. run.
    eexists _, _. split; [reflexivity|]. unfold beside_hls. tidy.
    rewrite Ht, Hu, Hc, Hw, Hp, Ho, Hi, Hti, Hs, ?app_nil_r.
    split; [done|]. split; [done|]. split; [|split; [done|]].
    + intros k Hk'. apply lookup_insert_is_Some'. right. by apply Hk.
    + cbn [job_vid job_output single_job]. rewrite lookup_insert_eq. by eexists.
  - destruct Hh as (Ht & Hu & Hc & Hw & Hp & Ho & Hi & Hti & Hs & Hk). tidy. run.
    eexists _, _. split; [reflexivity|]. unfold beside_hls. tidy.
    rewrite Ht, Hu, Hc, Hw, Hp, Ho, Hi, Hti, Hs, ?app_nil_r.
    split; [done|]. split; [done|]. split; [|done]. intros k Hk'. by apply Hk.
  - run. eexists _, _. split; [reflexivity|]. unfold beside_hls. tidy.
    by rewrite ?app_nil_r.
Qed.

(** X24. For a source no higher than 360 lines the ladder collapses: every
    entry of the master playlist advertises the source's own height and one
    and the same width, so the three variants differ in name and bandwidth
    only. *)
Theorem ladder_collapses_for_small_sources width height e :
  height ≤ 360 → e ∈ master_entries qualities width height →
  inf_height e = height
  ∧ inf_width e
    = JS.Math_round (PrimFloat.mul (JS.Number_of_Z height) (aspectRatio width height)).
Proof.
  intros Hh He. unfold master_entries, qualities in He.
  apply list_elem_of_fmap in He as (q & -> & Hq).
  assert (Hq' : targetHeight q height = height).
  { unfold targetHeight, JS.Math_min.
    repeat (apply elem_of_cons in Hq as [->|Hq]); [..|by apply elem_of_nil in Hq];
      cbn [q_height]; f_equal; lia. }
  unfold master_entry, targetWidth. cbn [inf_height inf_width]. by rewrite Hq'.
Qed.

Lemma ladder_collapses_for_small_sources_witness :
  270 ≤ 360
  ∧ master_entry 480 270 rung_360p ∈ master_entries qualities 480 270
  ∧ inf_height (master_entry 480 270 rung_360p) = 270
  ∧ inf_width (master_entry 480 270 rung_360p) = 480.
Proof.
  assert (Hin : master_entry 480 270 rung_360p ∈ master_entries qualities 480 270)
    by apply list_elem_of_here.
  split; [lia|]. split; [exact Hin|].
  destruct (ladder_collapses_for_small_sources 480 270 _ ltac:(lia) Hin) as [H1 H2].
  split; [exact H1|]. rewrite H2. vm_compute. reflexivity.
Defined.

(** X10. Flag names round-trip for every upload name that does not contain
    [.processed]: the flag written for it is recognised as a flag, the
    first pass reads it back as standing for that upload, the upload itself
    is not taken for a flag, and the second pass never picks the flag as an
    upload. *)
Theorem flag_names_round_trip file files ids :
  occurs ".processed" file = false →
  is_flag (flag_of file) = true
  ∧ originalFile_of (flag_of file) = file
  ∧ is_flag file = false
  ∧ flag_of file ∉ uploadFiles_of files ids.
Proof.
  intros Ho. split; [apply is_flag_flag_of|]. split; [by apply originalFile_of_flag_of|].
  split.
  - unfold is_flag. clear files ids. induction file as [|c s IH]; [done|].
    cbn [occurs] in Ho. apply orb_false_iff in Ho as [Hs Ho].
    cbn [JS.endsWith]. rewrite IH by done.
    destruct (String.eqb_spec (String c s) ".processed") as [Heq|]; [|done].
    by rewrite Heq in Hs.
  - unfold uploadFiles_of. intros [_ Hf]%elem_of_filter_bool.
    rewrite is_flag_flag_of in Hf. cbn in Hf. by rewrite andb_false_r in Hf.
Qed.

Lemma flag_names_round_trip_witness :
  occurs ".processed" "a.b.mp4" = false
  ∧ flag_of "a.b.mp4" = "a.b.mp4.processed"
  ∧ originalFile_of "a.b.mp4.processed" = "a.b.mp4".
Proof.
  split; [reflexivity|]. split; [reflexivity|].
  exact (proj1 (proj2 (flag_names_round_trip "a.b.mp4" [] ∅ eq_refl))).
Defined.

(** ** Witnesses for the attempts *)

Lemma fresh_flag_blocks_scan_plain_witness :
  let E := sample_env true (inr (1920, 1080)) (fun _ => Done 1) in
  occurs ".processed" "a" = false
  ∧ tusUploadDir aged_world !! flag_of "a" = Some (File 24 (IsoDate 0))
  ∧ (∀ n, clock E n = 1000 * Z.of_nat n)
  ∧ (ticks aged_world = 2 ∧ flag_count aged_world = 1)%nat
  ∧ started_on "a" (checkForCompletedUploads E aged_world).2 = [].
Proof.
  intros E. split; [reflexivity|]. split; [reflexivity|]. split; [reflexivity|].
  split; [split; reflexivity|].
  apply (fresh_flag_blocks_scan_plain E aged_world "a" 24 0); [reflexivity|reflexivity|].
  change (ticks aged_world) with 2%nat. change (flag_count aged_world) with 1%nat.
  intros n Hn. unfold TTL. cbn. lia.
Defined.

Lemma scan_file_failure_witness :
  let E := sample_env true (inr (1920, 1080)) (fun _ => Failed 1 "boom") in
  let w := sample_world [observer "o1" 1] in
  tusUploadDir w !! "a" = Some (File 10 Opaque)
  ∧ tusUploadDir w !! flag_of "a" = None
  ∧ ∃ w', scan_file "a" ∅ E w = (Returned ∅, w')
      ∧ tusUploadDir w' = tusUploadDir w
      ∧ outbox w' = [("o1", processing_started "id0"); ("o1", videoError "id0" "boom")].
Proof.
  intros E w. split; [reflexivity|]. split; [reflexivity|].
  destruct (scan_file_failure E w "a" ∅ 10 Opaque 40 1%nat "boom")
    as (w' & H1 & H2 & H3 & _);
    [reflexivity|reflexivity|reflexivity|by left|reflexivity|].
  exists w'. split; [exact H1|]. split; [exact H2|exact H3].
Defined.

Lemma push_failure_witness :
  let E := sample_env true (inr (1920, 1080)) (fun _ => Failed 0 "boom") in
  let w := sample_world [observer "o1" 1] in
  "a" ≠ ""
  ∧ ffprobe E (InTus "a") = inr (1920, 1080)
  ∧ ∃ w', on_upload_finish {| file_path := Some "a" |} E w = (Returned tt, w')
      ∧ tusUploadDir w' = tusUploadDir w
      ∧ started w' = [variant_job (InTus "a") "id0" rung_360p].
Proof.
  intros E w. split; [done|]. split; [reflexivity|].
  destruct (push_failure E w "a" 1920 1080 [] rung_360p (tail qualities)
              0%nat "boom") as (w' & H1 & H2 & _ & H3 & _);
    [done|reflexivity|by left|reflexivity|by intros ? ?%elem_of_nil|reflexivity|].
  exists w'. split; [exact H1|]. split; [exact H2|exact H3].
Defined.

(** ** The order of a scanner attempt *)

Lemma steps_ffmpeg_await_trace seg j : steps trace_grows (ffmpeg_await seg j).
Proof.
  unfold ffmpeg_await, write_segments. steps_struct; steps_prim; close_trace_grows.
Qed.

Lemma steps_ffmpeg_await_clients seg j : steps (same clients) (ffmpeg_await seg j).
Proof.
  unfold ffmpeg_await, write_segments. steps_struct; steps_prim; by unfold same.
Qed.

Lemma clients_remove_flag q w : clients (remove_flag q w) = clients w.
Proof. unfold remove_flag. by destruct (tusUploadDir w !! q) as [[|sz b]|]. Qed.

Ltac simpl_trace :=
  cbn [trace post push_trace push_outbox set_hls set_tus set_catalogue bump_ticks
       bump_uuids] in *.

(** X25. The scanner claims before it encodes.  For an upload that is
    complete and has no flag, the first thing an attempt leaves in the
    upload directory is the flag, and only then is the encoder started, on
    that upload and under the identity drawn for it; this holds however
    the encode goes on to settle.  (The statement is about broadcasts that
    get past [WebSocket.OPEN].) *)
Theorem scan_claims_before_encoding E w file ids size b jsz :
  tusUploadDir w !! file = Some (File size b) →
  tusUploadDir w !! (file +:+ ".json") = Some (File jsz (UploadInfo (Some size))) →
  tusUploadDir w !! flag_of file = None →
  can_broadcast E (clients w) →
  ∃ r w' evs, scan_file file ids E w = (r, w')
    ∧ trace w'
      = (trace w
         ++ TusWrite (flag_of file)
            :: Started (single_job (InTus file) (uuid E (uuids w))) :: evs)%list.
Proof.
  intros Hfile Hjson Hflag Hcb.
  unfold scan_file, tus.stat. run. rewrite Hfile. run.
  unfold exists_ at 1. run. rewrite run_access_json, Hjson. run.
  unfold tus.readFile. rewrite Hjson. run. cbn [JSON_parse]. run.
  rewrite bool_decide_eq_true_2 by done.
  unfold exists_ at 1. run. rewrite run_access_flag, Hflag. run. cbn [negb].
  run. unfold tus.writeFile. cbn [tusUploadDir bump_ticks bump_uuids]. rewrite Hflag. run.
  unfold scan_attempt. run.
  rewrite broadcast_clients_pass by done. tidy.
  unfold processVideo. run. fold (single_job (InTus file) (uuid E (uuids w))).
  match goal with
  | |- context [ffmpeg_await ?seg ?j E ?w0] =>
      pose proof (steps_ffmpeg_await_trace seg j E w0) as [evs Ht];
      pose proof (steps_ffmpeg_await_clients seg j E w0) as Hc;
      destruct (ffmpeg_await seg j E w0) as [[[]|e|] w1]
  end; unfold same in Hc; cbn [snd] in Ht, Hc; tidy; simpl_trace.
  all: assert (Hcb1 : can_broadcast E (clients w1)) by (by rewrite Hc).
  - run. unfold exists_, hls.access. run.
    destruct (hlsDir w1 !! _) as [a|]; run.
    + rewrite broadcast_clients_pass by done. run.
      eexists _, _, _. split; [reflexivity|]. simpl_trace. rewrite Ht. lists.
    + rewrite run_unlink_quietly. run.
      rewrite broadcast_clients_pass by (by rewrite clients_remove_flag). run.
      destruct (trace_remove_flag (flag_of file) w1) as [evs2 Ht2].
      eexists _, _, _. split; [reflexivity|]. simpl_trace. rewrite Ht2, Ht. lists.
  - run. rewrite run_unlink_quietly. run.
    rewrite broadcast_clients_pass by (by rewrite clients_remove_flag). run.
    destruct (trace_remove_flag (flag_of file) w1) as [evs2 Ht2].
    eexists _, _, _. split; [reflexivity|]. simpl_trace. rewrite Ht2, Ht. lists.
  - run. eexists _, _, _. split; [reflexivity|]. simpl_trace. rewrite Ht. lists.
Qed.

Lemma scan_claims_before_encoding_witness :
  let E := sample_env true (inr (1920, 1080)) (fun _ => Pending) in
  let w := sample_world [observer "o1" 1] in
  tusUploadDir w !! "a" = Some (File 10 Opaque)
  ∧ tusUploadDir w !! flag_of "a" = None
  ∧ ∃ r w' evs, scan_file "a" ∅ E w = (r, w')
      ∧ trace w' = TusWrite "a.processed" :: Started (single_job (InTus "a") "id0") :: evs.
Proof.
  intros E w. split; [reflexivity|]. split; [reflexivity|].
  destruct (scan_claims_before_encoding E w "a" ∅ 10 Opaque 40)
    as (r & w' & evs & H1 & H2); [reflexivity|reflexivity|reflexivity|by left|].
  exists r, w', evs. split; [exact H1|exact H2].
Defined.
